(** * x-ray-crawler: the crawl scheduler of [lib/index.js]

    A shallow embedding of the crawler's orchestration code and the
    properties of its in-flight counter, its cumulative limit, its fetch
    cycle and its candidate filter.

    JavaScript callbacks that the crawler receives from its user (hooks,
    driver, discovery function, throttle and delay generators) are functions
    that thread a user world [W]; asynchronous execution (timers, driver
    completions, job timeouts) is a labelled step function on the state of
    one run.  Hooks, drivers and generators are taken to return; a discovery
    function may throw, and so may the url parser of the host, and an
    exception that nothing catches ends the handler it happens in: the step
    has no result.  The order in which
    timers fire and drivers answer is left open, so what is proved of every
    run holds for every timing. *)

From Stdlib Require Import ZArith List String Ascii Bool Lia PeanoNat.
Import ListNotations.
Local Open Scope string_scope.
Local Open Scope Z_scope.

Set Implicit Arguments.

(** ** JavaScript values *)

Module JS.

(** The values that flow through the crawler.  Numbers are integers (the
    crawler only counts); [Obj] is an object known by its reference, [Err]
    an [Error] object, [Fn] a function object known by its name. *)
Inductive value : Type :=
| Undefined
| Null
| Bool (b : bool)
| Num (n : Z)
| Str (s : string)
| Arr (items : list value)
| Obj (ref : nat)
| Err (message : string)
| Fn (name : string).

(** ToBoolean. *)
Definition truthy (v : value) : bool :=
  match v with
  | Undefined | Null => false
  | Bool b => b
  | Num n => negb (n =? 0)
  | Str s => match s with EmptyString => false | String _ _ => true end
  | Arr _ | Obj _ | Err _ | Fn _ => true
  end.

(** ['string' == typeof v] *)
Definition is_string (v : value) : bool :=
  match v with Str _ => true | _ => false end.

(** [Array.isArray] *)
Definition isArray (v : value) : bool :=
  match v with Arr _ => true | _ => false end.

(** [a.concat(v)]: an array argument is spread one level, anything else is
    appended as one element. *)
Definition concat (a : list value) (v : value) : list value :=
  match v with
  | Arr items => a ++ items
  | _ => a ++ [v]
  end.


(** Limits and counters that may be [Infinity]. *)
Inductive number : Type :=
| Fin (n : Z)
| Infinity.

(** [--n] *)
Definition pred (n : number) : number :=
  match n with Fin z => Fin (z - 1) | Infinity => Infinity end.

(** [n <= 0] *)
Definition le0 (n : number) : bool :=
  match n with Fin z => z <=? 0 | Infinity => false end.

(** [k >= n] for a count [k] *)
Definition reaches (k : nat) (n : number) : bool :=
  match n with Fin z => z <=? Z.of_nat k | Infinity => false end.

(** What a call of user code gives back: a value, or an exception. *)
Inductive result (A : Type) : Type :=
| Ok (a : A)
| Throw (name message : string).
Arguments Throw {A} name message.

End JS.
Import JS.

(** ** The protocol of a url *)

(** The protocol that the legacy parser of the host finds in the strings of
    the sample crawlers: leading blanks go and the protocol is what the
    pattern [/^[a-z0-9.+-]+:/i] matches, in lower case.  The crawler itself
    takes the parser as a collaborator, which may throw; these definitions
    serve the samples only.  Characters are code units below 256. *)
Module Url.

Local Open Scope nat_scope.

(** The characters of [/^[a-z0-9.+-]+:/i]. *)
Definition scheme_char (c : ascii) : bool :=
  let n := nat_of_ascii c in
  ((97 <=? n) && (n <=? 122)) || ((65 <=? n) && (n <=? 90))
  || ((48 <=? n) && (n <=? 57))
  || (n =? 46) || (n =? 43) || (n =? 45).

Definition lower (c : ascii) : ascii :=
  let n := nat_of_ascii c in
  if (65 <=? n) && (n <=? 90) then ascii_of_nat (n + 32) else c.

(** The parser trims every code unit below 33 and the no-break space. *)
Definition is_space (c : ascii) : bool :=
  let n := nat_of_ascii c in
  (n <? 33) || (n =? 160).

(** The parser trims its input first; only the leading blanks matter for
    the scheme. *)
Fixpoint ltrim (s : string) : string :=
  match s with
  | String c s' => if is_space c then ltrim s' else s
  | EmptyString => s
  end.

(** The rest of the scheme, up to and including the colon. *)
Fixpoint scheme_rest (s : string) : option string :=
  match s with
  | EmptyString => None
  | String c s' =>
      if Ascii.eqb c ":" then Some ":"%string
      else if scheme_char c
           then option_map (String (lower c)) (scheme_rest s')
           else None
  end.

(** [parse(s).protocol]: the lower-cased scheme with its colon, or [null]. *)
Definition protocol (s : string) : option string :=
  match ltrim s with
  | EmptyString => None
  | String c s' =>
      if scheme_char c
      then option_map (String (lower c)) (scheme_rest s')
      else None
  end.

End Url.

(** ** Lexical scopes *)

Module Scope.

(** A scope chain, innermost binding first. *)
Definition env : Type := list (string * value).

Fixpoint lookup (x : string) (e : env) : option value :=
  match e with
  | [] => None
  | (y, v) :: e' => if String.eqb x y then Some v else lookup x e'
  end.

(** Reading an identifier: an unresolvable reference throws. *)
Definition var (e : env) (x : string) : result value :=
  match lookup x e with
  | Some v => Ok v
  | None => Throw "ReferenceError" (x ++ " is not defined")
  end.

(** The top-level bindings of [lib/index.js] (its [var]s and function
    declarations) and the globals of the host that the file uses. *)
Definition module_scope : env :=
  map (fun n => (n, Fn n))
    ["Crawler"; "Emitter"; "context"; "delegate"; "parse"; "cheerio";
     "selectn"; "enqueue"; "yieldly"; "wrapfn"; "isArray"; "ms"; "debug";
     "absolutes"; "rate_limit"; "select"; "range"; "driver";
     "json_select"; "canRequest";
     "module"; "exports"; "require"; "setTimeout"; "Array"].

Definition bind {A B : Type} (r : result A) (k : A -> result B) : result B :=
  match r with
  | Ok a => k a
  | Throw n m => Throw n m
  end.

(** [items.map(f)] where [f] may throw. *)
Fixpoint map_result {A B : Type} (f : A -> result B) (l : list A)
  : result (list B) :=
  match l with
  | [] => Ok []
  | a :: l' =>
      bind (f a) (fun b => bind (map_result f l') (fun bs => Ok (b :: bs)))
  end.

(** [items.filter(f)] where [f] may throw: the first exception ends the
    call. *)
Fixpoint filter_result {A : Type} (f : A -> result bool) (l : list A)
  : result (list A) :=
  match l with
  | [] => Ok []
  | a :: l' =>
      bind (f a) (fun keep =>
      bind (filter_result f l') (fun rest =>
      Ok (if keep then a :: rest else rest)))
  end.

End Scope.

(** ** Request contexts *)

(** The content classification that [response.is] tests. *)
Inductive kind : Type := Html | Xml | Json | Other.

Definition kind_eqb (a b : kind) : bool :=
  match a, b with
  | Html, Html | Xml, Xml | Json, Json | Other, Other => true
  | _, _ => false
  end.

(** The inbound descriptor: [ctx.body] is the body of the response. *)
Record Response : Type := {
  res_type : kind;
  res_body : value
}.

(** One [http-context]: [ctx_ref] is the identity of the object. *)
Record Context : Type := {
  ctx_ref : nat;
  ctx_url : value;
  ctx_request : list (string * string);
  ctx_response : Response
}.

Definition ctx_body (c : Context) : value := res_body (ctx_response c).

Definition response_is (c : Context) (k : kind) : bool :=
  kind_eqb (res_type (ctx_response c)) k.

(** [context()]: a fresh context, nothing requested, no body. *)
Definition context (ref : nat) : Context :=
  {| ctx_ref := ref; ctx_url := Undefined; ctx_request := [];
     ctx_response := {| res_type := Other; res_body := Undefined |} |}.

(** [ctx.url = url] *)
Definition set_url (u : value) (c : Context) : Context :=
  {| ctx_ref := ctx_ref c; ctx_url := u; ctx_request := ctx_request c;
     ctx_response := ctx_response c |}.

(** [ctx.body = v] *)
Definition set_body (v : value) (c : Context) : Context :=
  {| ctx_ref := ctx_ref c; ctx_url := ctx_url c;
     ctx_request := ctx_request c;
     ctx_response := {| res_type := res_type (ctx_response c);
                        res_body := v |} |}.

(** User code changes a context in place: the object stays the same one. *)
Definition same_object (c c' : Context) : Context :=
  {| ctx_ref := ctx_ref c; ctx_url := ctx_url c';
     ctx_request := ctx_request c'; ctx_response := ctx_response c' |}.

(** [v != ctx] for the context object [ctx]: another object is never equal
    to it, and a primitive is compared with the string form of a plain
    object. *)
Definition differs_from (v : value) (c : Context) : bool :=
  match v with
  | Obj r => negb (Nat.eqb r (ctx_ref c))
  | Str s => negb (String.eqb s "[object Object]")
  | _ => true
  end.

Section Crawler.

(** The world of the user's callbacks. *)
Variable W : Type.

(** [cheerio.load] followed by [absolutes]: the traversable document of an
    html or xml body, links made absolute against the url of the fetch.
    Arguments: xml mode, url, body. *)
Variable load : bool -> value -> value -> value.

(** [parse(url).protocol], with [parse] the legacy parser of the host
    ([url.parse]): the protocol of the string, [null] when it has none, or
    the exception that the parser throws on a string it refuses. *)
Variable parse : string -> result (option string).

(** [selectn(selector, obj)] *)
Variable selectn : value -> value -> value.

(** [select($, selector)] of [./select], over a loaded document. *)
Variable select : value -> value -> value.

(** *** [canRequest] *)

(** [canRequest(url)]: the protocol of a string, [false] for anything else;
    the exception of the parser goes through. *)
Definition canRequest (url : value) : result value :=
  if is_string url
  then match url with
       | Str s =>
           Scope.bind (parse s) (fun p =>
           Ok match p with Some p => Str p | None => Null end)
       | _ => Ok Undefined
       end
  else Ok (Bool false).

(** [canRequest] as the callback of [filter]: its answer as a boolean. *)
Definition wanted (url : value) : result bool :=
  Scope.bind (canRequest url) (fun v => Ok (truthy v)).

(** The candidate is kept: [canRequest] returns and its answer is truthy. *)
Definition passes (url : value) : bool :=
  match canRequest url with
  | Ok v => truthy v
  | Throw _ _ => false
  end.

(** A request or response hook.  The hook is handed one descriptor of the
    context; the descriptors give access to the context they belong to, so
    the model hands over the context. *)
Definition hook : Type := W -> Context -> W * Context.

(** What a driver calls back with: the context as it left it, and the
    [(err, res)] of its callback. *)
Record answer : Type := {
  ans_ctx : Context;
  ans_err : value;
  ans_res : value
}.

Definition Driver : Type := W -> Context -> W * answer.

(** A discovery function [paginate($, ctx)]. *)
Definition discovery : Type := W -> value -> Context -> W * result value.

(** [throttle()] and [delay()]: milliseconds to wait. *)
Definition clock : Type := W -> W * Z.

Definition run_hook (h : hook) (w : W) (c : Context) : W * Context :=
  let (w', c') := h w c in (w', same_object c c').

(** *** [json_select] and [compile] *)

(** [json_select(selector, json)].  A call [selectn(selector, obj)] reads
    the identifiers [selectn], [selector] and [obj] in the scope where it
    stands: the callback of [map] binds [obj], the other branch stands in
    the scope of [json_select] itself. *)
Definition json_select (selector json : value) : result value :=
  let scope : Scope.env :=
    (("selector", selector) :: ("json", json) :: Scope.module_scope) in
  if isArray json
  then
    match json with
    | Arr items =>
        Scope.bind
          (Scope.map_result
             (fun o =>
                let inner := ("obj", o) :: scope in
                Scope.bind (Scope.var inner "selectn") (fun _ =>
                Scope.bind (Scope.var inner "selector") (fun s =>
                Scope.bind (Scope.var inner "obj") (fun x =>
                Ok (selectn s x)))))
             items)
          (fun l => Ok (Arr l))
    | _ => Ok Undefined
    end
  else
    Scope.bind (Scope.var scope "selectn") (fun _ =>
    Scope.bind (Scope.var scope "selector") (fun s =>
    Scope.bind (Scope.var scope "obj") (fun x =>
    Ok (selectn s x)))).

(** [compile($, ctx)] inside [paginate(fn)], for a [fn] that is no
    function. *)
Definition compile (fn : value) : discovery :=
  fun w doc ctx =>
    (w,
     if response_is ctx Html || response_is ctx Xml then Ok (select doc fn)
     else if response_is ctx Json then json_select fn doc
     else Ok (Arr [])).

(** *** [Crawler.prototype.get] *)

(** What [fn] is called with: [fn(err)] or [fn(null, ctx)]. *)
Record reply : Type := {
  rep_err : value;
  rep_ctx : option Context
}.

(** [done(err, res)] inside [get], for the context [ctx] of that fetch and
    the response hook read when the fetch began. *)
Definition done (response : hook) (ctx : Context) (err res : value) (w : W)
  : W * reply :=
  if truthy err then (w, {| rep_err := err; rep_ctx := None |})
  else
    let ctx1 :=
      if truthy res && differs_from res ctx then set_body res ctx else ctx in
    let (w', ctx2) := run_hook response w ctx1 in
    (w', {| rep_err := Null; rep_ctx := Some ctx2 |}).

(** *** The crawler's state and its fluent methods *)

(** [this.state].  [st_paginate] is [None] when the slot holds a value that
    is no function and is falsy; [st_timeout] is [None] for [false];
    [st_concurrency] is [None] while the key is absent. *)
Record State : Type := {
  st_response : hook;
  st_paginate : option discovery;
  st_throttle : clock;
  st_request : hook;
  st_driver : Driver;
  st_delay_to : bool;
  st_limit : number;
  st_delay : clock;
  st_timeout : option Z;
  st_throws : bool;
  st_url : value;
  st_concurrency : option nat
}.

(** [driver()], [rate_limit()] and [range()] with no arguments: the default
    instances of [./http], [./rate-limit] and [./range]. *)
Variable http : Driver.
Variable rate_limit0 : clock.
Variable range0 : clock.

(** [function(){}] as a hook and as a discovery function. *)
Definition noop_hook : hook := fun w c => (w, c).
Definition noop_paginate : discovery := fun w _ _ => (w, Ok Undefined).

(** [Crawler(url)] *)
Definition Crawler (url : value) : State :=
  {| st_response := noop_hook;
     st_paginate := Some noop_paginate;
     st_throttle := rate_limit0;
     st_request := noop_hook;
     st_driver := http;
     st_delay_to := false;
     st_limit := Infinity;
     st_delay := range0;
     st_timeout := None;
     st_throws := false;
     st_url := url;
     st_concurrency := None |}.

(** The argument of [paginate(fn)]: a function, or anything else (a
    selector). *)
Inductive paginate_arg : Type :=
| Function (f : discovery)
| Selector (v : value).

(** The setters: one field changes. *)
Inductive setter : Type :=
| SetConcurrency (n : nat)
| SetResponse (h : hook)
| SetRequest (h : hook)
| SetDriver (d : Driver)
| SetThrows (b : bool)
| SetLimit (n : number)
| SetThrottle (c : clock)
| SetDelay (c : clock)
| SetTimeout (t : option Z)
| SetPaginate (fn : paginate_arg).

Definition apply_setter (s : setter) (st : State) : State :=
  {| st_response :=
       match s with SetResponse h => h | _ => st_response st end;
     st_paginate :=
       match s with
       | SetPaginate (Function f) => Some f
       | SetPaginate (Selector v) => Some (compile v)
       | _ => st_paginate st
       end;
     st_throttle :=
       match s with SetThrottle c => c | _ => st_throttle st end;
     st_request :=
       match s with SetRequest h => h | _ => st_request st end;
     st_driver :=
       match s with SetDriver d => d | _ => st_driver st end;
     st_delay_to := st_delay_to st;
     st_limit :=
       match s with SetLimit n => n | _ => st_limit st end;
     st_delay :=
       match s with SetDelay c => c | _ => st_delay st end;
     st_timeout :=
       match s with SetTimeout t => t | _ => st_timeout st end;
     st_throws :=
       match s with SetThrows b => b | _ => st_throws st end;
     st_url := st_url st;
     st_concurrency :=
       match s with SetConcurrency n => Some n | _ => st_concurrency st end |}.

(** A crawler as its user builds it: the constructor, then setters. *)
Definition configure (url : value) (l : list setter) : State :=
  fold_left (fun st s => apply_setter s st) l (Crawler url).

(** *** The job queue *)

(** A fetch in progress: the closure of one [get] call that waits for its
    driver. *)
Record Job : Type := {
  job_url : value;
  job_ctx : Context;
  job_driver : Driver;
  job_response : hook
}.

(** Modelled from the spec: the job queue ([enqueue], a dependency whose
    source is not in the repository) after section 4.3: at most
    [q_concurrency] jobs run, further accepted submissions wait in FIFO
    order, and a submission is rejected once [q_accepted], the cumulative
    count of accepted ones, has reached [q_limit]. *)
Record Queue : Type := {
  q_concurrency : nat;
  q_timeout : option Z;
  q_limit : number;
  q_accepted : nat;
  q_running : list Job;
  q_waiting : list value
}.

(** Modelled from the spec: [enqueue(fn, options)].  A queue needs one slot
    to run anything: an absent or zero [concurrency] counts as 1. *)
Definition enqueue (concurrency : option nat) (timeout : option Z)
  (limit : number) : Queue :=
  {| q_concurrency := match concurrency with Some (S n) => S n | _ => 1%nat end;
     q_timeout := timeout;
     q_limit := limit;
     q_accepted := 0;
     q_running := [];
     q_waiting := [] |}.

Definition accept (url : value) (q : Queue) : Queue :=
  {| q_concurrency := q_concurrency q; q_timeout := q_timeout q;
     q_limit := q_limit q; q_accepted := S (q_accepted q);
     q_running := q_running q; q_waiting := (q_waiting q ++ [url])%list |}.

Definition set_waiting (l : list value) (q : Queue) : Queue :=
  {| q_concurrency := q_concurrency q; q_timeout := q_timeout q;
     q_limit := q_limit q; q_accepted := q_accepted q;
     q_running := q_running q; q_waiting := l |}.

Definition set_running (l : list Job) (q : Queue) : Queue :=
  {| q_concurrency := q_concurrency q; q_timeout := q_timeout q;
     q_limit := q_limit q; q_accepted := q_accepted q;
     q_running := l; q_waiting := q_waiting q |}.

Definition remove_at {A : Type} (k : nat) (l : list A) : list A :=
  (firstn k l ++ skipn (S k) l)%list.

(** *** One run of [crawl] *)

(** What a run does that its user can observe, in order. *)
Inductive Op : Type :=
| Fetch (url : value)                      (* [get(url, next)] begins *)
| EmitResponse (doc : value) (ctx : Context) (* [emit('response', $, ctx)] *)
| EmitError (err url : value)              (* [emit('error', err)], [err.url] *)
| Inc                                      (* [scheduled++] *)
| Dec                                      (* [--scheduled] *)
| Timer (url : value) (wait : Z)           (* [setTimeout(..., wait)] *)
| Submit (url : value) (queued : bool)     (* [queue(url, ...)], accepted or not *)
| CallDone.                                (* [done()] *)

(** The state of one run: the crawler object ([self], which the user can
    still change), the locals that [crawl] captured, the timers that are
    set, the world, the next context reference and the trace. *)
Record Run : Type := {
  self : State;
  limit : number;
  paginate : option discovery;
  throttle : clock;
  delay : clock;
  throws : bool;
  scheduled : Z;
  queue : Queue;
  timers : list (value * Z);
  world : W;
  next_ref : nat;
  trace : list Op
}.

Definition with_self (st : State) (r : Run) : Run :=
  {| self := st; limit := limit r; paginate := paginate r;
     throttle := throttle r; delay := delay r; throws := throws r;
     scheduled := scheduled r; queue := queue r; timers := timers r;
     world := world r; next_ref := next_ref r; trace := trace r |}.

Definition with_limit (n : number) (r : Run) : Run :=
  {| self := self r; limit := n; paginate := paginate r;
     throttle := throttle r; delay := delay r; throws := throws r;
     scheduled := scheduled r; queue := queue r; timers := timers r;
     world := world r; next_ref := next_ref r; trace := trace r |}.

Definition with_scheduled (n : Z) (r : Run) : Run :=
  {| self := self r; limit := limit r; paginate := paginate r;
     throttle := throttle r; delay := delay r; throws := throws r;
     scheduled := n; queue := queue r; timers := timers r;
     world := world r; next_ref := next_ref r; trace := trace r |}.

Definition with_queue (q : Queue) (r : Run) : Run :=
  {| self := self r; limit := limit r; paginate := paginate r;
     throttle := throttle r; delay := delay r; throws := throws r;
     scheduled := scheduled r; queue := q; timers := timers r;
     world := world r; next_ref := next_ref r; trace := trace r |}.

Definition with_timers (l : list (value * Z)) (r : Run) : Run :=
  {| self := self r; limit := limit r; paginate := paginate r;
     throttle := throttle r; delay := delay r; throws := throws r;
     scheduled := scheduled r; queue := queue r; timers := l;
     world := world r; next_ref := next_ref r; trace := trace r |}.

Definition with_world (w : W) (r : Run) : Run :=
  {| self := self r; limit := limit r; paginate := paginate r;
     throttle := throttle r; delay := delay r; throws := throws r;
     scheduled := scheduled r; queue := queue r; timers := timers r;
     world := w; next_ref := next_ref r; trace := trace r |}.

Definition with_next_ref (n : nat) (r : Run) : Run :=
  {| self := self r; limit := limit r; paginate := paginate r;
     throttle := throttle r; delay := delay r; throws := throws r;
     scheduled := scheduled r; queue := queue r; timers := timers r;
     world := world r; next_ref := n; trace := trace r |}.

Definition log (o : Op) (r : Run) : Run :=
  {| self := self r; limit := limit r; paginate := paginate r;
     throttle := throttle r; delay := delay r; throws := throws r;
     scheduled := scheduled r; queue := queue r; timers := timers r;
     world := world r; next_ref := next_ref r;
     trace := (trace r ++ [o])%list |}.

(** [schedule(url)] *)
Definition schedule (url : value) (r : Run) : Run :=
  let r := with_limit (JS.pred (limit r)) r in
  if le0 (limit r) then r
  else
    let (w1, t) := throttle r (world r) in
    let (w2, d) := delay r w1 in
    let wait := t + d in
    let r := with_world w2 r in
    let r := log Inc (with_scheduled (scheduled r + 1) r) in
    log (Timer url wait) (with_timers (timers r ++ [(url, wait)])%list r).

(** [onresponse(ctx)].  An exception in the discovery function or in the
    parser that [canRequest] calls, or a [paginate] that is no function,
    ends the handler: [None]. *)
Definition onresponse (ctx : Context) (r : Run) : option Run :=
  let isHTML := response_is ctx Html in
  let isXML := response_is ctx Xml in
  let doc :=
    if isHTML || isXML then load isXML (ctx_url ctx) (ctx_body ctx)
    else ctx_body ctx in
  let r := log (EmitResponse doc ctx) r in
  match paginate r with
  | None => None
  | Some paginate =>
      let (w', next_page) := paginate (world r) doc ctx in
      match next_page with
      | Throw _ _ => None
      | Ok next_page =>
          let urls :=
            if truthy next_page
            then Scope.filter_result wanted (JS.concat [] next_page)
            else Ok [] in
          match urls with
          | Throw _ _ => None
          | Ok urls =>
              Some (fold_left (fun r u => schedule u r) urls (with_world w' r))
          end
      end
  end.

(** [onjobfinish(url)(err, ctx)] *)
Definition onjobfinish (url : value) (rep : reply) (r : Run) : option Run :=
  let handled :=
    if truthy (rep_err rep)
    then Some (log (EmitError (rep_err rep) url) r)
    else match rep_ctx rep with
         | Some ctx => onresponse ctx r
         | None => Some r
         end in
  match handled with
  | None => None
  | Some r =>
      let r := log Dec (with_scheduled (scheduled r - 1) r) in
      if scheduled r <=? 0 then Some (log CallDone r) else Some r
  end.

(** [self.get(url, next)] as the queue calls it for a job that starts, with
    [next] leading to [onjobfinish(url)].  A body that is already there
    completes the job on the spot; otherwise the job waits for its driver. *)
Definition get (url : value) (r : Run) : option Run :=
  let response := st_response (self r) in
  let request := st_request (self r) in
  let driver := st_driver (self r) in
  let ctx := set_url url (context (next_ref r)) in
  let r := log (Fetch url) (with_next_ref (S (next_ref r)) r) in
  let (w1, ctx) := run_hook request (world r) ctx in
  let r := with_world w1 r in
  if truthy (ctx_body ctx)
  then
    let (w2, rep) := done response ctx Null (Obj (ctx_ref ctx)) w1 in
    onjobfinish url rep (with_world w2 r)
  else
    Some (with_queue
            (set_running
               (q_running (queue r)
                ++ [{| job_url := url; job_ctx := ctx; job_driver := driver;
                       job_response := response |}])%list
               (queue r))
            r).

(** Modelled from the spec: the queue starts waiting items, first come
    first served, while a slot is free.  [n] bounds the number of starts;
    a job that completes on the spot frees its slot again. *)
Fixpoint pump (n : nat) (r : Run) : option Run :=
  match n with
  | O => Some r
  | S n' =>
      match q_waiting (queue r) with
      | [] => Some r
      | url :: rest =>
          if (List.length (q_running (queue r)) <? q_concurrency (queue r))%nat
          then
            match get url (with_queue (set_waiting rest (queue r)) r) with
            | Some r' => pump n' r'
            | None => None
            end
          else Some r
      end
  end.

(** Modelled from the spec: [queue(url, onjobfinish(url))], the submission
    of one item; the boolean is the [accepted] of section 4.3, whether the
    queue took the item. *)
Definition submit (url : value) (r : Run) : option (bool * Run) :=
  if reaches (q_accepted (queue r)) (q_limit (queue r))
  then Some (false, log (Submit url false) r)
  else
    let r := log (Submit url true) (with_queue (accept url (queue r)) r) in
    match pump (List.length (q_waiting (queue r))) r with
    | Some r' => Some (true, r')
    | None => None
    end.

(** The function that [schedule] hands to [setTimeout]. *)
Definition timer_callback (url : value) (r : Run) : option Run :=
  match submit url r with
  | Some (queued, r') => if negb queued then Some r' else Some r'
  | None => None
  end.

(** [this.paginate() ? this.limit() : 1] *)
Definition start_limit (st : State) : number :=
  match st_paginate st with Some _ => st_limit st | None => Fin 1 end.

(** [crawl(done)] up to its [return this]. *)
Definition crawl (st : State) (w : W) : option Run :=
  let limit := start_limit st in
  let r :=
    {| self := st; limit := limit; paginate := st_paginate st;
       throttle := st_throttle st; delay := st_delay st;
       throws := st_throws st; scheduled := 0;
       queue := enqueue (st_concurrency st) (st_timeout st) limit;
       timers := []; world := w; next_ref := 0; trace := [] |} in
  let r := log Inc (with_scheduled (scheduled r + 1) r) in
  option_map snd (submit (st_url st) r).

(** *** Asynchronous events *)

(** What can happen to a run after [crawl] returned: the [k]-th timer
    fires, the driver of the [k]-th running job calls back, or the queue
    gives up on the [k]-th running job. *)
Inductive event : Type :=
| Fire (k : nat)
| Complete (k : nat)
| Expire (k : nat).

(** Modelled from the spec: a running job leaves the queue; its callback
    runs, then the queue starts what waits. *)
Definition finish (k : nat) (j : Job) (rep : reply) (r : Run) : option Run :=
  let r := with_queue (set_running (remove_at k (q_running (queue r))) (queue r)) r in
  match onjobfinish (job_url j) rep r with
  | Some r' => pump (List.length (q_waiting (queue r'))) r'
  | None => None
  end.

Definition step (r : Run) (e : event) : option Run :=
  match e with
  | Fire k =>
      match nth_error (timers r) k with
      | Some (url, _) =>
          timer_callback url (with_timers (remove_at k (timers r)) r)
      | None => None
      end
  | Complete k =>
      match nth_error (q_running (queue r)) k with
      | Some j =>
          let (w1, a) := job_driver j (world r) (job_ctx j) in
          let ctx := same_object (job_ctx j) (ans_ctx a) in
          let (w2, rep) := done (job_response j) ctx (ans_err a) (ans_res a) w1 in
          finish k j rep (with_world w2 r)
      | None => None
      end
  | Expire k =>
      match q_timeout (queue r), nth_error (q_running (queue r)) k with
      | Some _, Some j =>
          finish k j {| rep_err := Err "timeout"; rep_ctx := None |} r
      | _, _ => None
      end
  end.

(** A run after a list of events. *)
Fixpoint steps (es : list event) (r : Run) : option Run :=
  match es with
  | [] => Some r
  | e :: es' =>
      match step r e with
      | Some r' => steps es' r'
      | None => None
      end
  end.

(** A crawl and the events that follow it. *)
Definition run (st : State) (w : W) (es : list event) : option Run :=
  match crawl st w with
  | Some r => steps es r
  | None => None
  end.

(** The user calls a setter while the run is going on. *)
Definition mutate (s : setter) (r : Run) : Run :=
  with_self (apply_setter s (self r)) r.

(** *** Observations on a run *)

Definition is_fetch (o : Op) : bool :=
  match o with Fetch _ => true | _ => false end.
Definition is_done (o : Op) : bool :=
  match o with CallDone => true | _ => false end.
Definition is_submit (o : Op) : bool :=
  match o with Submit _ _ => true | _ => false end.
Definition is_rejection (o : Op) : bool :=
  match o with Submit _ false => true | _ => false end.
Definition is_error (o : Op) : bool :=
  match o with EmitError _ _ => true | _ => false end.
Definition is_timer (o : Op) : bool :=
  match o with Timer _ _ => true | _ => false end.

Definition count (p : Op -> bool) (t : list Op) : nat :=
  List.length (filter p t).

(** Fetches begun, calls of the completion callback, submissions to the
    queue and submissions that the queue refused. *)
Definition fetches (r : Run) : nat := count is_fetch (trace r).
Definition dones (r : Run) : nat := count is_done (trace r).
Definition submissions (r : Run) : nat := count is_submit (trace r).
Definition rejections (r : Run) : nat := count is_rejection (trace r).

(** The units of work that are pending: timers set, jobs running, jobs
    waiting in the queue. *)
Definition pending (r : Run) : nat :=
  (List.length (timers r) + List.length (q_running (queue r))
   + List.length (q_waiting (queue r)))%nat.

(** No timer is set and no job runs: no event can happen. *)
Definition quiescent (r : Run) : bool :=
  match timers r, q_running (queue r) with
  | [], [] => true
  | _, _ => false
  end.

(** The states that a crawl of the crawler [st] goes through. *)
Definition reachable (st : State) (w : W) (r : Run) : Prop :=
  exists r0 es, crawl st w = Some r0 /\ steps es r0 = Some r.

(** A discovery function that returns, whatever it returns. *)
Definition returning (f : W -> value -> Context -> W * value) : discovery :=
  fun w doc ctx => let (w', v) := f w doc ctx in (w', Ok v).

(** What [schedule] writes on the trace for the timers it sets: each
    increment, then its timer. *)
Definition children (added : list (value * Z)) : list Op :=
  flat_map (fun t => [Inc; Timer (fst t) (snd t)]) added.

(** The events that a state allows, and all the states one event away. *)
Definition events (r : Run) : list event :=
  (map Fire (seq 0 (List.length (timers r)))
   ++ map Complete (seq 0 (List.length (q_running (queue r))))
   ++ match q_timeout (queue r) with
      | Some _ => map Expire (seq 0 (List.length (q_running (queue r))))
      | None => []
      end)%list.

Definition successors (r : Run) : list Run :=
  flat_map (fun e => match step r e with Some r' => [r'] | None => [] end)
    (events r).

(** Every way a run can go, [n] events deep: the states where it rests
    (flag [true]) and the states where the depth ran out (flag [false]). *)
Fixpoint explore (n : nat) (r : Run) : list (bool * Run) :=
  if quiescent r then [(true, r)]
  else
    match n with
    | O => [(false, r)]
    | S n' => flat_map (explore n') (successors r)
    end.

(** *** The books of a run *)

(** The state in which [crawl] submits the seed. *)
Definition seeding (st : State) (w : W) : Run :=
  log Inc
    (with_scheduled 1
       {| self := st; limit := start_limit st; paginate := st_paginate st;
          throttle := st_throttle st; delay := st_delay st;
          throws := st_throws st; scheduled := 0;
          queue := enqueue (st_concurrency st) (st_timeout st) (start_limit st);
          timers := []; world := w; next_ref := 0; trace := [] |}).

(** The bound on the events of a run with a finite limit. *)
Definition event_bound (n : number) : Z :=
  match n with Fin L => 2 * L - 1 | Infinity => 0 end.

(** [Good s a b m]: no submission was refused; the counter equals the
    pending units plus [s]; the completion callback was called once the
    counter came to zero and not before; the fetches begun and the jobs
    waiting, plus [a], are the submissions accepted; and with a finite limit
    [L] on the queue, the accepted submissions, the timers and the budget
    left in [limit], plus [b], make up [L + 1].  The offsets are 0 between
    events and 1 inside a handler that has taken a unit out of a list and
    not yet put it elsewhere.  [m] bounds the events still to come when the
    limit is finite: two for a timer and for each unit of budget (its firing
    and the completion of its job), one for a job. *)
Definition Good (s a b : nat) (m : Z) (r : Run) : Prop :=
  rejections r = 0%nat
  /\ scheduled r = Z.of_nat (pending r + s)
  /\ (dones r = 0%nat /\ 1 <= scheduled r \/ dones r = 1%nat /\ scheduled r = 0)
  /\ (fetches r + List.length (q_waiting (queue r)) + a)%nat
     = q_accepted (queue r)
  /\ submissions r = q_accepted (queue r)
  /\ match q_limit (queue r) with
     | Infinity => limit r = Infinity
     | Fin L =>
         exists l, limit r = Fin l
           /\ Z.of_nat (q_accepted (queue r))
              + Z.of_nat (List.length (timers r)) + Z.max l 1
              + Z.of_nat b = L + 1
           /\ 2 * (Z.max l 1 - 1) + 2 * Z.of_nat (List.length (timers r))
              + Z.of_nat (List.length (q_waiting (queue r)))
              + Z.of_nat (List.length (q_running (queue r))) <= m
     end.

(** The locals that [crawl] captured and the options of the queue. *)
Definition frame (r r' : Run) : Prop :=
  self r' = self r /\ paginate r' = paginate r /\ throttle r' = throttle r
  /\ delay r' = delay r /\ throws r' = throws r
  /\ q_concurrency (queue r') = q_concurrency (queue r)
  /\ q_timeout (queue r') = q_timeout (queue r)
  /\ q_limit (queue r') = q_limit (queue r).

(** The same, and the queue as a whole. *)
Definition calm (r r' : Run) : Prop :=
  self r' = self r /\ paginate r' = paginate r /\ throttle r' = throttle r
  /\ delay r' = delay r /\ throws r' = throws r /\ queue r' = queue r.

(** Nothing waits while a slot is free, and there is a slot. *)
Definition Sat (r : Run) : Prop :=
  (q_waiting (queue r) = []
   \/ (q_concurrency (queue r) <= List.length (q_running (queue r)))%nat)
  /\ (1 <= q_concurrency (queue r))%nat.

(** *** Discovery and configuration, for the statements below *)

(** What [onresponse] keeps of the answer of the discovery function, or
    the exception of the parser. *)
Definition candidates (next_page : value) : result (list value) :=
  if truthy next_page
  then Scope.filter_result wanted (JS.concat [] next_page)
  else Ok [].

(** The parser takes whatever [f] answers: no candidate makes it throw. *)
Definition parseable (f : W -> value -> Context -> W * value) : Prop :=
  forall w doc c, exists urls, candidates (snd (f w doc c)) = Ok urls.

(** The urls that [schedule] lets through when called on each of [urls] in
    turn with [limit] at [n]. *)
Definition allowance (n : number) (urls : list value) : list value :=
  match n with
  | Fin l => firstn (Z.to_nat (l - 1)) urls
  | Infinity => urls
  end.

(** A run with another crawler object behind it and another [throws]. *)
Definition rebase (st : State) (b : bool) (r : Run) : Run :=
  {| self := st; limit := limit r; paginate := paginate r;
     throttle := throttle r; delay := delay r; throws := b;
     scheduled := scheduled r; queue := queue r; timers := timers r;
     world := world r; next_ref := next_ref r; trace := trace r |}.

(** Two crawler states with the same hooks and driver. *)
Definition same_fetch (s1 s2 : State) : Prop :=
  st_request s1 = st_request s2 /\ st_response s1 = st_response s2
  /\ st_driver s1 = st_driver s2.

(** The setters that [get] does not read back. *)
Definition captured (s : setter) : bool :=
  match s with
  | SetRequest _ | SetResponse _ | SetDriver _ => false
  | _ => true
  end.

Definition is_paginate (s : setter) : bool :=
  match s with SetPaginate _ => true | _ => false end.

(** Nothing scheduled, nothing waiting, and the seed counted if the queue
    took it. *)
Definition Single (r : Run) : Prop :=
  timers r = [] /\ q_waiting (queue r) = []
  /\ q_accepted (queue r)
     = (if reaches 0 (q_limit (queue r)) then 0 else 1)%nat.

(** *** The fetch cycle as the specification words it *)


End Crawler.

Arguments SetConcurrency {W} n.
Arguments SetThrows {W} b.
Arguments SetLimit {W} n.
Arguments SetTimeout {W} t.
Arguments enqueue {W} concurrency timeout limit.

(** ** Sample crawlers *)

Module Sample.

(** Collaborators for runs that can be evaluated: no world, documents are
    the bodies themselves, no wait. *)
Definition load (xml : bool) (url body : value) : value := body.

(** The parser on the strings of the samples: their protocol, and the
    exception of the host on the one url with a bracket left open. *)
Definition parse (s : string) : result (option string) :=
  if String.eqb s "http://[::1"
  then Throw "TypeError" "Invalid URL"
  else Ok (Url.protocol s).
Definition selectn (selector obj : value) : value := Undefined.
Definition select (doc selector : value) : value := Undefined.
Definition no_wait : clock unit := fun w => (w, 0).

(** A driver that answers every url with a page and hands back the
    context. *)
Definition page (body : string) : Driver unit :=
  fun w c =>
    (w, {| ans_ctx := set_body (Str body) c; ans_err := Null;
           ans_res := Obj (ctx_ref c) |}).


Definition crawler (url : string) : State unit :=
  Crawler (page "page") no_wait no_wait (Str url).

Definition set (s : setter unit) (st : State unit) : State unit :=
  apply_setter selectn select s st.

(** Discovery for the scenario of three fetches: the seed leads to two
    urls and to something that is no url. *)
Definition three : discovery unit :=
  fun w doc ctx =>
    (w, Ok match ctx_url ctx with
           | Str "http://a" =>
               Arr [Str "http://b"; Str "not-a-url"; Str "http://c"]
           | _ => Undefined
           end).

(** Discovery that always finds one more page. *)
Definition next_of (w : unit) (doc : value) (ctx : Context) : unit * value :=
  (w, match ctx_url ctx with
      | Str u => Str (u ++ "/next")
      | _ => Str "http://a/next"
      end).

Definition one_more : discovery unit := returning next_of.


Definition start (st : State unit) : option (Run unit) := crawl load parse st tt.

Definition after (es : list event) (st : State unit) : option (Run unit) :=
  run load parse st tt es.

(** The state that an evaluation gives, [d] if it gives none. *)
Definition the (d : Run unit) (o : option (Run unit)) : Run unit :=
  match o with Some r => r | None => d end.

Definition state_after (es : list event) (st : State unit) : Run unit :=
  the (seeding st tt) (after es st).

(** [p] holds wherever the crawl of [st] comes to rest, and it does so
    within [depth] events however the events fall. *)
Definition all_rest (depth : nat) (p : Run unit -> bool) (st : State unit)
  : bool :=
  match start st with
  | Some r => forallb (fun leaf => fst leaf && p (snd leaf)) (explore load parse depth r)
  | None => false
  end.

Definition fetched (u : string) (r : Run unit) : bool :=
  existsb (fun o => match o with
                    | Fetch (Str v) => String.eqb u v
                    | _ => false
                    end) (trace r).

(** The scenario of three fetches, two jobs at a time. *)
Definition three_fetches : State unit :=
  set (SetConcurrency 2) (set (SetPaginate (Function three)) (crawler "http://a")).

(** The scenario of the limit: at most two fetches, always one more page. *)
Definition two_at_most : State unit :=
  set (SetLimit (Fin 2))
    (set (SetPaginate (Function one_more)) (crawler "http://a")).


(** A crawl with a limit below zero. *)
Definition limit_negative : State unit :=
  set (SetLimit (Fin (-1))) (crawler "http://a").

(** The documents that went to the response signal. *)
Definition bodies (r : Run unit) : list value :=
  flat_map (fun o => match o with EmitResponse doc _ => [doc] | _ => [] end)
    (trace r).


(** The seed of [two_at_most] is done and its page waits on a timer. *)
Definition seed_done : Run unit := state_after [Complete 0%nat] two_at_most.

(** The scenario of three fetches when the seed was submitted, the
    response to the seed, and the state after [onresponse] handled it. *)
Definition seeded : Run unit := state_after [] three_fetches.

Definition first_response : Context :=
  set_body (Str "page") (set_url (Str "http://a") (context 0)).

Definition responded : Run unit :=
  the seeded (onresponse load parse first_response seeded).

(** The answer of the queue to the job of the seed, and the state after
    [onjobfinish] handled it in the state [seeded]. *)
Definition first_reply : reply :=
  {| rep_err := Null; rep_ctx := Some first_response |}.

Definition finished : Run unit :=
  the seeded (onjobfinish load parse (Str "http://a") first_reply seeded).

(** The scenario of three fetches when the seed is done. *)
Definition seed_handled : Run unit := state_after [Complete 0%nat] three_fetches.

(** The fetch of a page begins in the state [seed_done], after the user
    set another driver. *)
Definition redirected : Run unit :=
  the seed_done
    (get load parse (Str "http://a/next")
       (mutate selectn select (SetDriver (page "other")) seed_done)).


Definition three_at_rest : Run unit :=
  state_after [Complete 0; Fire 0; Fire 0; Complete 0; Complete 0]%nat
    three_fetches.

(** A JSON response whose body is an object. *)
Definition json_object : Context :=
  {| ctx_ref := 3; ctx_url := Str "http://a"; ctx_request := [];
     ctx_response := {| res_type := Json; res_body := Obj 1 |} |}.


End Sample.

(** ** The [throttle] method *)

Module Fluent.

(** A rate as [throttle] takes it: a number of milliseconds or a string
    for [ms].  Numbers are integers. *)
Inductive span : Type :=
| Millis (n : Z)
| Spoken (s : string).

Definition is_digit (c : ascii) : bool :=
  let n := nat_of_ascii c in ((48 <=? n) && (n <=? 57))%nat.

(** [/^\d/.test(rate)]: the pattern is tried on the string form of
    [rate], and the decimal form of an integer begins with a digit unless
    the integer is negative. *)
Definition leading_digit (rate : span) : bool :=
  match rate with
  | Millis n => 0 <=? n
  | Spoken EmptyString => false
  | Spoken (String c _) => is_digit c
  end.

(** [1 + rate]: a sum for a number, a concatenation for a string. *)
Definition one_plus (rate : span) : span :=
  match rate with
  | Millis n => Millis (1 + n)
  | Spoken s => Spoken ("1" ++ s)
  end.

(** The arguments of a call of [throttle], by [arguments.length]. *)
Inductive throttle_args : Type :=
| NoArgument
| Rate (rate : span)
| RequestsRate (requests : value) (rate : span).

Section Methods.

Variable W : Type.
Variable selectn : value -> value -> value.
Variable select : value -> value -> value.

(** [ms(string)] and [rate_limit(requests, rate)] of [./rate-limit]. *)
Variable ms : string -> value.
Variable rate_limit : value -> value -> clock W.

(** The two assignments to [rate]: a unit of time alone gets a 1 in front,
    then a string goes through [ms]. *)
Definition normal_rate (rate : span) : value :=
  match (if leading_digit rate then rate else one_plus rate) with
  | Spoken s => ms s
  | Millis n => Num n
  end.

(** [throttle(requests, rate)]: the throttle of the crawler when called
    with no argument, the crawler with a new throttle otherwise. *)
Definition throttle (args : throttle_args) (st : State W)
  : clock W + State W :=
  match args with
  | NoArgument => inl (st_throttle st)
  | Rate rate =>
      inr (apply_setter selectn select
             (SetThrottle (rate_limit (Num 1) (normal_rate rate))) st)
  | RequestsRate requests rate =>
      inr (apply_setter selectn select
             (SetThrottle (rate_limit requests (normal_rate rate))) st)
  end.

End Methods.

End Fluent.

(** ** Further observations on a run *)

Section Observations.

Variable W : Type.
Variable load : bool -> value -> value -> value.
Variable parse : string -> result (option string).

Definition is_response (o : Op) : bool :=
  match o with EmitResponse _ _ => true | _ => false end.
Definition is_dec (o : Op) : bool :=
  match o with Dec => true | _ => false end.

(** Responses and errors signalled, jobs counted out of the in-flight
    counter, timers set so far. *)
Definition responses (r : Run W) : nat := count is_response (trace r).
Definition errors (r : Run W) : nat := count is_error (trace r).
Definition decs (r : Run W) : nat := count is_dec (trace r).
Definition timers_set (r : Run W) : nat := count is_timer (trace r).

(** A reply as [get] gives it: [fn(err)] with an error, or
    [fn(null, ctx)]. *)
Definition outcome (rep : reply) : bool :=
  truthy (rep_err rep)
  || match rep_ctx rep with Some _ => true | None => false end.

(** [Ledger a s b]: the fetches begun are the jobs that run and the jobs
    that were counted out, plus [a]; the signals are the jobs counted out,
    plus [s]; the timers set and the seed are the submissions and the timers
    still to fire, plus [b].  The offsets are 0 between events and 1 inside
    a handler: [a] while a job has left the queue and is not counted out,
    [s] between its signal and its decrement, [b] between the firing of a
    timer (or the start of the crawl) and the submission. *)
Definition Ledger (a s b : nat) (r : Run W) : Prop :=
  (fetches r = decs r + List.length (q_running (queue r)) + a
   /\ responses r + errors r = decs r + s
   /\ timers_set r + 1 = submissions r + List.length (timers r) + b)%nat.

(** The document that [onresponse] hands to the response signal and to the
    discovery function. *)
Definition document (c : Context) : value :=
  if response_is c Html || response_is c Xml
  then load (response_is c Xml) (ctx_url c) (ctx_body c)
  else ctx_body c.

(** A url that is the seed or passes [canRequest]. *)
Definition vetted (seed u : value) : Prop :=
  u = seed \/ passes parse u = true.

(** What an operation of the trace says about urls. *)
Definition op_vetted (seed : value) (o : Op) : Prop :=
  match o with
  | Fetch u | Submit u _ | EmitError _ u => vetted seed u
  | Timer u _ => passes parse u = true
  | _ => True
  end.

(** Every url that waits on a timer passed [canRequest]; every url in the
    queue or on the trace is the seed or passed it. *)
Definition Vetted (seed : value) (r : Run W) : Prop :=
  Forall (fun t => passes parse (fst t) = true) (timers r)
  /\ Forall (vetted seed) (q_waiting (queue r))
  /\ Forall (fun j => vetted seed (job_url j)) (q_running (queue r))
  /\ Forall (op_vetted seed) (trace r).

(** The trace of [r'] continues the trace of [r]. *)
Definition grows (r r' : Run W) : Prop :=
  exists t, trace r' = (trace r ++ t)%list.

(** The jobs that run wait for the driver of the crawler [st]. *)
Definition Driven (st : State W) (r : Run W) : Prop :=
  self r = st
  /\ Forall (fun j => job_driver j = st_driver st) (q_running (queue r)).

(** A driver that calls back with an error, whatever it is asked. *)
Definition always_fails (d : Driver W) : Prop :=
  forall w c, truthy (ans_err (snd (d w c))) = true.

(** A request hook that leaves the context of a fetch without a body. *)
Definition leaves_no_body (h : hook W) : Prop :=
  forall w u n,
    truthy (ctx_body (snd (run_hook h w (set_url u (context n))))) = false.

(** A run whose driver always fails: nothing scheduled, nothing waiting,
    no response signalled, and every running job waits for the driver of
    [st]. *)
Definition failing_run (st : State W) (r : Run W) : Prop :=
  Single r /\ Driven st r /\ responses r = 0%nat.

(** A driver that calls back without an error, whatever it is asked. *)
Definition always_answers (d : Driver W) : Prop :=
  forall w c, truthy (ans_err (snd (d w c))) = false.

(** A discovery function whose answer always holds a candidate that passes
    [canRequest], and none that the parser throws on: a page that links to
    itself, say. *)
Definition always_finds (f : W -> value -> Context -> W * value) : Prop :=
  forall w doc c,
    exists u urls, candidates parse (snd (f w doc c)) = Ok (u :: urls).

(** A run that cannot end: the in-flight counter is at least 1, there is
    no limit, the discovery function is [returning f], and every running
    job waits for the driver of [st]. *)
Definition endless_run (f : W -> value -> Context -> W * value)
  (st : State W) (r : Run W) : Prop :=
  1 <= scheduled r /\ limit r = Infinity
  /\ paginate r = Some (returning f) /\ Driven st r.

(** What a response schedules when the discovery function answered
    [next_page]: the candidates that the limit lets through, or nothing at
    all when the parser throws on one of them, the handler ending there. *)
Definition schedules (c : Context) (r : Run W) (next_page : value) : Prop :=
  match candidates parse next_page with
  | Ok urls =>
      exists r',
        onresponse load parse c r = Some r'
        /\ map fst (timers r')
           = (map fst (timers r) ++ allowance (limit r) urls)%list
  | Throw _ _ => onresponse load parse c r = None
  end.

(** The key of [this.state] that a setter writes. *)
Definition slot (s : setter W) : string :=
  match s with
  | SetConcurrency _ => "concurrency"
  | SetResponse _ => "response"
  | SetRequest _ => "request"
  | SetDriver _ => "driver"
  | SetThrows _ => "throws"
  | SetLimit _ => "limit"
  | SetThrottle _ => "throttle"
  | SetDelay _ => "delay"
  | SetTimeout _ => "timeout"
  | SetPaginate _ => "paginate"
  end.

End Observations.

(** ** Further sample crawlers *)

Module Demo.

(** A crawl whose seed is no url. *)
Definition no_scheme : State unit := Sample.crawler "not-a-url".

Definition no_scheme_started : Run unit := Sample.state_after [] no_scheme.

(** A driver that fails on every url. *)
Definition broken : Driver unit :=
  fun w c =>
    (w, {| ans_ctx := c; ans_err := Err "ECONNREFUSED";
           ans_res := Undefined |}).

Definition all_broken : State unit :=
  Sample.set (SetDriver broken)
    (Sample.set (SetPaginate (Function Sample.one_more))
       (Sample.crawler "http://a")).

Definition all_broken_at_rest : Run unit :=
  Sample.state_after [Complete 0%nat] all_broken.

(** Every page links back to the seed. *)
Definition self_link (w : unit) (doc : value) (ctx : Context) : unit * value :=
  (w, Str "http://a").

Definition looping : State unit :=
  Sample.set (SetPaginate (Function (returning self_link)))
    (Sample.crawler "http://a").

Definition looping_later : Run unit :=
  Sample.state_after [Complete 0; Fire 0; Complete 0; Fire 0]%nat looping.

(** A request hook that answers from a cache: it leaves the body on the
    context. *)
Definition cached : hook unit :=
  fun w c => (w, set_body (Str "cached page") c).

Definition replay : State unit :=
  Sample.set (SetRequest cached) (Sample.crawler "http://a").

(** The crawl of [replay] at the moment the queue starts the seed. *)
Definition replay_starting : Run unit := seeding replay tt.

(** A crawl that paginates by selector, at the moment it submits the seed,
    and two responses: a plain text and a JSON array. *)
Definition by_selector : Run unit :=
  seeding
    (Sample.set (SetPaginate (Selector unit (Str "a.next")))
       (Sample.crawler "http://a"))
    tt.

Definition plain_text : Context :=
  set_body (Str "page") (set_url (Str "http://a") (context 0)).

Definition json_array : Context :=
  {| ctx_ref := 0; ctx_url := Str "http://a"; ctx_request := [];
     ctx_response := {| res_type := Json;
                        res_body := Arr [Obj 1; Obj 2] |} |}.



(** Discovery that finds a good url and one with a bracket left open. *)
Definition bracket : discovery unit :=
  fun w doc ctx => (w, Ok (Arr [Str "http://b"; Str "http://[::1"])).

Definition unclosed : State unit :=
  Sample.set (SetPaginate (Function bracket)) (Sample.crawler "http://a").

(** [ms] for a few strings, and a rate limiter that waits [rate]. *)
Definition ms (s : string) : value :=
  if String.eqb s "1s" then Num 1000
  else if String.eqb s "2s" then Num 2000
  else Undefined.

Definition rate_limit (requests rate : value) : clock unit :=
  fun w => (w, match rate with Num n => n | _ => 0 end).

End Demo.

(** * Properties *)

Section Properties.

Set Default Proof Using "Type".

Variable W : Type.
Variable load : bool -> value -> value -> value.
Variable parse : string -> result (option string).

Local Open Scope nat_scope.

Local Arguments count : simpl never.
Local Arguments Z.of_nat : simpl never.
Local Arguments Z.mul : simpl never.
Local Arguments Z.add : simpl never.
Local Arguments Z.sub : simpl never.
Local Arguments Z.max : simpl never.
Local Arguments done : simpl never.
Local Arguments run_hook : simpl never.
Local Arguments schedule : simpl never.
Local Arguments onresponse : simpl never.
Local Arguments onjobfinish : simpl never.
Local Arguments get : simpl never.
Local Arguments submit : simpl never.
Local Arguments finish : simpl never.
Local Arguments timer_callback : simpl never.

(** ** Counting on traces *)

Lemma count_app (p : Op -> bool) (t u : list Op) :
  count p (t ++ u) = count p t + count p u.
Proof. unfold count. now rewrite filter_app, length_app. Qed.

Lemma count_snoc (p : Op -> bool) (t : list Op) (o : Op) :
  count p (t ++ [o]) = count p t + (if p o then 1 else 0).
Proof. rewrite count_app. unfold count. simpl. now destruct (p o). Qed.

Lemma fetches_log (o : Op) (r : Run W) :
  fetches (log o r) = fetches r + (if is_fetch o then 1 else 0).
Proof. apply count_snoc. Qed.

Lemma dones_log (o : Op) (r : Run W) :
  dones (log o r) = dones r + (if is_done o then 1 else 0).
Proof. apply count_snoc. Qed.

Lemma submissions_log (o : Op) (r : Run W) :
  submissions (log o r) = submissions r + (if is_submit o then 1 else 0).
Proof. apply count_snoc. Qed.

Lemma rejections_log (o : Op) (r : Run W) :
  rejections (log o r) = rejections r + (if is_rejection o then 1 else 0).
Proof. apply count_snoc. Qed.

Lemma length_remove_at (A : Type) (k : nat) (l : list A) (x : A) :
  nth_error l k = Some x -> S (List.length (remove_at k l)) = List.length l.
Proof.
  intros H. unfold remove_at.
  assert (Hk : k < List.length l) by (apply nth_error_Some; congruence).
  rewrite length_app, length_firstn, length_skipn. lia.
Qed.

(** ** The books of a run *)

Ltac books :=
  repeat match goal with
         | |- context [fetches (log _ _)] => rewrite fetches_log
         | |- context [dones (log _ _)] => rewrite dones_log
         | |- context [submissions (log _ _)] => rewrite submissions_log
         | |- context [rejections (log _ _)] => rewrite rejections_log
         end.

(** Opens a [Good] hypothesis and the [Good] goal into arithmetic. *)
Ltac open_good H :=
  destruct H as (Hrej & Hs & Hd & Hf & Hsub & Hl);
  unfold Good, pending, fetches, dones, submissions, rejections in *; cbn;
  rewrite ?count_snoc, ?length_app; cbn.

(** Closes the limit clause when the budget [limit] is the one of [Hl]. *)
Ltac same_limit Hl :=
  match goal with
  | |- match q_limit ?q with _ => _ end =>
      let L := fresh "L" in
      destruct (q_limit q) as [L|];
      [ let l := fresh "l" in
        let El := fresh "El" in
        let Hb := fresh "Hb" in
        let Hm := fresh "Hm" in
        destruct Hl as (l & El & Hb & Hm); exists l;
        split; [exact El | split; lia]
      | exact Hl ]
  end.

(** [Good] reads the counter, the queue, the timers, the limit and four
    counts of the trace, nothing else. *)
Lemma good_ext (s a b : nat) (m : Z) (r r' : Run W) :
  scheduled r' = scheduled r -> queue r' = queue r ->
  timers r' = timers r -> limit r' = limit r ->
  fetches r' = fetches r -> dones r' = dones r ->
  submissions r' = submissions r -> rejections r' = rejections r ->
  Good s a b m r -> Good s a b m r'.
Proof.
  unfold Good, pending. intros -> -> -> -> -> -> -> ->. exact (fun H => H).
Qed.

Lemma good_with_world (s a b : nat) (m : Z) (w : W) (r : Run W) :
  Good s a b m r -> Good s a b m (with_world w r).
Proof. apply good_ext; reflexivity. Qed.

Lemma good_log_response (s a b : nat) (m : Z) (doc : value) (c : Context)
  (r : Run W) :
  Good s a b m r -> Good s a b m (log (EmitResponse doc c) r).
Proof. apply good_ext; try reflexivity; books; cbn; lia. Qed.

Lemma good_log_error (s a b : nat) (m : Z) (e u : value) (r : Run W) :
  Good s a b m r -> Good s a b m (log (EmitError e u) r).
Proof. apply good_ext; try reflexivity; books; cbn; lia. Qed.

Lemma good_weaken (s a b : nat) (m m' : Z) (r : Run W) :
  (m <= m')%Z -> Good s a b m r -> Good s a b m' r.
Proof.
  intros Hmm H. open_good H. repeat split; try lia. same_limit Hl.
Qed.

Lemma schedule_good (a b : nat) (m : Z) (u : value) (r : Run W) :
  Good 1 a b m r -> Good 1 a b m (schedule u r).
Proof.
  intros H. unfold schedule. cbn.
  destruct (le0 (JS.pred (limit r))) eqn:Hle.
  - open_good H. repeat split; try assumption.
    destruct (q_limit (queue r)) as [L|].
    + destruct Hl as (l & El & Hb & Hm). rewrite El in *. cbn in *.
      exists (l - 1)%Z. apply Z.leb_le in Hle.
      split; [reflexivity|split; lia].
    + now rewrite Hl.
  - cbn. destruct (throttle r (world r)) as [w1 t].
    destruct (delay r w1) as [w2 d].
    open_good H. repeat split; try lia.
    destruct (q_limit (queue r)) as [L|].
    + destruct Hl as (l & El & Hb & Hm). rewrite El in *. cbn in *.
      exists (l - 1)%Z. apply Z.leb_gt in Hle.
      split; [reflexivity|split; lia].
    + now rewrite Hl.
Qed.

Lemma forEach_schedule_good (a b : nat) (m : Z) (urls : list value)
  (r : Run W) :
  Good 1 a b m r -> Good 1 a b m (fold_left (fun r u => schedule u r) urls r).
Proof.
  revert r. induction urls as [|u urls IH]; intros r H; cbn.
  - exact H.
  - apply IH, schedule_good, H.
Qed.

Lemma onresponse_good (a b : nat) (m : Z) (c : Context) (r r' : Run W) :
  Good 1 a b m r -> onresponse load parse c r = Some r' -> Good 1 a b m r'.
Proof.
  intros H. unfold onresponse. cbn.
  destruct (paginate r) as [p|]; [|discriminate].
  destruct (p (world r) _ c) as [w' [next_page|n msg]]; [|discriminate].
  destruct (if truthy next_page then _ else _) as [urls|n msg];
    [|discriminate].
  intros [= <-]. apply forEach_schedule_good, good_with_world.
  apply good_log_response, H.
Qed.

Lemma onjobfinish_good (a b : nat) (m : Z) (u : value) (rep : reply)
  (r r' : Run W) :
  Good 1 a b m r -> onjobfinish load parse u rep r = Some r' -> Good 0 a b m r'.
Proof.
  intros H. unfold onjobfinish.
  set (handled := if truthy (rep_err rep) then _ else _).
  assert (Hh : forall r1, handled = Some r1 -> Good 1 a b m r1).
  { subst handled. intros r1.
    destruct (truthy (rep_err rep)).
    - intros [= <-]. apply good_log_error, H.
    - destruct (rep_ctx rep) as [c|].
      + apply onresponse_good, H.
      + intros [= <-]. exact H. }
  destruct handled as [r1|]; [|discriminate].
  specialize (Hh r1 eq_refl). clear H.
  cbn. destruct (scheduled r1 - 1 <=? 0)%Z eqn:Hz; intros [= <-];
    [apply Z.leb_le in Hz | apply Z.leb_gt in Hz];
    open_good Hh; (repeat split; try lia; same_limit Hl).
Qed.

Lemma get_good (m : Z) (u : value) (r r' : Run W) :
  Good 1 1 0 m r -> get load parse u r = Some r' -> Good 0 0 0 (m + 1) r'.
Proof.
  intros H. unfold get. cbn.
  destruct (run_hook (st_request (self r)) (world r) _) as [w1 c].
  destruct (truthy (ctx_body c)).
  - destruct (done _ _ _ _ _) as [w2 rep].
    intros Hj.
    apply onjobfinish_good with (a := 0) (b := 0) (m := (m + 1)%Z) in Hj;
      [exact Hj|].
    open_good H. repeat split; try lia; same_limit Hl.
  - intros [= <-].
    open_good H. repeat split; try lia; same_limit Hl.
Qed.

Lemma pump_good (m : Z) (n : nat) (r r' : Run W) :
  Good 0 0 0 m r -> pump load parse n r = Some r' -> Good 0 0 0 m r'.
Proof.
  revert r. induction n as [|n IH]; intros r H; cbn.
  - now intros [= <-].
  - destruct (q_waiting (queue r)) as [|u rest] eqn:Ew.
    + now intros [= <-].
    + match goal with |- context [if ?c then _ else _] => destruct c end;
        [|now intros [= <-]].
      destruct (get load parse u _) as [r1|] eqn:Eg; [|discriminate].
      apply IH. apply get_good with (m := (m - 1)%Z) in Eg.
      * replace (m - 1 + 1)%Z with m in Eg by lia. exact Eg.
      * open_good H. rewrite Ew in *. cbn in *.
        repeat split; try lia; same_limit Hl.
Qed.

Lemma submit_good (m : Z) (u : value) (r r' : Run W) (queued : bool) :
  Good 1 0 1 m r -> submit load parse u r = Some (queued, r') ->
  queued = true /\ Good 0 0 0 (m + 1) r'.
Proof.
  intros H. unfold submit.
  assert (Hacc : reaches (q_accepted (queue r)) (q_limit (queue r)) = false).
  { destruct H as (_ & _ & _ & _ & _ & Hl).
    destruct (q_limit (queue r)) as [L|]; [|reflexivity].
    destruct Hl as (l & _ & Hl & _). cbn. apply Z.leb_gt. lia. }
  rewrite Hacc.
  destruct (pump load parse _ _) as [r1|] eqn:Ep; [|discriminate].
  intros [= <- <-]. split; [reflexivity|].
  apply pump_good with (m := (m + 1)%Z) in Ep; [exact Ep|].
  open_good H. repeat split; try lia; same_limit Hl.
Qed.

Lemma finish_good (m : Z) (k : nat) (j : Job W) (rep : reply) (r r' : Run W) :
  Good 0 0 0 m r -> nth_error (q_running (queue r)) k = Some j ->
  finish load parse k j rep r = Some r' -> Good 0 0 0 (m - 1) r'.
Proof.
  intros H Hk. unfold finish.
  destruct (onjobfinish load parse _ rep _) as [r1|] eqn:Ej; [|discriminate].
  intros Hp. apply pump_good with (m := (m - 1)%Z) in Hp; [exact Hp|].
  apply onjobfinish_good with (a := 0) (b := 0) (m := (m - 1)%Z) in Ej;
    [exact Ej|].
  apply length_remove_at in Hk.
  open_good H. repeat split; try lia; same_limit Hl.
Qed.

Lemma step_good (m : Z) (e : event) (r r' : Run W) :
  Good 0 0 0 m r -> step load parse r e = Some r' -> Good 0 0 0 (m - 1) r'.
Proof.
  intros H. destruct e as [k|k|k]; cbn.
  - destruct (nth_error (timers r) k) as [[u wait]|] eqn:Ek; [|discriminate].
    unfold timer_callback.
    destruct (submit load parse u _) as [[queued r1]|] eqn:Es; [|discriminate].
    apply submit_good with (m := (m - 2)%Z) in Es.
    + destruct Es as [_ Hg]. replace (m - 2 + 1)%Z with (m - 1)%Z in Hg by lia.
      now destruct queued; intros [= <-].
    + apply length_remove_at in Ek.
      open_good H. repeat split; try lia; same_limit Hl.
  - destruct (nth_error (q_running (queue r)) k) as [j|] eqn:Ek; [|discriminate].
    destruct (job_driver j (world r) (job_ctx j)) as [w1 ans].
    destruct (done _ _ _ _ _) as [w2 rep].
    apply finish_good; [apply good_with_world, H | exact Ek].
  - destruct (q_timeout (queue r)); [|discriminate].
    destruct (nth_error (q_running (queue r)) k) as [j|] eqn:Ek; [|discriminate].
    apply finish_good; assumption.
Qed.

Lemma steps_good (m : Z) (es : list event) (r r' : Run W) :
  Good 0 0 0 m r -> steps load parse es r = Some r' ->
  Good 0 0 0 (m - Z.of_nat (List.length es)) r'.
Proof.
  revert m r. induction es as [|e es IH]; intros m r H; cbn [steps].
  - intros [= <-]. cbn. now replace (m - Z.of_nat 0)%Z with m by lia.
  - destruct (step load parse r e) as [r1|] eqn:Es; [|discriminate].
    intros Hs. apply IH with (m := (m - 1)%Z) in Hs.
    + replace (m - Z.of_nat (List.length (e :: es)))%Z
        with (m - 1 - Z.of_nat (List.length es))%Z by (cbn [List.length]; lia).
      exact Hs.
    + eapply step_good; eassumption.
Qed.

(** ** What the handlers leave alone *)

Lemma frame_refl (r : Run W) : frame r r.
Proof. unfold frame. tauto. Qed.

Lemma frame_trans (r1 r2 r3 : Run W) : frame r1 r2 -> frame r2 r3 -> frame r1 r3.
Proof. unfold frame. intuition congruence. Qed.

Lemma calm_refl (r : Run W) : calm r r.
Proof. unfold calm. tauto. Qed.

Lemma calm_trans (r1 r2 r3 : Run W) : calm r1 r2 -> calm r2 r3 -> calm r1 r3.
Proof. unfold calm. intuition congruence. Qed.

Lemma calm_frame (r r' : Run W) : calm r r' -> frame r r'.
Proof. unfold calm, frame. intuition congruence. Qed.

Lemma schedule_calm (u : value) (r : Run W) : calm r (schedule u r).
Proof.
  unfold schedule. cbn. destruct (le0 _); [unfold calm; cbn; tauto|].
  cbn. destruct (throttle r (world r)) as [w1 t].
  destruct (delay r w1) as [w2 d]. unfold calm. cbn. tauto.
Qed.

Lemma forEach_schedule_calm (urls : list value) (r : Run W) :
  calm r (fold_left (fun r u => schedule u r) urls r).
Proof.
  revert r. induction urls as [|u urls IH]; intros r; cbn.
  - apply calm_refl.
  - eapply calm_trans; [apply schedule_calm | apply IH].
Qed.

Lemma onresponse_calm (c : Context) (r r' : Run W) :
  onresponse load parse c r = Some r' -> calm r r'.
Proof.
  unfold onresponse. cbn.
  destruct (paginate r) as [p|]; [|discriminate].
  destruct (p (world r) _ c) as [w' [next_page|n msg]]; [|discriminate].
  destruct (if truthy next_page then _ else _) as [urls|n msg];
    [|discriminate].
  intros [= <-].
  eapply calm_trans; [|apply forEach_schedule_calm]. unfold calm. cbn. tauto.
Qed.

Lemma onjobfinish_calm (u : value) (rep : reply) (r r' : Run W) :
  onjobfinish load parse u rep r = Some r' -> calm r r'.
Proof.
  unfold onjobfinish.
  set (handled := if truthy (rep_err rep) then _ else _).
  assert (Hh : forall r1, handled = Some r1 -> calm r r1).
  { subst handled. intros r1. destruct (truthy (rep_err rep)).
    - intros [= <-]. unfold calm. cbn. tauto.
    - destruct (rep_ctx rep) as [c|].
      + apply onresponse_calm.
      + intros [= <-]. apply calm_refl. }
  destruct handled as [r1|]; [|discriminate].
  specialize (Hh r1 eq_refl).
  cbn. destruct (_ <=? _)%Z; intros [= <-];
    (eapply calm_trans; [exact Hh|]); unfold calm; cbn; tauto.
Qed.

(** A fetch that begins leaves the waiting line and the count of accepted
    submissions as they are; the job joins the running ones or is over. *)
Lemma get_queue (u : value) (r r' : Run W) :
  get load parse u r = Some r' ->
  frame r r' /\ q_waiting (queue r') = q_waiting (queue r)
  /\ q_accepted (queue r') = q_accepted (queue r)
  /\ (List.length (q_running (queue r))
      <= List.length (q_running (queue r'))).
Proof.
  unfold get. cbn.
  destruct (run_hook (st_request (self r)) (world r) _) as [w1 c].
  destruct (truthy (ctx_body c)).
  - destruct (done _ _ _ _ _) as [w2 rep].
    intros Hj. apply onjobfinish_calm in Hj.
    destruct Hj as (H1 & H2 & H3 & H4 & H5 & H6). cbn in *.
    unfold frame. cbn. rewrite !H6.
    repeat split; try assumption; try reflexivity; lia.
  - intros [= <-]. unfold frame. cbn. rewrite length_app. cbn.
    repeat split; lia.
Qed.

Lemma pump_queue (n : nat) (r r' : Run W) :
  pump load parse n r = Some r' ->
  frame r r' /\ q_accepted (queue r') = q_accepted (queue r).
Proof.
  revert r. induction n as [|n IH]; intros r; cbn.
  - intros [= <-]. split; [apply frame_refl|reflexivity].
  - destruct (q_waiting (queue r)) as [|u rest] eqn:Ew.
    + intros [= <-]. split; [apply frame_refl|reflexivity].
    + match goal with |- context [if ?c then _ else _] => destruct c end.
      * destruct (get load parse u _) as [r1|] eqn:Eg; [|discriminate].
        intros Hp. apply IH in Hp. apply get_queue in Eg.
        destruct Eg as (Hf & _ & Ha & _). destruct Hp as (Hf' & Ha').
        split.
        -- eapply frame_trans; [|exact Hf'].
           eapply frame_trans; [|exact Hf]. unfold frame. cbn. tauto.
        -- rewrite Ha', Ha. reflexivity.
      * intros [= <-]. split; [apply frame_refl|reflexivity].
Qed.

Lemma submit_frame (u : value) (r r' : Run W) (queued : bool) :
  submit load parse u r = Some (queued, r') -> frame r r'.
Proof.
  unfold submit. destruct (reaches _ _).
  - intros [= <- <-]. unfold frame. cbn. tauto.
  - destruct (pump load parse _ _) as [r1|] eqn:Ep; [|discriminate].
    intros [= <- <-]. apply pump_queue in Ep. destruct Ep as [Hf _].
    eapply frame_trans; [|exact Hf]. unfold frame. cbn. tauto.
Qed.

Lemma finish_frame (k : nat) (j : Job W) (rep : reply) (r r' : Run W) :
  finish load parse k j rep r = Some r' ->
  frame r r' /\ q_accepted (queue r') = q_accepted (queue r).
Proof.
  unfold finish.
  destruct (onjobfinish load parse _ rep _) as [r1|] eqn:Ej; [|discriminate].
  intros Hp. apply pump_queue in Hp. apply onjobfinish_calm in Ej.
  destruct Hp as [Hf Ha]. apply calm_frame in Ej as Hf1.
  destruct Ej as (_ & _ & _ & _ & _ & Hq). cbn in Hq.
  split.
  - eapply frame_trans; [|exact Hf].
    eapply frame_trans; [|exact Hf1]. unfold frame. cbn. tauto.
  - rewrite Ha, Hq. reflexivity.
Qed.

Lemma step_frame (e : event) (r r' : Run W) :
  step load parse r e = Some r' -> frame r r'.
Proof.
  destruct e as [k|k|k]; cbn.
  - destruct (nth_error (timers r) k) as [[u wait]|]; [|discriminate].
    unfold timer_callback.
    destruct (submit load parse u _) as [[queued r1]|] eqn:Es; [|discriminate].
    apply submit_frame in Es.
    destruct queued; intros [= <-];
      (eapply frame_trans; [|exact Es]); unfold frame; cbn; tauto.
  - destruct (nth_error (q_running (queue r)) k) as [j|]; [|discriminate].
    destruct (job_driver j (world r) (job_ctx j)) as [w1 ans].
    destruct (done _ _ _ _ _) as [w2 rep].
    intros Hf. apply finish_frame in Hf. destruct Hf as [Hf _].
    eapply frame_trans; [|exact Hf]. unfold frame. cbn. tauto.
  - destruct (q_timeout (queue r)); [|discriminate].
    destruct (nth_error (q_running (queue r)) k) as [j|]; [|discriminate].
    intros Hf. now apply finish_frame in Hf.
Qed.

Lemma steps_frame (es : list event) (r r' : Run W) :
  steps load parse es r = Some r' -> frame r r'.
Proof.
  revert r. induction es as [|e es IH]; intros r; cbn.
  - intros [= <-]. apply frame_refl.
  - destruct (step load parse r e) as [r1|] eqn:Es; [|discriminate].
    intros Hs. eapply frame_trans; [eapply step_frame; exact Es | apply IH, Hs].
Qed.

(** ** The queue keeps its slots busy *)

Lemma pump_sat (n : nat) (r r' : Run W) :
  List.length (q_waiting (queue r)) <= n -> 1 <= q_concurrency (queue r) ->
  pump load parse n r = Some r' -> Sat r'.
Proof.
  revert r. induction n as [|n IH]; intros r Hn Hc; cbn.
  - intros [= <-]. split; [left|exact Hc].
    destruct (q_waiting (queue r)); [reflexivity|cbn in Hn; lia].
  - destruct (q_waiting (queue r)) as [|u rest] eqn:Ew.
    + intros [= <-]. split; [now left|exact Hc].
    + match goal with
      | |- context [if ?c then _ else _] => destruct c eqn:Hge
      end.
      * destruct (get load parse u _) as [r1|] eqn:Eg; [|discriminate].
        apply get_queue in Eg. destruct Eg as (Hf & Hw & _ & _).
        destruct Hf as (_ & _ & _ & _ & _ & Hcc & _). cbn in *.
        apply IH; [rewrite Hw; lia | rewrite Hcc; exact Hc].
      * intros [= <-]. apply Nat.ltb_ge in Hge. split; [now right|exact Hc].
Qed.

Lemma submit_sat (u : value) (r r' : Run W) (queued : bool) :
  Sat r -> submit load parse u r = Some (queued, r') -> Sat r'.
Proof.
  intros Hs. unfold submit. destruct (reaches _ _).
  - intros [= <- <-]. exact Hs.
  - destruct (pump load parse _ _) as [r1|] eqn:Ep; [|discriminate].
    intros [= <- <-]. apply pump_sat in Ep; [exact Ep|lia|].
    cbn. apply Hs.
Qed.

Lemma finish_sat (k : nat) (j : Job W) (rep : reply) (r r' : Run W) :
  Sat r -> finish load parse k j rep r = Some r' -> Sat r'.
Proof.
  intros Hs. unfold finish.
  destruct (onjobfinish load parse _ rep _) as [r1|] eqn:Ej; [|discriminate].
  intros Hp. apply pump_sat in Hp; [exact Hp|lia|].
  apply onjobfinish_calm in Ej. destruct Ej as (_ & _ & _ & _ & _ & Hq).
  rewrite Hq. cbn. apply Hs.
Qed.

Lemma step_sat (e : event) (r r' : Run W) :
  Sat r -> step load parse r e = Some r' -> Sat r'.
Proof.
  intros Hs. destruct e as [k|k|k]; cbn.
  - destruct (nth_error (timers r) k) as [[u wait]|]; [|discriminate].
    unfold timer_callback.
    destruct (submit load parse u _) as [[queued r1]|] eqn:Es; [|discriminate].
    apply submit_sat in Es; [|exact Hs].
    now destruct queued; intros [= <-].
  - destruct (nth_error (q_running (queue r)) k) as [j|]; [|discriminate].
    destruct (job_driver j (world r) (job_ctx j)) as [w1 ans].
    destruct (done _ _ _ _ _) as [w2 rep].
    apply finish_sat. exact Hs.
  - destruct (q_timeout (queue r)); [|discriminate].
    destruct (nth_error (q_running (queue r)) k) as [j|]; [|discriminate].
    apply finish_sat. exact Hs.
Qed.

Lemma steps_sat (es : list event) (r r' : Run W) :
  Sat r -> steps load parse es r = Some r' -> Sat r'.
Proof.
  revert r. induction es as [|e es IH]; intros r H; cbn.
  - now intros [= <-].
  - destruct (step load parse r e) as [r1|] eqn:Es; [|discriminate].
    apply IH. eapply step_sat; eassumption.
Qed.

(** ** Handlers return when the discovery function and the parser do *)

Section Returning.

Variable f : W -> value -> Context -> W * value.

Lemma onresponse_total (c : Context) (r : Run W) :
  parseable parse f -> paginate r = Some (returning f) ->
  exists r', onresponse load parse c r = Some r'.
Proof.
  intros Hx Hp. unfold onresponse. cbn. rewrite Hp. unfold returning.
  pose proof (Hx (world r)
                (if response_is c Html || response_is c Xml
                 then load (response_is c Xml) (ctx_url c) (ctx_body c)
                 else ctx_body c) c) as [urls Hu].
  unfold candidates in Hu.
  destruct (f (world r) _ c) as [w' v]. cbn in Hu. rewrite Hu. eauto.
Qed.

Lemma onjobfinish_total (u : value) (rep : reply) (r : Run W) :
  parseable parse f -> paginate r = Some (returning f) ->
  exists r', onjobfinish load parse u rep r = Some r'.
Proof.
  intros Hx Hp. unfold onjobfinish.
  set (handled := if truthy (rep_err rep) then _ else _).
  assert (Hh : exists r1, handled = Some r1).
  { subst handled. destruct (truthy (rep_err rep)); [eauto|].
    destruct (rep_ctx rep) as [c|]; [|eauto].
    now apply onresponse_total. }
  destruct Hh as [r1 ->]. cbn. destruct (_ <=? _)%Z; eauto.
Qed.

Lemma get_total (u : value) (r : Run W) :
  parseable parse f -> paginate r = Some (returning f) ->
  exists r', get load parse u r = Some r'.
Proof.
  intros Hx Hp. unfold get. cbn.
  destruct (run_hook (st_request (self r)) (world r) _) as [w1 c].
  destruct (truthy (ctx_body c)); [|eauto].
  destruct (done _ _ _ _ _) as [w2 rep].
  apply onjobfinish_total; assumption.
Qed.

Lemma pump_total (n : nat) (r : Run W) :
  parseable parse f -> paginate r = Some (returning f) ->
  exists r', pump load parse n r = Some r'.
Proof.
  revert r. induction n as [|n IH]; intros r Hx Hp; cbn; [eauto|].
  destruct (q_waiting (queue r)) as [|u rest]; [eauto|].
  match goal with |- context [if ?c then _ else _] => destruct c end; [|eauto].
  destruct (get_total u (with_queue (set_waiting rest (queue r)) r) Hx Hp)
    as [r1 Eg].
  rewrite Eg. apply IH; [exact Hx|].
  apply get_queue in Eg. destruct Eg as ((_ & Hp' & _) & _).
  rewrite Hp'. exact Hp.
Qed.

Lemma submit_total (u : value) (r : Run W) :
  parseable parse f -> paginate r = Some (returning f) ->
  exists queued r', submit load parse u r = Some (queued, r').
Proof.
  intros Hx Hp. unfold submit. destruct (reaches _ _); [eauto|].
  match goal with
  | |- context [pump load parse ?n ?x] => destruct (pump_total n x Hx Hp) as [r1 ->]
  end.
  eauto.
Qed.

Lemma finish_total (k : nat) (j : Job W) (rep : reply) (r : Run W) :
  parseable parse f -> paginate r = Some (returning f) ->
  exists r', finish load parse k j rep r = Some r'.
Proof.
  intros Hx Hp. unfold finish.
  match goal with
  | |- context [onjobfinish load parse ?u ?p ?x] =>
      destruct (onjobfinish_total u p x Hx Hp) as [r1 Ej]
  end.
  rewrite Ej. apply pump_total; [exact Hx|].
  apply onjobfinish_calm in Ej. destruct Ej as (_ & Hp' & _).
  rewrite Hp'. exact Hp.
Qed.

Lemma fire_total (r : Run W) :
  parseable parse f -> paginate r = Some (returning f) -> timers r <> [] ->
  exists r', step load parse r (Fire 0) = Some r'.
Proof.
  intros Hx Hp Ht. cbn. destruct (timers r) as [|[u wait] rest]; [easy|]. cbn.
  unfold timer_callback.
  match goal with
  | |- context [submit load parse ?v ?x] =>
      destruct (submit_total v x Hx Hp) as (queued & r1 & ->)
  end.
  destruct queued; cbn; eauto.
Qed.

Lemma complete_total (r : Run W) :
  parseable parse f -> paginate r = Some (returning f) -> q_running (queue r) <> [] ->
  exists r', step load parse r (Complete 0) = Some r'.
Proof.
  intros Hx Hp Hr. cbn. destruct (q_running (queue r)) as [|j rest]; [easy|]. cbn.
  destruct (job_driver j (world r) (job_ctx j)) as [w1 ans].
  destruct (done _ _ _ _ _) as [w2 rep].
  apply finish_total; assumption.
Qed.

Lemma crawl_total (st : State W) (w : W) :
  parseable parse f -> st_paginate st = Some (returning f) ->
  exists r0, crawl load parse st w = Some r0.
Proof.
  intros Hx Hp. unfold crawl.
  match goal with
  | |- context [submit load parse ?v ?x] =>
      destruct (submit_total v x Hx Hp) as (queued & r1 & ->)
  end.
  cbn. eauto.
Qed.

End Returning.

(** ** The start of a run *)

Lemma crawl_seeding (st : State W) (w : W) :
  crawl load parse st w = option_map snd (submit load parse (st_url st) (seeding st w)).
Proof. reflexivity. Qed.

Lemma crawl_good (st : State W) (w : W) (r0 : Run W) :
  reaches 0 (start_limit st) = false -> crawl load parse st w = Some r0 ->
  Good 0 0 0 (event_bound (start_limit st)) r0.
Proof.
  intros Hacc. rewrite crawl_seeding.
  destruct (submit load parse _ _) as [[queued r1]|] eqn:Es; [|discriminate].
  cbn. intros [= <-].
  apply submit_good with (m := (event_bound (start_limit st) - 1)%Z) in Es.
  - destruct Es as [_ Hg].
    now replace (event_bound (start_limit st) - 1 + 1)%Z
      with (event_bound (start_limit st)) in Hg by lia.
  - unfold Good, seeding, pending, fetches, dones, submissions, rejections,
      count.
    cbn. repeat split; try lia.
    destruct (start_limit st) as [L|]; [|reflexivity].
    cbn in Hacc. apply Z.leb_gt in Hacc.
    exists L. cbn. repeat split; lia.
Qed.

Lemma enqueue_slot (c : option nat) (t : option Z) (n : number) :
  1 <= q_concurrency (@enqueue W c t n).
Proof. destruct c as [[|k]|]; cbn; lia. Qed.

Lemma crawl_sat (st : State W) (w : W) (r0 : Run W) :
  crawl load parse st w = Some r0 -> Sat r0.
Proof.
  rewrite crawl_seeding.
  destruct (submit load parse _ _) as [[queued r1]|] eqn:Es; [|discriminate].
  cbn. intros [= <-]. apply submit_sat in Es; [exact Es|].
  split; [now left|]. apply enqueue_slot.
Qed.

Lemma crawl_frame (st : State W) (w : W) (r0 : Run W) :
  crawl load parse st w = Some r0 -> frame (seeding st w) r0.
Proof.
  rewrite crawl_seeding.
  destruct (submit load parse _ _) as [[queued r1]|] eqn:Es; [|discriminate].
  cbn. intros [= <-]. now apply submit_frame in Es.
Qed.

(** A seed that the queue refuses: the run has nothing to do, for ever. *)
Lemma crawl_refused (st : State W) (w : W) (r0 : Run W) :
  reaches 0 (start_limit st) = true -> crawl load parse st w = Some r0 ->
  r0 = log (Submit (st_url st) false) (seeding st w).
Proof.
  intros Hacc. rewrite crawl_seeding. unfold submit. cbn [seeding queue log with_scheduled enqueue q_accepted q_limit].
  rewrite Hacc. cbn. now intros [= <-].
Qed.

Lemma quiescent_stuck (r : Run W) (e : event) :
  quiescent r = true -> step load parse r e = None.
Proof.
  unfold quiescent. destruct (timers r) eqn:Et; [|discriminate].
  destruct (q_running (queue r)) eqn:Er; [|discriminate]. intros _.
  destruct e as [k|k|k]; cbn; rewrite ?Et, ?Er; destruct k; cbn;
    try reflexivity; now destruct (q_timeout (queue r)).
Qed.

Lemma quiescent_steps (es : list event) (r r' : Run W) :
  quiescent r = true -> steps load parse es r = Some r' -> r' = r.
Proof.
  intros Hq. destruct es as [|e es]; cbn.
  - now intros [= <-].
  - now rewrite quiescent_stuck.
Qed.

(** What holds of every state of every run. *)
Lemma reachable_books (st : State W) (w : W) (r : Run W) :
  reachable load parse st w r ->
  frame (seeding st w) r /\ Sat r
  /\ (reaches 0 (start_limit st) = true
      /\ r = log (Submit (st_url st) false) (seeding st w)
      \/ reaches 0 (start_limit st) = false
         /\ exists m, Good 0 0 0 m r
              /\ (m <= event_bound (start_limit st))%Z).
Proof.
  intros (r0 & es & Hc & Hs).
  destruct (reaches 0 (start_limit st)) eqn:Hacc.
  - pose proof (crawl_refused _ _ Hacc Hc) as E0.
    assert (r = r0) as ->.
    { apply quiescent_steps with (es := es); [|exact Hs]. now subst r0. }
    split; [exact (crawl_frame _ _ Hc)|]. split; [now apply crawl_sat in Hc|].
    left. now split.
  - split; [exact (frame_trans (crawl_frame _ _ Hc) (steps_frame _ _ Hs))|].
    split; [apply steps_sat with es r0; [now apply crawl_sat in Hc|exact Hs]|].
    right. split; [reflexivity|].
    eexists. split.
    + eapply steps_good; [eapply crawl_good; eassumption | exact Hs].
    + lia.
Qed.

(** ** The trace of a completion *)

Lemma children_app (a b : list (value * Z)) :
  children (a ++ b) = (children a ++ children b)%list.
Proof. unfold children. apply flat_map_app. Qed.

(** [schedule] counts the child, then sets its timer, or does neither. *)
Lemma schedule_trace (u : value) (r : Run W) :
  exists added,
    trace (schedule u r) = (trace r ++ children added)%list
    /\ timers (schedule u r) = (timers r ++ added)%list
    /\ scheduled (schedule u r) = (scheduled r + Z.of_nat (List.length added))%Z.
Proof.
  unfold schedule. cbn. destruct (le0 _).
  - exists []. cbn. rewrite !app_nil_r. repeat split. lia.
  - cbn. destruct (throttle r (world r)) as [w1 t].
    destruct (delay r w1) as [w2 d]. exists [(u, (t + d)%Z)]. cbn.
    rewrite <- app_assoc. repeat split.
Qed.

Lemma forEach_schedule_trace (urls : list value) (r : Run W) :
  let r' := fold_left (fun r u => schedule u r) urls r in
  exists added,
    trace r' = (trace r ++ children added)%list
    /\ timers r' = (timers r ++ added)%list
    /\ scheduled r' = (scheduled r + Z.of_nat (List.length added))%Z.
Proof.
  revert r. induction urls as [|u urls IH]; intros r; cbn.
  - exists []. cbn. rewrite !app_nil_r. repeat split. lia.
  - destruct (schedule_trace u r) as (a1 & Ht1 & Hm1 & Hs1).
    destruct (IH (schedule u r)) as (a2 & Ht2 & Hm2 & Hs2). cbn in *.
    exists (a1 ++ a2)%list.
    rewrite Ht2, Hm2, Hs2, Ht1, Hm1, Hs1, children_app, length_app,
      <- !app_assoc.
    repeat split. lia.
Qed.

Lemma onresponse_trace (c : Context) (r r' : Run W) :
  onresponse load parse c r = Some r' ->
  exists doc added,
    trace r' = (trace r ++ [EmitResponse doc c] ++ children added)%list
    /\ timers r' = (timers r ++ added)%list
    /\ scheduled r' = (scheduled r + Z.of_nat (List.length added))%Z.
Proof.
  unfold onresponse. cbn.
  destruct (paginate r) as [p|]; [|discriminate].
  destruct (p (world r) _ c) as [w' [next_page|n msg]]; [|discriminate].
  destruct (if truthy next_page then _ else _) as [urls|n msg];
    [|discriminate].
  intros [= <-].
  match goal with
  | |- context [fold_left _ ?l ?x] =>
      destruct (forEach_schedule_trace l x) as (added & Ht & Hm & Hs)
  end.
  cbn in *. eexists. exists added. rewrite Ht, Hm, Hs, <- app_assoc.
  repeat split.
Qed.

(** Inside [onjobfinish]: the report of the outcome, the children of the
    job (each counted, then delayed), the decrement of the job itself, and
    the completion callback if the counter came to zero. *)
Lemma onjobfinish_trace (u : value) (rep : reply) (r r' : Run W) :
  onjobfinish load parse u rep r = Some r' ->
  exists head added,
    trace r'
    = (trace r ++ head ++ children added
       ++ Dec :: (if (scheduled r' <=? 0)%Z then [CallDone] else []))%list
    /\ timers r' = (timers r ++ added)%list
    /\ scheduled r' = (scheduled r + Z.of_nat (List.length added) - 1)%Z
    /\ (head = [] \/ (exists e, head = [EmitError e u])
        \/ exists doc c, head = [EmitResponse doc c]).
Proof.
  intros H. unfold onjobfinish in H.
  set (handled := if truthy (rep_err rep) then _ else _) in H.
  assert (Hh : forall r1, handled = Some r1 ->
    exists head added,
      trace r1 = (trace r ++ head ++ children added)%list
      /\ timers r1 = (timers r ++ added)%list
      /\ scheduled r1 = (scheduled r + Z.of_nat (List.length added))%Z
      /\ (head = [] \/ (exists e, head = [EmitError e u])
          \/ exists doc c, head = [EmitResponse doc c])).
  { subst handled. intros r1. destruct (truthy (rep_err rep)).
    - intros [= <-]. exists [EmitError (rep_err rep) u], []. cbn.
      rewrite app_nil_r. repeat split; [lia|]. right. left. eauto.
    - destruct (rep_ctx rep) as [c|].
      + intros Ho. apply onresponse_trace in Ho.
        destruct Ho as (doc & added & Ht & Hm & Hs).
        exists [EmitResponse doc c], added. repeat split; try assumption.
        right. right. eauto.
      + intros [= <-]. exists [], []. cbn. rewrite !app_nil_r.
        repeat split; [lia|]. now left. }
  destruct handled as [r1|]; [|discriminate].
  destruct (Hh r1 eq_refl) as (head & added & Ht & Hm & Hs & Hhead).
  exists head, added. cbn in H. revert H.
  destruct (scheduled r1 - 1 <=? 0)%Z eqn:Hz; intros [= <-]; cbn;
    rewrite Hz, Ht, Hm, Hs, <- ?app_assoc; cbn;
    repeat split; try assumption; try lia.
Qed.

(** ** Every way a run can go *)

Lemma events_complete (r r' : Run W) (e : event) :
  step load parse r e = Some r' -> In e (events r).
Proof.
  unfold events. destruct e as [k|k|k]; cbn; intros H; rewrite !in_app_iff.
  - left. apply in_map, in_seq.
    destruct (nth_error (timers r) k) eqn:Ek; [|discriminate].
    assert (k < List.length (timers r)) by (apply nth_error_Some; congruence).
    lia.
  - right. left. apply in_map, in_seq.
    destruct (nth_error (q_running (queue r)) k) eqn:Ek; [|discriminate].
    assert (k < List.length (q_running (queue r)))
      by (apply nth_error_Some; congruence).
    lia.
  - right. right. destruct (q_timeout (queue r)); [|discriminate].
    apply in_map, in_seq.
    destruct (nth_error (q_running (queue r)) k) eqn:Ek; [|discriminate].
    assert (k < List.length (q_running (queue r)))
      by (apply nth_error_Some; congruence).
    lia.
Qed.

Lemma successors_complete (r r' : Run W) (e : event) :
  step load parse r e = Some r' -> In r' (successors load parse r).
Proof.
  intros H. unfold successors. apply in_flat_map. exists e.
  split; [eapply events_complete, H|]. rewrite H. now left.
Qed.

(** When [explore] finds rest everywhere within [n] events, no run has more
    than [n] events and every state of rest is among its leaves. *)
Lemma explore_complete (n : nat) (r : Run W) :
  (forall leaf, In leaf (explore load parse n r) -> fst leaf = true) ->
  forall es r', steps load parse es r = Some r' ->
    List.length es <= n
    /\ (quiescent r' = true -> In (true, r') (explore load parse n r)).
Proof.
  revert r. induction n as [|n IH]; intros r Hall es r' Hs.
  - cbn in Hall |- *. destruct (quiescent r) eqn:Hq.
    + apply quiescent_steps in Hs as E; [|exact Hq].
      destruct es as [|e es]; [|cbn in Hs; now rewrite quiescent_stuck in Hs].
      subst r'. split; [cbn; lia|]. intros _. now left.
    + specialize (Hall (false, r) (or_introl eq_refl)). discriminate.
  - cbn [explore] in Hall |- *. destruct (quiescent r) eqn:Hq.
    + apply quiescent_steps in Hs as E; [|exact Hq].
      destruct es as [|e es]; [|cbn in Hs; now rewrite quiescent_stuck in Hs].
      subst r'. split; [cbn; lia|]. intros _. now left.
    + destruct es as [|e es]; cbn in Hs.
      * injection Hs as <-. split; [cbn; lia|]. congruence.
      * destruct (step load parse r e) as [r1|] eqn:Es; [|discriminate].
        apply successors_complete in Es.
        destruct (IH r1) with (es := es) (r' := r') as [Hlen Hin];
          [|exact Hs|].
        -- intros leaf Hleaf. apply Hall, in_flat_map. eauto.
        -- split; [cbn; lia|]. intros Hq'. apply in_flat_map. eauto.
Qed.

(** ** The counter, the limit and the queue over whole runs *)

(** While a timer is set the queue has room: its submission is accepted. *)
Lemma timers_accepted (st : State W) (w : W) (r : Run W) :
  reachable load parse st w r -> timers r <> [] ->
  reaches (q_accepted (queue r)) (q_limit (queue r)) = false.
Proof.
  intros Hr Ht. apply reachable_books in Hr.
  destruct Hr as (_ & _ & [[_ ->]|[_ (m & Hg & _)]]); [now cbn in Ht|].
  destruct Hg as (_ & _ & _ & _ & _ & Hl).
  destruct (q_limit (queue r)) as [L|]; [|reflexivity].
  destruct Hl as (l & _ & Hb & _). cbn. apply Z.leb_gt.
  destruct (timers r); [easy|]. cbn [List.length] in Hb. lia.
Qed.

(** C2.  Inside the handler of a job completion, the outcome is reported,
    then the children of the job are scheduled, each one counted in the
    in-flight counter before its timer is set, and only then the counter is
    decremented for the job itself.  So in every state of every run the
    counter is at least zero, it is zero only when no timer is set and no
    job runs or waits, the completion callback has been called exactly once
    when it is zero and never before, and once it is zero no event can
    happen any more: nothing further is scheduled. *)
Theorem children_counted_before_decrement :
  (forall (u : value) (rep : reply) (r r' : Run W),
      onjobfinish load parse u rep r = Some r' ->
      exists head added,
        trace r'
        = (trace r ++ head ++ children added
           ++ Dec :: (if (scheduled r' <=? 0)%Z then [CallDone] else []))%list
        /\ timers r' = (timers r ++ added)%list
        /\ scheduled r' = (scheduled r + Z.of_nat (List.length added) - 1)%Z
        /\ (head = [] \/ (exists e, head = [EmitError e u])
            \/ exists doc c, head = [EmitResponse doc c]))
  /\ (forall (st : State W) (w : W) (r : Run W),
        reachable load parse st w r ->
        (0 <= scheduled r)%Z
        /\ (scheduled r = 0%Z -> pending r = 0)
        /\ dones r = (if (scheduled r =? 0)%Z then 1 else 0)
        /\ (scheduled r = 0%Z -> forall e, step load parse r e = None)).
Proof.
  split; [exact onjobfinish_trace|].
  intros st w r Hr. apply reachable_books in Hr.
  destruct Hr as (_ & _ & [[_ ->]|[_ (m & Hg & _)]]).
  - cbn. repeat split; try lia; discriminate.
  - destruct Hg as (_ & Hs & Hd & _).
    assert (Hq : scheduled r = 0%Z -> quiescent r = true).
    { intros Hz. unfold quiescent, pending in *.
      destruct (timers r); [|cbn in Hs; lia].
      destruct (q_running (queue r)); [reflexivity|cbn in Hs; lia]. }
    repeat split.
    + lia.
    + lia.
    + destruct (Z.eqb_spec (scheduled r) 0); lia.
    + intros Hz e. apply quiescent_stuck, Hq, Hz.
Qed.

(** C10 (as amended).  In every run whose queue has a limit of at least 1,
    or no limit, the submissions to the queue (the seed and the scheduled
    candidates) never exceed the limit and the queue refuses none of them.
    Whatever the limit, the queue has room whenever a timer is set: no
    submission made from a timer is refused. *)
Theorem scheduled_submissions_accepted (st : State W) (w : W) (r : Run W) :
  reachable load parse st w r ->
  q_limit (queue r) = start_limit st
  /\ (match start_limit st with Fin L => (1 <= L)%Z | Infinity => True end ->
      rejections r = 0
      /\ match start_limit st with
         | Fin L => (Z.of_nat (submissions r) <= L)%Z
         | Infinity => True
         end)
  /\ (forall k t, nth_error (timers r) k = Some t ->
      reaches (q_accepted (queue r)) (q_limit (queue r)) = false
      /\ forall queued r',
          submit load parse (fst t) (with_timers (remove_at k (timers r)) r)
          = Some (queued, r') ->
          queued = true).
Proof.
  intros Hr. pose proof (reachable_books Hr) as (Hf & _ & Hc).
  split; [apply Hf|]. split.
  - intros Hpos.
    destruct Hc as [[Hacc _]|[_ (m & Hg & _)]].
    + destruct (start_limit st) as [L|]; [|discriminate].
      cbn in Hacc. apply Z.leb_le in Hacc. lia.
    + destruct Hg as (Hrej & _ & _ & _ & Hsub & Hl).
      split; [exact Hrej|].
      destruct Hf as (_ & _ & _ & _ & _ & _ & _ & Hql). cbn in Hql.
      rewrite Hql in Hl.
      destruct (start_limit st) as [L|]; [|exact I].
      destruct Hl as (l & _ & Hb & _). rewrite Hsub. lia.
  - intros k t Hk.
    assert (Hacc : reaches (q_accepted (queue r)) (q_limit (queue r)) = false).
    { eapply timers_accepted; [exact Hr|].
      intros E. rewrite E in Hk. now destruct k. }
    split; [exact Hacc|]. intros queued r'. unfold submit. cbn. rewrite Hacc.
    destruct (pump load parse _ _); [|discriminate]. now intros [= <- _].
Qed.



(** ** What the throws flag and the crawler object do to a run *)

Lemma schedule_rebase (s : State W) (b : bool) (u : value) (r : Run W) :
  schedule u (rebase s b r) = rebase s b (schedule u r).
Proof.
  unfold schedule. cbn. destruct (le0 _); [reflexivity|].
  cbn. destruct (throttle r (world r)) as [w1 t].
  destruct (delay r w1) as [w2 d]. reflexivity.
Qed.

Lemma forEach_schedule_rebase (s : State W) (b : bool) (urls : list value)
  (r : Run W) :
  fold_left (fun r u => schedule u r) urls (rebase s b r)
  = rebase s b (fold_left (fun r u => schedule u r) urls r).
Proof.
  revert r. induction urls as [|u urls IH]; intros r; cbn; [reflexivity|].
  now rewrite schedule_rebase, IH.
Qed.

Lemma onresponse_rebase (s : State W) (b : bool) (c : Context) (r : Run W) :
  onresponse load parse c (rebase s b r) = option_map (rebase s b) (onresponse load parse c r).
Proof.
  unfold onresponse. cbn.
  destruct (paginate r) as [p|]; [|reflexivity].
  destruct (p (world r) _ c) as [w' [next_page|n msg]]; [|reflexivity].
  destruct (if truthy next_page then _ else _) as [urls|n msg];
    [|reflexivity].
  cbn. f_equal. apply (forEach_schedule_rebase s b _ (with_world w' (log _ r))).
Qed.

Lemma onjobfinish_rebase (s : State W) (b : bool) (u : value) (rep : reply)
  (r : Run W) :
  onjobfinish load parse u rep (rebase s b r)
  = option_map (rebase s b) (onjobfinish load parse u rep r).
Proof.
  unfold onjobfinish. destruct (truthy (rep_err rep)).
  - cbn. destruct (_ <=? _)%Z; reflexivity.
  - destruct (rep_ctx rep) as [c|].
    + rewrite onresponse_rebase. destruct (onresponse load parse c r) as [r1|];
        [|reflexivity].
      cbn. destruct (_ <=? _)%Z; reflexivity.
    + cbn. destruct (_ <=? _)%Z; reflexivity.
Qed.

Lemma get_rebase (s : State W) (b : bool) (u : value) (r : Run W) :
  same_fetch s (self r) ->
  get load parse u (rebase s b r) = option_map (rebase s b) (get load parse u r).
Proof.
  intros (Hq & Hp & Hd). unfold get. cbn. rewrite Hq, Hp, Hd.
  destruct (run_hook (st_request (self r)) (world r) _) as [w1 c].
  destruct (truthy (ctx_body c)); [|reflexivity].
  destruct (done _ _ _ _ _) as [w2 rep].
  apply (onjobfinish_rebase s b u rep
           (with_world w2 (with_world w1 (log (Fetch u) (with_next_ref _ r))))).
Qed.

Lemma pump_rebase (s : State W) (b : bool) (n : nat) (r : Run W) :
  same_fetch s (self r) ->
  pump load parse n (rebase s b r) = option_map (rebase s b) (pump load parse n r).
Proof.
  revert r. induction n as [|n IH]; intros r Hs; cbn [pump]; [reflexivity|].
  change (queue (rebase s b r)) with (queue r).
  destruct (q_waiting (queue r)) as [|u rest]; [reflexivity|].
  match goal with |- context [if ?c then _ else _] => destruct c end;
    [|reflexivity].
  change (with_queue (set_waiting rest (queue r)) (rebase s b r))
    with (rebase s b (with_queue (set_waiting rest (queue r)) r)).
  rewrite get_rebase by exact Hs.
  destruct (get load parse u _) as [r1|] eqn:E1; [|reflexivity]. cbn [option_map].
  apply IH. apply get_queue in E1. destruct E1 as ((Hself & _) & _).
  rewrite Hself. exact Hs.
Qed.

Lemma submit_rebase (s : State W) (b : bool) (u : value) (r : Run W) :
  same_fetch s (self r) ->
  submit load parse u (rebase s b r)
  = option_map (fun p => (fst p, rebase s b (snd p))) (submit load parse u r).
Proof.
  intros Hs. unfold submit.
  change (queue (rebase s b r)) with (queue r).
  destruct (reaches _ _); [reflexivity|].
  change (log (Submit u true) (with_queue (accept u (queue r)) (rebase s b r)))
    with (rebase s b (log (Submit u true) (with_queue (accept u (queue r)) r))).
  change (queue (rebase s b ?x)) with (queue x).
  rewrite pump_rebase by exact Hs.
  destruct (pump load parse _ _); reflexivity.
Qed.

Lemma finish_rebase (s : State W) (b : bool) (k : nat) (j : Job W)
  (rep : reply) (r : Run W) :
  same_fetch s (self r) ->
  finish load parse k j rep (rebase s b r)
  = option_map (rebase s b) (finish load parse k j rep r).
Proof.
  intros Hs. unfold finish.
  change (with_queue
            (set_running (remove_at k (q_running (queue (rebase s b r))))
               (queue (rebase s b r)))
            (rebase s b r))
    with (rebase s b
            (with_queue
               (set_running (remove_at k (q_running (queue r))) (queue r)) r)).
  rewrite onjobfinish_rebase.
  destruct (onjobfinish load parse _ _ _) as [r1|] eqn:E1; [|reflexivity].
  cbn [option_map]. change (queue (rebase s b r1)) with (queue r1).
  apply pump_rebase.
  apply onjobfinish_calm in E1. destruct E1 as (Hself & _).
  rewrite Hself. exact Hs.
Qed.

Lemma step_rebase (s : State W) (b : bool) (e : event) (r : Run W) :
  same_fetch s (self r) ->
  step load parse (rebase s b r) e = option_map (rebase s b) (step load parse r e).
Proof.
  intros Hs. destruct e as [k|k|k]; cbn [step].
  - change (timers (rebase s b r)) with (timers r).
    destruct (nth_error (timers r) k) as [[u wait]|]; [|reflexivity].
    unfold timer_callback.
    change (with_timers (remove_at k (timers r)) (rebase s b r))
      with (rebase s b (with_timers (remove_at k (timers r)) r)).
    rewrite submit_rebase by exact Hs.
    destruct (submit load parse u _) as [[[|] r1]|]; reflexivity.
  - change (queue (rebase s b r)) with (queue r).
    change (world (rebase s b r)) with (world r).
    destruct (nth_error (q_running (queue r)) k) as [j|]; [|reflexivity].
    destruct (job_driver j (world r) (job_ctx j)) as [w1 ans].
    destruct (done _ _ _ _ _) as [w2 rep].
    change (with_world w2 (rebase s b r)) with (rebase s b (with_world w2 r)).
    apply finish_rebase. exact Hs.
  - change (queue (rebase s b r)) with (queue r).
    destruct (q_timeout (queue r)); [|reflexivity].
    destruct (nth_error (q_running (queue r)) k) as [j|]; [|reflexivity].
    apply finish_rebase. exact Hs.
Qed.


(** ** The candidate filter *)

(** A candidate passes when it is a string that the parser takes and finds
    a protocol in, nothing else. *)
Lemma canRequest_valid (u : value) :
  passes parse u = true
  <-> exists s p, u = Str s /\ parse s = Ok (Some p) /\ p <> EmptyString.
Proof.
  unfold passes, canRequest. split.
  - destruct u; cbn; try discriminate.
    destruct (parse s) as [[p|]|n msg] eqn:E; cbn; try discriminate.
    intros Hp. exists s, p. split; [reflexivity|]. split; [exact E|].
    intros ->. discriminate.
  - intros (s & p & -> & E & Hp). cbn. rewrite E. cbn.
    destruct p; [easy|reflexivity].
Qed.

(** [canRequest] throws on the strings that the parser throws on, and on
    nothing else. *)
Lemma canRequest_throws (u : value) (n msg : string) :
  canRequest parse u = Throw n msg
  <-> exists s, u = Str s /\ parse s = Throw n msg.
Proof.
  unfold canRequest. split.
  - destruct u; cbn; try discriminate.
    destruct (parse s) as [p|n' msg'] eqn:E; cbn; [discriminate|].
    intros [= -> ->]. eauto.
  - intros (s & -> & E). cbn. now rewrite E.
Qed.

Lemma wanted_passes (u : value) (b : bool) :
  wanted parse u = Ok b -> passes parse u = b.
Proof.
  unfold wanted, passes. destruct (canRequest parse u); cbn; [|discriminate].
  now intros [= <-].
Qed.

(** The filter that returns: what it keeps, in order. *)
Lemma filter_result_ok (l kept : list value) :
  Scope.filter_result (wanted parse) l = Ok kept ->
  kept = filter (passes parse) l
  /\ forall u, In u l -> exists v, canRequest parse u = Ok v.
Proof.
  revert kept. induction l as [|u l IH]; intros kept; cbn.
  - intros [= <-]. split; [reflexivity|easy].
  - destruct (wanted parse u) as [b|n msg] eqn:Eu; cbn; [|discriminate].
    destruct (Scope.filter_result (wanted parse) l) as [rest|n msg];
      cbn; [|discriminate].
    intros [= <-]. destruct (IH rest eq_refl) as [-> Hall].
    rewrite (wanted_passes _ Eu). split; [reflexivity|].
    intros v [<-|Hv]; [|now apply Hall].
    unfold wanted in Eu. destruct (canRequest parse u); [eauto|discriminate].
Qed.

(** The filter that throws: some candidate makes the parser throw. *)
Lemma filter_result_throws (l : list value) :
  (exists n msg, Scope.filter_result (wanted parse) l = Throw n msg)
  <-> exists s n msg, In (Str s) l /\ parse s = Throw n msg.
Proof.
  induction l as [|u l IH]; cbn.
  - split; [now intros (n & msg & E)|now intros (s & n & msg & [] & _)].
  - destruct (wanted parse u) as [b|n msg] eqn:Eu; cbn.
    + assert (Hu : forall s n' msg', u = Str s -> parse s <> Throw n' msg').
      { intros s n' msg' -> E. unfold wanted, canRequest in Eu. cbn in Eu.
        now rewrite E in Eu. }
      destruct (Scope.filter_result (wanted parse) l) as [rest|n msg]; cbn.
      * split; [now intros (n & msg & E)|].
        intros (s & n & msg & [E|Hin] & Hs); [now apply Hu in Hs|].
        destruct (proj2 IH) as (n' & msg' & E'); [eauto|discriminate].
      * split; [|eauto]. intros _.
        destruct (proj1 IH) as (s & n' & msg' & Hin & Hs); [eauto|].
        exists s, n', msg'. auto.
    + split; [|eauto]. intros _.
      unfold wanted in Eu.
      destruct (canRequest parse u) as [v|n' msg'] eqn:Ec; [discriminate|].
      apply canRequest_throws in Ec. destruct Ec as (s & -> & Ec).
      exists s, n', msg'. auto.
Qed.

Lemma allowance_cons (n : number) (u : value) (urls : list value) :
  allowance n (u :: urls)
  = ((if le0 (JS.pred n) then [] else [u]) ++ allowance (JS.pred n) urls)%list.
Proof.
  destruct n as [l|]; [|reflexivity]. cbn [allowance JS.pred le0].
  destruct (Z.leb_spec (l - 1) 0) as [Hle|Hgt].
  - replace (Z.to_nat (l - 1)) with 0 by lia.
    replace (Z.to_nat (l - 1 - 1)) with 0 by lia. reflexivity.
  - replace (Z.to_nat (l - 1)) with (S (Z.to_nat (l - 1 - 1))) by lia.
    reflexivity.
Qed.

Lemma schedule_timers (u : value) (r : Run W) :
  limit (schedule u r) = JS.pred (limit r)
  /\ map fst (timers (schedule u r))
     = (map fst (timers r)
        ++ (if le0 (JS.pred (limit r)) then [] else [u]))%list
  /\ count is_error (trace (schedule u r)) = count is_error (trace r).
Proof.
  unfold schedule. cbn. destruct (le0 _).
  - cbn. rewrite app_nil_r. repeat split.
  - cbn. destruct (throttle r (world r)) as [w1 t].
    destruct (delay r w1) as [w2 d]. cbn.
    rewrite map_app, !count_snoc. cbn. repeat split. lia.
Qed.

Lemma forEach_schedule_timers (urls : list value) (r : Run W) :
  let r' := fold_left (fun r u => schedule u r) urls r in
  map fst (timers r') = (map fst (timers r) ++ allowance (limit r) urls)%list
  /\ count is_error (trace r') = count is_error (trace r).
Proof.
  revert r. induction urls as [|u urls IH]; intros r; cbn.
  - destruct (limit r); cbn; rewrite ?firstn_nil, app_nil_r; now split.
  - destruct (schedule_timers u r) as (Hl & Ht & He).
    destruct (IH (schedule u r)) as (Ht' & He'). cbn in Ht', He'.
    rewrite Ht', He', Hl, Ht, He, allowance_cons, <- app_assoc. now split.
Qed.

(** The general part of C8, when the handler returns: the parser threw on
    no candidate, and the timers that the response sets are the candidates
    that pass the filter, in their order, as far as the limit lets them
    through; nothing goes to the error signal. *)
Lemma discovery_filters (c : Context) (r r' : Run W) :
  onresponse load parse c r = Some r' ->
  exists p doc w' next_page urls,
    paginate r = Some p /\ p (world r) doc c = (w', Ok next_page)
    /\ candidates parse next_page = Ok urls
    /\ map fst (timers r')
       = (map fst (timers r) ++ allowance (limit r) urls)%list
    /\ count is_error (trace r') = count is_error (trace r).
Proof.
  unfold onresponse. cbn.
  destruct (paginate r) as [p|]; [|discriminate].
  destruct (p (world r) _ c) as [w' [next_page|n msg]] eqn:Ep; [|discriminate].
  destruct (if truthy next_page then _ else _) as [urls|n msg] eqn:Eu;
    [|discriminate].
  intros [= <-]. exists p. eexists. exists w', next_page, urls.
  split; [reflexivity|]. split; [exact Ep|]. split; [exact Eu|].
  match goal with
  | |- context [fold_left _ ?l ?x] =>
      destruct (forEach_schedule_timers l x) as (Ht & He)
  end.
  cbn in Ht, He. rewrite count_snoc in He. cbn in He.
  rewrite Ht, He. split; [reflexivity|lia].
Qed.

(** And when the parser throws on a candidate: the handler ends there. *)
Lemma discovery_throws (c : Context) (r : Run W) (p : discovery W)
  (w' : W) (next_page : value) (n msg : string) :
  paginate r = Some p ->
  p (world r) (document load c) c = (w', Ok next_page) ->
  candidates parse next_page = Throw n msg ->
  onresponse load parse c r = None.
Proof.
  intros Hp Hcall Hc. unfold onresponse. unfold document in Hcall.
  cbn. rewrite Hp, Hcall.
  unfold candidates in Hc. now rewrite Hc.
Qed.

Lemma candidates_valid (next_page : value) (urls : list value) (u : value) :
  candidates parse next_page = Ok urls ->
  In u urls
  <-> truthy next_page = true /\ In u (JS.concat [] next_page)
      /\ exists s p, u = Str s /\ parse s = Ok (Some p) /\ p <> EmptyString.
Proof.
  unfold candidates. destruct (truthy next_page).
  - intros Hf. apply filter_result_ok in Hf. destruct Hf as [-> _].
    rewrite filter_In, canRequest_valid. tauto.
  - intros [= <-]. cbn. split; [easy|]. intros [? _]. discriminate.
Qed.

Lemma candidates_throw (next_page : value) :
  (exists n msg, candidates parse next_page = Throw n msg)
  <-> truthy next_page = true
      /\ exists s n msg,
           In (Str s) (JS.concat [] next_page) /\ parse s = Throw n msg.
Proof.
  unfold candidates. destruct (truthy next_page).
  - rewrite filter_result_throws. split; [now split|tauto].
  - split; [now intros (n & msg & E)|now intros [E _]].
Qed.

(** The collaborators of the fluent methods. *)
Variable selectn : value -> value -> value.
Variable select : value -> value -> value.
Variable http : Driver W.
Variable rate_limit0 : clock W.
Variable range0 : clock W.



(** ** Setters called while a crawl runs *)

Lemma captured_same_fetch (s : setter W) (st : State W) :
  captured s = true -> same_fetch (apply_setter selectn select s st) st.
Proof. destruct s; cbn; intros H; try discriminate; repeat split. Qed.

(** C5 (as amended).  [crawl] reads limit, concurrency, discovery function,
    throttle, delay, timeout and throws once, when it starts: calling one of
    their setters afterwards changes no event of the run.  Driver, request
    hook and response hook are not frozen: [get] reads them from the
    crawler each time a fetch begins, so a fetch that begins after such a
    setter was called runs the new request hook, and waits for the new
    driver with the new response hook (or, with a body already there, runs
    the new response hook at once). *)
Theorem setters_frozen_except_fetch_hooks :
  (forall (s : setter W) (r : Run W) (e : event),
      captured s = true ->
      step load parse (mutate selectn select s r) e
      = option_map (mutate selectn select s) (step load parse r e))
  /\ (forall (s : setter W) (u : value) (r r' : Run W),
        get load parse u (mutate selectn select s r) = Some r' ->
        let st := apply_setter selectn select s (self r) in
        let hooked :=
          run_hook (st_request st) (world r) (set_url u (context (next_ref r))) in
        if truthy (ctx_body (snd hooked))
        then
          onjobfinish load parse u
            (snd (done (st_response st) (snd hooked) Null
                    (Obj (ctx_ref (snd hooked))) (fst hooked)))
            (with_world
               (fst (done (st_response st) (snd hooked) Null
                       (Obj (ctx_ref (snd hooked))) (fst hooked)))
               (with_world (fst hooked)
                  (log (Fetch u)
                     (with_next_ref (S (next_ref r))
                        (mutate selectn select s r)))))
          = Some r'
        else
          q_running (queue r')
          = (q_running (queue r)
             ++ [{| job_url := u; job_ctx := snd hooked;
                    job_driver := st_driver st;
                    job_response := st_response st |}])%list).
Proof.
  split.
  - intros s r e Hc.
    change (mutate selectn select s r)
      with (rebase (apply_setter selectn select s (self r)) (throws r) r).
    rewrite step_rebase by (apply captured_same_fetch, Hc).
    destruct (step load parse r e) as [r1|] eqn:E1; [|reflexivity].
    cbn [option_map]. f_equal. apply step_frame in E1.
    destruct E1 as (Hself & _ & _ & _ & Hthrows & _).
    unfold mutate, rebase, with_self. now rewrite Hself, Hthrows.
  - intros s u r r'. unfold get. cbn.
    destruct (run_hook _ (world r) _) as [w1 c]. cbn.
    destruct (truthy (ctx_body c)).
    + destruct (done _ _ _ _ _) as [w2 rep]. cbn. exact (fun H => H).
    + now intros [= <-].
Qed.

(** ** The end of a fetch *)


(** ** Selecting in a JSON body *)

Lemma map_result_ok (A B : Type) (f : A -> result B) (g : A -> B)
  (l : list A) :
  (forall a, f a = Ok (g a)) -> Scope.map_result f l = Ok (map g l).
Proof.
  intros H. induction l as [|a l IH]; [reflexivity|].
  cbn [Scope.map_result map]. rewrite H, IH. reflexivity.
Qed.

Lemma json_select_array (selector : value) (items : list value) :
  json_select selectn selector (Arr items)
  = Ok (Arr (map (selectn selector) items)).
Proof.
  unfold json_select. cbn [isArray].
  erewrite map_result_ok; [reflexivity|]. intros o. reflexivity.
Qed.

(** C9.  With [paginate] set to a selector (anything that is no function),
    [compile] sends a JSON body to [json_select]; for a body that is no
    array, [json_select] reads the identifier [obj], which is bound only
    inside the callback of the other branch: the read throws a
    ReferenceError, for every selector and every such body, and the
    response handler ends there without a value.  For an array the
    selection is made element by element. *)
Theorem json_select_faults_on_object :
  (forall selector json : value,
      isArray json = false ->
      json_select selectn selector json
      = Throw "ReferenceError" "obj is not defined")
  /\ (forall (selector : value) (items : list value),
        json_select selectn selector (Arr items)
        = Ok (Arr (map (selectn selector) items)))
  /\ (forall (fn : value) (w : W) (doc : value) (ctx : Context),
        response_is ctx Json = true -> isArray doc = false ->
        compile selectn select fn w doc ctx
        = (w, Throw "ReferenceError" "obj is not defined"))
  /\ (forall (fn : value) (c : Context) (r : Run W),
        paginate r = Some (compile selectn select fn) ->
        response_is c Json = true -> isArray (ctx_body c) = false ->
        onresponse load parse c r = None).
Proof.
  assert (H1 : forall selector json : value,
             isArray json = false ->
             json_select selectn selector json
             = Throw "ReferenceError" "obj is not defined").
  { intros selector json Hj. unfold json_select. rewrite Hj. reflexivity. }
  assert (H3 : forall (fn : value) (w : W) (doc : value) (ctx : Context),
             response_is ctx Json = true -> isArray doc = false ->
             compile selectn select fn w doc ctx
             = (w, Throw "ReferenceError" "obj is not defined")).
  { intros fn w doc ctx Hk Hd. unfold compile, response_is in *.
    destruct (res_type (ctx_response ctx)); try discriminate. cbn.
    now rewrite H1. }
  repeat split; [exact H1|exact json_select_array|exact H3|].
  intros fn c r Hp Hk Hd. unfold onresponse. cbn. rewrite Hp.
  assert (Hdoc : (if response_is c Html || response_is c Xml
                  then load (response_is c Xml) (ctx_url c) (ctx_body c)
                  else ctx_body c) = ctx_body c).
  { unfold response_is in *. now destruct (res_type (ctx_response c)). }
  rewrite Hdoc, H3 by assumption. reflexivity.
Qed.


(** ** A crawler without a discovery function *)

Lemma setters_keep_paginate (l : list (setter W)) (st : State W) :
  (exists p, st_paginate st = Some p) ->
  exists p, st_paginate (fold_left (fun st s => apply_setter selectn select s st) l st)
            = Some p.
Proof.
  revert st. induction l as [|s l IH]; intros st H; cbn; [exact H|].
  apply IH. destruct s; cbn; try exact H. destruct fn; eauto.
Qed.

Lemma setters_keep_noop (l : list (setter W)) (st : State W) :
  forallb (fun s => negb (is_paginate s)) l = true ->
  st_paginate (fold_left (fun st s => apply_setter selectn select s st) l st)
  = st_paginate st.
Proof.
  revert st. induction l as [|s l IH]; intros st H; cbn; [reflexivity|].
  cbn in H. apply andb_prop in H. destruct H as [Hs Hl].
  rewrite IH by exact Hl. now destruct s.
Qed.

Lemma onjobfinish_noop (u : value) (rep : reply) (r r' : Run W) :
  paginate r = Some (@noop_paginate W) ->
  onjobfinish load parse u rep r = Some r' -> timers r' = timers r.
Proof.
  intros Hp. unfold onjobfinish, onresponse. cbn. rewrite Hp.
  unfold noop_paginate. cbn.
  destruct (truthy (rep_err rep)); [|destruct (rep_ctx rep)]; cbn;
    destruct (_ <=? _)%Z; now intros [= <-].
Qed.

Lemma get_noop (u : value) (r r' : Run W) :
  paginate r = Some (@noop_paginate W) ->
  get load parse u r = Some r' -> timers r' = timers r.
Proof.
  intros Hp. unfold get. cbn.
  destruct (run_hook (st_request (self r)) (world r) _) as [w1 c].
  destruct (truthy (ctx_body c)).
  - destruct (done _ _ _ _ _) as [w2 rep].
    intros Hj. now apply onjobfinish_noop in Hj.
  - now intros [= <-].
Qed.

Lemma pump_idle (n : nat) (r : Run W) :
  q_waiting (queue r) = [] -> pump load parse n r = Some r.
Proof. intros Hw. destruct n; cbn; [reflexivity|]. now rewrite Hw. Qed.

Lemma finish_single (k : nat) (j : Job W) (rep : reply) (r r' : Run W) :
  paginate r = Some (@noop_paginate W) -> Single r ->
  finish load parse k j rep r = Some r' -> Single r'.
Proof.
  intros Hp (Ht & Hw & Ha). unfold finish.
  destruct (onjobfinish load parse _ rep _) as [r1|] eqn:Ej; [|discriminate].
  apply onjobfinish_noop in Ej as Ht1; [|exact Hp].
  apply onjobfinish_calm in Ej. destruct Ej as (_ & _ & _ & _ & _ & Hq).
  cbn in Hq, Ht1. rewrite pump_idle by (rewrite Hq; exact Hw).
  intros [= <-]. unfold Single. rewrite Ht1, Hq. cbn. auto.
Qed.

Lemma step_single (e : event) (r r' : Run W) :
  paginate r = Some (@noop_paginate W) -> Single r ->
  step load parse r e = Some r' -> Single r'.
Proof.
  intros Hp Hs. destruct e as [k|k|k]; cbn.
  - destruct Hs as (Ht & _). rewrite Ht. now destruct k.
  - destruct (nth_error (q_running (queue r)) k) as [j|]; [|discriminate].
    destruct (job_driver j (world r) (job_ctx j)) as [w1 ans].
    destruct (done _ _ _ _ _) as [w2 rep].
    apply finish_single; assumption.
  - destruct (q_timeout (queue r)); [|discriminate].
    destruct (nth_error (q_running (queue r)) k) as [j|]; [|discriminate].
    apply finish_single; assumption.
Qed.

Lemma steps_single (es : list event) (r r' : Run W) :
  paginate r = Some (@noop_paginate W) -> Single r ->
  steps load parse es r = Some r' -> Single r'.
Proof.
  revert r. induction es as [|e es IH]; intros r Hp Hs; cbn.
  - now intros [= <-].
  - destruct (step load parse r e) as [r1|] eqn:E1; [|discriminate].
    apply IH; [|eapply step_single; eassumption].
    apply step_frame in E1. destruct E1 as (_ & Hp' & _). now rewrite Hp'.
Qed.

Lemma crawl_single (st : State W) (w : W) (r0 : Run W) :
  st_paginate st = Some (@noop_paginate W) ->
  crawl load parse st w = Some r0 -> Single r0.
Proof.
  intros Hp. rewrite crawl_seeding. unfold submit.
  change (queue (seeding st w))
    with (@enqueue W (st_concurrency st) (st_timeout st) (start_limit st)).
  cbn [q_accepted q_limit enqueue].
  destruct (reaches 0 (start_limit st)) eqn:Hacc.
  - cbn. intros [= <-]. unfold Single. cbn. now rewrite Hacc.
  - pose proof (enqueue_slot (st_concurrency st) (st_timeout st)
                  (start_limit st)) as Hslot.
    cbn [accept q_waiting with_queue log queue app List.length pump
         q_running enqueue q_concurrency set_waiting] in *.
    destruct (Nat.ltb_spec 0
                match st_concurrency st with
                | Some (S n) => S n
                | _ => 1
                end) as [_|Hbad]; [|lia].
    match goal with
    | |- context [get load parse ?u ?x] => destruct (get load parse u x) as [r1|] eqn:Eg
    end; [|discriminate].
    cbn. intros [= <-].
    apply get_noop in Eg as Ht; [|exact Hp].
    apply get_queue in Eg. destruct Eg as (Hf & Hw & Ha & _).
    destruct Hf as (_ & _ & _ & _ & _ & _ & _ & Hq). cbn in *.
    unfold Single. rewrite Ht, Hw, Ha, Hq, Hacc. auto.
Qed.

(** What the code does about C7.  A crawler built by [Crawler(url)] and
    its fluent methods always has a function in its [paginate] slot, the
    empty default function if none was configured, so the test of [crawl]
    always takes the limit as it was set; the limit becomes 1 only for a
    slot that holds no function.  Without a configured discovery function
    nothing is ever scheduled: the run performs at most one fetch, and
    exactly one when the limit is at least 1 or unbounded. *)
Theorem limit_not_forced_without_discovery (url : value)
  (setters : list (setter W)) (w : W) :
  let st := configure selectn select http rate_limit0 range0 url setters in
  (exists p, st_paginate st = Some p)
  /\ start_limit st = st_limit st
  /\ (forall st', st_paginate st' = None -> @start_limit W st' = Fin 1)
  /\ (forallb (fun s => negb (is_paginate s)) setters = true ->
      st_paginate st = Some (@noop_paginate W)
      /\ forall r, reachable load parse st w r ->
           timers r = [] /\ fetches r <= 1
           /\ (match st_limit st with
               | Fin L => (1 <= L)%Z
               | Infinity => True
               end -> fetches r = 1)).
Proof.
  cbn zeta. set (st := configure _ _ _ _ _ _ _).
  assert (Hsome : exists p, st_paginate st = Some p).
  { subst st. unfold configure. apply setters_keep_paginate. cbn. eauto. }
  assert (Hstart : start_limit st = st_limit st).
  { unfold start_limit. destruct Hsome as [p ->]. reflexivity. }
  split; [exact Hsome|]. split; [exact Hstart|]. split.
  { intros st' H. unfold start_limit. now rewrite H. }
  intros Hno.
  assert (Hp : st_paginate st = Some (@noop_paginate W)).
  { subst st. unfold configure. now rewrite setters_keep_noop. }
  split; [exact Hp|]. intros r Hr.
  pose proof (reachable_books Hr) as (Hf & _ & Hc).
  destruct Hr as (r0 & es & Hc0 & Hs).
  assert (Hsingle : Single r).
  { apply steps_single with es r0; [|now apply crawl_single with st w|exact Hs].
    apply crawl_frame in Hc0. destruct Hc0 as (_ & Hp0 & _). cbn in Hp0.
    now rewrite Hp0. }
  destruct Hsingle as (Ht & Hw & Ha).
  destruct Hf as (_ & _ & _ & _ & _ & _ & _ & Hq). cbn in Hq.
  rewrite Hq in Ha. split; [exact Ht|].
  destruct Hc as [[Hacc ->]|[Hacc (m & Hg & _)]].
  - split; [unfold fetches, count; cbn; lia|]. rewrite <- Hstart.
    destruct (start_limit st) as [L|]; [|discriminate].
    cbn in Hacc. apply Z.leb_le in Hacc. lia.
  - destruct Hg as (_ & _ & _ & Hfe & _). rewrite Hw, Ha, Hacc in Hfe.
    cbn in Hfe. split; lia.
Qed.

End Properties.

(** * Sample runs *)

Lemma all_rest_sound (depth : nat) (p : Run unit -> bool) (st : State unit) :
  Sample.all_rest depth p st = true ->
  forall es r, Sample.after es st = Some r ->
    (List.length es <= depth)%nat /\ (quiescent r = true -> p r = true).
Proof.
  unfold Sample.all_rest, Sample.after, run, Sample.start.
  destruct (crawl Sample.load Sample.parse st tt) as [r0|]; [|discriminate].
  intros Hall es r Hs. rewrite forallb_forall in Hall.
  destruct (@explore_complete unit Sample.load Sample.parse depth r0) with (es := es) (r' := r)
    as [Hlen Hin]; [|exact Hs|].
  - intros leaf Hleaf. apply Hall in Hleaf. now apply andb_prop in Hleaf.
  - split; [exact Hlen|]. intros Hq. apply Hin, Hall in Hq.
    now apply andb_prop in Hq.
Qed.

Example canRequest_http :
  canRequest Sample.parse (Str "http://b") = Ok (Str "http:").
Proof. reflexivity. Qed.

Example canRequest_relative :
  canRequest Sample.parse (Str "not-a-url") = Ok Null.
Proof. reflexivity. Qed.

Example canRequest_number : canRequest Sample.parse (Num 3) = Ok (Bool false).
Proof. reflexivity. Qed.

Example canRequest_bracket :
  canRequest Sample.parse (Str "http://[::1") = Throw "TypeError" "Invalid URL".
Proof. reflexivity. Qed.


(** C8 (as amended).  The filter of discovered candidates keeps the strings
    in which the parser finds a protocol and nothing else, and it throws on
    the strings that the parser throws on.  When the response handler
    returns, the parser threw on no candidate and the timers that were set
    are the candidates that passed the filter, in their order, as far as the
    limit lets them through (all of them when there is no limit), so a
    candidate that is no string or has no protocol is never scheduled; and
    nothing is written to the error signal.  When the parser throws on a
    candidate the handler ends there: no candidate of that response is
    scheduled.  With the seed "http://a" and a discovery function that
    answers ["http://b", "not-a-url", "http://c"] to the first response and
    nothing afterwards, every run comes to rest within 5 events with exactly
    3 fetches, among them b and c and not "not-a-url", no error reported and
    one call of the completion callback; and there is such a run. *)
Theorem invalid_candidates_dropped :
  (forall (parse : string -> result (option string)) (u : value),
      (passes parse u = true
       <-> exists s p, u = Str s /\ parse s = Ok (Some p) /\ p <> EmptyString)
      /\ forall n msg,
           canRequest parse u = Throw n msg
           <-> exists s, u = Str s /\ parse s = Throw n msg)
  /\ (forall (W : Type) (load : bool -> value -> value -> value)
             (parse : string -> result (option string))
             (c : Context) (r r' : Run W),
        onresponse load parse c r = Some r' ->
        exists p doc w' next_page urls,
          paginate r = Some p /\ p (world r) doc c = (w', Ok next_page)
          /\ candidates parse next_page = Ok urls
          /\ map fst (timers r')
             = (map fst (timers r) ++ allowance (limit r) urls)%list
          /\ (limit r = Infinity ->
              map fst (timers r') = (map fst (timers r) ++ urls)%list)
          /\ (forall u, In u urls
                        <-> truthy next_page = true
                            /\ In u (JS.concat [] next_page)
                            /\ exists s p, u = Str s
                                 /\ parse s = Ok (Some p) /\ p <> EmptyString)
          /\ count is_error (trace r') = count is_error (trace r))
  /\ (forall (W : Type) (load : bool -> value -> value -> value)
             (parse : string -> result (option string))
             (c : Context) (r : Run W) (p : discovery W) (w' : W)
             (next_page : value) (s n msg : string),
        paginate r = Some p ->
        p (world r) (document load c) c = (w', Ok next_page) ->
        truthy next_page = true -> In (Str s) (JS.concat [] next_page) ->
        parse s = Throw n msg ->
        onresponse load parse c r = None)
  /\ (forall es r,
        Sample.after es Sample.three_fetches = Some r ->
        (List.length es <= 5)%nat
        /\ (quiescent r = true ->
            fetches r = 3%nat /\ dones r = 1%nat
            /\ count is_error (trace r) = 0%nat
            /\ Sample.fetched "http://b" r = true
            /\ Sample.fetched "http://c" r = true
            /\ Sample.fetched "not-a-url" r = false))
  /\ (exists es r,
        Sample.after es Sample.three_fetches = Some r /\ quiescent r = true).
Proof.
  split; [|split; [|split; [|split]]].
  - intros parse u. split; [apply canRequest_valid|].
    intros n msg. apply canRequest_throws.
  - intros W load parse c r r' Ho. apply discovery_filters in Ho.
    destruct Ho as (p & doc & w' & next_page & urls & Hp & Hcall & Hc & Ht & He).
    exists p, doc, w', next_page, urls.
    split; [exact Hp|]. split; [exact Hcall|]. split; [exact Hc|].
    split; [exact Ht|].
    split; [|split; [intros u; now apply candidates_valid|exact He]].
    intros Hinf. now rewrite Hinf in Ht.
  - intros W load parse c r p w' next_page s n msg Hp Hcall Ht Hin Hs.
    destruct (proj2 (candidates_throw parse next_page)) as (n' & msg' & Hc).
    { split; [exact Ht|]. exists s, n, msg. now split. }
    exact (@discovery_throws W load parse c r p w' next_page n' msg'
             Hp Hcall Hc).
  - intros es r Hs.
    apply (@all_rest_sound 5
             (fun r => (fetches r =? 3)%nat && (dones r =? 1)%nat
                       && (count is_error (trace r) =? 0)%nat
                       && Sample.fetched "http://b" r
                       && Sample.fetched "http://c" r
                       && negb (Sample.fetched "not-a-url" r))) in Hs;
      [|vm_compute; reflexivity].
    destruct Hs as [Hlen Hq]. split; [exact Hlen|].
    intros Hr. apply Hq in Hr.
    repeat (apply andb_prop in Hr; destruct Hr as [Hr ?]).
    repeat split; try (apply Nat.eqb_eq; assumption); try assumption.
    now apply negb_true_iff.
  - exists [Complete 0; Fire 0; Fire 0; Complete 0; Complete 0]%nat. eexists.
    split; vm_compute; reflexivity.
Qed.

(** * Where the specification and the code part *)

(** Splits a statement about sample runs and evaluates each part. *)
Ltac evaluate :=
  repeat match goal with
         | |- _ /\ _ => split
         | |- exists _, _ => eexists
         end;
  vm_compute; reflexivity.

(** A crawl that has started and whose every event ends in an exception
    stays where it is. *)
Lemma stuck_start (st : State unit) (r0 : Run unit) :
  Sample.start st = Some r0 ->
  forallb (fun e => match step Sample.load Sample.parse r0 e with
                    | None => true
                    | Some _ => false
                    end) (events r0) = true ->
  forall es r, Sample.after es st = Some r -> r = r0.
Proof.
  unfold Sample.start, Sample.after, run. intros -> Hall es r.
  destruct es as [|e es]; cbn; [now intros [= <-]|].
  destruct (step Sample.load Sample.parse r0 e) as [r1|] eqn:Es; [|discriminate].
  apply events_complete in Es as Hin.
  rewrite forallb_forall in Hall. apply Hall in Hin.
  now rewrite Es in Hin.
Qed.


(** C8, counterexample.  The discovery function answers
    ["http://b", "http://[::1"]: the parser throws on the second candidate,
    which has no scheme that parses, and it is not dropped silently: the
    exception ends the response handler, "http://b", which passes the
    filter, is never scheduled, and the job of the seed is never counted
    out, so the completion callback is never called. *)
Lemma parser_exception_loses_valid_sibling :
  passes Sample.parse (Str "http://b") = true
  /\ canRequest Sample.parse (Str "http://[::1")
     = Throw "TypeError" "Invalid URL"
  /\ exists r0,
       Sample.start Demo.unclosed = Some r0
       /\ events r0 = [Complete 0%nat]
       /\ step Sample.load Sample.parse r0 (Complete 0) = None
       /\ forall es r,
            Sample.after es Demo.unclosed = Some r ->
            timers r = [] /\ Sample.fetched "http://b" r = false
            /\ fetches r = 1%nat /\ decs r = 0%nat /\ dones r = 0%nat.
Proof.
  split; [reflexivity|]. split; [reflexivity|].
  exists (Sample.state_after [] Demo.unclosed).
  assert (Hs : Sample.start Demo.unclosed
               = Some (Sample.state_after [] Demo.unclosed))
    by (vm_compute; reflexivity).
  split; [exact Hs|]. split; [vm_compute; reflexivity|].
  split; [vm_compute; reflexivity|].
  intros es r Hr. apply (@stuck_start _ _ Hs) in Hr; [|vm_compute; reflexivity].
  subst r. evaluate.
Qed.

(** C10, counterexample.  With a limit of -1 the seed is submitted all the
    same: one submission, more than the limit of the queue, and the queue
    refuses it; nothing is fetched and the completion callback is never
    called. *)
Lemma negative_limit_refuses_seed :
  exists r,
    Sample.start Sample.limit_negative = Some r
    /\ q_limit (queue r) = Fin (-1)
    /\ submissions r = 1%nat /\ rejections r = 1%nat
    /\ ~ Z.of_nat (submissions r) <= -1
    /\ forall es r',
         Sample.after es Sample.limit_negative = Some r' ->
         fetches r' = 0%nat /\ dones r' = 0%nat.
Proof.
  exists (Sample.state_after [] Sample.limit_negative).
  assert (Hs : Sample.start Sample.limit_negative
               = Some (Sample.state_after [] Sample.limit_negative))
    by (vm_compute; reflexivity).
  split; [exact Hs|].
  split; [vm_compute; reflexivity|]. split; [vm_compute; reflexivity|].
  split; [vm_compute; reflexivity|].
  split; [vm_compute; intros H; now apply H|].
  intros es r' Hr. apply (@stuck_start _ _ Hs) in Hr; [|vm_compute; reflexivity].
  subst r'. evaluate.
Qed.


(** C5, counterexample.  The seed is done and its page waits on a timer.
    Left alone, the crawl fetches the page with the driver it started with;
    when the user sets another driver at that point, the crawl that is
    already running fetches the page with the new driver. *)
Lemma driver_change_reaches_running_crawl :
  option_map Sample.bodies
    (steps Sample.load Sample.parse [Fire 0; Complete 0]%nat Sample.seed_done)
  = Some [Str "page"; Str "page"]
  /\ option_map Sample.bodies
       (steps Sample.load Sample.parse [Fire 0; Complete 0]%nat
          (mutate Sample.selectn Sample.select
             (SetDriver (Sample.page "other")) Sample.seed_done))
     = Some [Str "page"; Str "other"].
Proof. evaluate. Qed.


(** C7, at the failing input.  The claim: without a configured discovery
    function the limit that the run uses is forced to 1.  The code: the
    [paginate] slot of such a crawler holds the default function, which is
    truthy, so the run uses the limit of the crawler, unbounded by default
    and 5 when the crawler was given 5, and builds the queue with it. *)
Lemma default_crawler_keeps_limit :
  start_limit (Sample.crawler "http://a") = Infinity
  /\ start_limit (Sample.set (SetLimit (Fin 5)) (Sample.crawler "http://a"))
     = Fin 5
  /\ option_map (fun r => (limit r, q_limit (queue r)))
       (Sample.start (Sample.set (SetLimit (Fin 5)) (Sample.crawler "http://a")))
     = Some (Fin 5, Fin 5).
Proof. evaluate. Qed.

(** * The theorems at work on the sample crawlers *)

(** The state [seed_done] is a state of the crawl of [two_at_most]. *)
Lemma seed_done_reachable :
  reachable Sample.load Sample.parse Sample.two_at_most tt Sample.seed_done.
Proof.
  exists (Sample.state_after [] Sample.two_at_most), [Complete 0%nat].
  split; vm_compute; reflexivity.
Defined.

(** C2 at the completion of the seed of the scenario of three fetches, and
    at the state that follows. *)
Lemma children_counted_before_decrement_sample :
  (onjobfinish Sample.load Sample.parse (Str "http://a") Sample.first_reply Sample.seeded
   = Some Sample.finished
   /\ exists head added,
        trace Sample.finished
        = (trace Sample.seeded ++ head ++ children added
           ++ Dec :: (if scheduled Sample.finished <=? 0
                      then [CallDone] else []))%list
        /\ timers Sample.finished = (timers Sample.seeded ++ added)%list
        /\ scheduled Sample.finished
           = scheduled Sample.seeded + Z.of_nat (List.length added) - 1)
  /\ (reachable Sample.load Sample.parse Sample.three_fetches tt Sample.seed_handled
      /\ 0 <= scheduled Sample.seed_handled
      /\ dones Sample.seed_handled
         = if scheduled Sample.seed_handled =? 0 then 1%nat else 0%nat).
Proof.
  split.
  - assert (Hj : onjobfinish Sample.load Sample.parse (Str "http://a") Sample.first_reply
                   Sample.seeded = Some Sample.finished)
      by (vm_compute; reflexivity).
    split; [exact Hj|].
    destruct (proj1 (@children_counted_before_decrement unit Sample.load Sample.parse)
                _ _ _ _ Hj) as (head & added & Ht & Hm & Hs & _).
    exists head, added. exact (conj Ht (conj Hm Hs)).
  - assert (Hr : reachable Sample.load Sample.parse Sample.three_fetches tt
                   Sample.seed_handled).
    { exists Sample.seeded, [Complete 0%nat].
      split; vm_compute; reflexivity. }
    split; [exact Hr|].
    destruct (proj2 (@children_counted_before_decrement unit Sample.load Sample.parse)
                Sample.three_fetches tt _ Hr) as (H0 & _ & Hd & _).
    exact (conj H0 Hd).
Defined.





(** C5 at a change of the limit while the page waits on its timer, and at
    the fetch of that page after a change of the driver. *)
Lemma setters_frozen_except_fetch_hooks_sample :
  (captured (@SetLimit unit (Fin 7)) = true
   /\ step Sample.load Sample.parse
        (mutate Sample.selectn Sample.select (SetLimit (Fin 7)) Sample.seed_done)
        (Fire 0)
      = option_map (mutate Sample.selectn Sample.select (SetLimit (Fin 7)))
          (step Sample.load Sample.parse Sample.seed_done (Fire 0)))
  /\ (get Sample.load Sample.parse (Str "http://a/next")
        (mutate Sample.selectn Sample.select
           (SetDriver (Sample.page "other")) Sample.seed_done)
      = Some Sample.redirected
      /\ map (fun j => job_driver j tt (context 0))
           (q_running (queue Sample.redirected))
         = [Sample.page "other" tt (context 0)]).
Proof.
  split.
  - split; [reflexivity|].
    apply (proj1 (@setters_frozen_except_fetch_hooks unit Sample.load Sample.parse
                    Sample.selectn Sample.select)).
    reflexivity.
  - assert (Hg : get Sample.load Sample.parse (Str "http://a/next")
                   (mutate Sample.selectn Sample.select
                      (SetDriver (Sample.page "other")) Sample.seed_done)
                 = Some Sample.redirected) by (vm_compute; reflexivity).
    split; [exact Hg|].
    pose proof (proj2 (@setters_frozen_except_fetch_hooks unit Sample.load Sample.parse
                         Sample.selectn Sample.select) _ _ _ _ Hg) as Hrun.
    cbv zeta in Hrun.
    change (q_running (queue Sample.redirected)
            = (q_running (queue Sample.seed_done)
               ++ [{| job_url := Str "http://a/next";
                      job_ctx := set_url (Str "http://a/next") (context 1);
                      job_driver := Sample.page "other";
                      job_response := @noop_hook unit |}])%list) in Hrun.
    rewrite Hrun. vm_compute. reflexivity.
Defined.


(** A crawler that was only given a limit. *)
Lemma limit_not_forced_without_discovery_sample :
  forallb (fun s => negb (is_paginate s)) [@SetLimit unit (Fin 5)] = true
  /\ start_limit
       (configure Sample.selectn Sample.select (Sample.page "page")
          Sample.no_wait Sample.no_wait (Str "http://a") [SetLimit (Fin 5)])
     = Fin 5
  /\ st_paginate
       (configure Sample.selectn Sample.select (Sample.page "page")
          Sample.no_wait Sample.no_wait (Str "http://a") [SetLimit (Fin 5)])
     = Some (@noop_paginate unit).
Proof.
  split; [reflexivity|].
  destruct (@limit_not_forced_without_discovery unit Sample.load Sample.parse
              Sample.selectn Sample.select (Sample.page "page")
              Sample.no_wait Sample.no_wait (Str "http://a")
              [SetLimit (Fin 5)] tt) as (_ & Hl & _ & Hno).
  split; [exact Hl|]. exact (proj1 (Hno eq_refl)).
Defined.

(** C8 at the response to the seed of the scenario of three fetches, and
    at the scenario at rest. *)
Lemma invalid_candidates_dropped_sample :
  (onresponse Sample.load Sample.parse Sample.first_response Sample.seeded
   = Some Sample.responded
   /\ count is_error (trace Sample.responded)
      = count is_error (trace Sample.seeded)
   /\ map fst (timers Sample.responded) = [Str "http://b"; Str "http://c"])
  /\ (Sample.parse "http://[::1" = Throw "TypeError" "Invalid URL"
      /\ onresponse Sample.load Sample.parse Sample.first_response
           (Sample.state_after [] Demo.unclosed) = None)
  /\ (Sample.after [Complete 0; Fire 0; Fire 0; Complete 0; Complete 0]%nat
        Sample.three_fetches = Some Sample.three_at_rest
      /\ quiescent Sample.three_at_rest = true
      /\ fetches Sample.three_at_rest = 3%nat
      /\ Sample.fetched "not-a-url" Sample.three_at_rest = false).
Proof.
  split; [|split].
  - assert (Ho : onresponse Sample.load Sample.parse Sample.first_response
                   Sample.seeded
                 = Some Sample.responded) by (vm_compute; reflexivity).
    split; [exact Ho|].
    destruct (proj1 (proj2 invalid_candidates_dropped) unit Sample.load
                Sample.parse _ _ _ Ho)
      as (p & doc & w' & next_page & urls & _ & _ & _ & _ & _ & _ & He).
    split; [exact He|vm_compute; reflexivity].
  - assert (Hs : Sample.parse "http://[::1" = Throw "TypeError" "Invalid URL")
      by reflexivity.
    split; [exact Hs|].
    apply (proj1 (proj2 (proj2 invalid_candidates_dropped)) unit Sample.load
             Sample.parse Sample.first_response
             (Sample.state_after [] Demo.unclosed) Demo.bracket tt
             (Arr [Str "http://b"; Str "http://[::1"]) "http://[::1"
             "TypeError" "Invalid URL").
    + reflexivity.
    + reflexivity.
    + reflexivity.
    + right. left. reflexivity.
    + exact Hs.
  - assert (Ha : Sample.after
                   [Complete 0; Fire 0; Fire 0; Complete 0; Complete 0]%nat
                   Sample.three_fetches = Some Sample.three_at_rest)
      by (vm_compute; reflexivity).
    assert (Hq : quiescent Sample.three_at_rest = true)
      by (vm_compute; reflexivity).
    split; [exact Ha|]. split; [exact Hq|].
    destruct (proj2 (proj1 (proj2 (proj2 (proj2 invalid_candidates_dropped)))
                       _ _ Ha) Hq) as (Hf & _ & _ & _ & _ & Hn).
    exact (conj Hf Hn).
Defined.

(** C9 at a JSON object, in [json_select] and in [compile]. *)
Lemma json_select_faults_on_object_sample :
  (isArray (Obj 1) = false
   /\ json_select Sample.selectn (Str "next") (Obj 1)
      = Throw "ReferenceError" "obj is not defined")
  /\ (response_is Sample.json_object Json = true
      /\ compile Sample.selectn Sample.select (Str "next") tt (Obj 1)
           Sample.json_object
         = (tt, Throw "ReferenceError" "obj is not defined")).
Proof.
  split.
  - split; [reflexivity|].
    apply (proj1 (@json_select_faults_on_object unit Sample.load Sample.parse
                    Sample.selectn Sample.select)).
    reflexivity.
  - split; [reflexivity|].
    apply (proj1 (proj2 (proj2 (@json_select_faults_on_object unit Sample.load Sample.parse
                                  Sample.selectn Sample.select))));
      reflexivity.
Defined.

(** C10 at the state where the page waits on its timer. *)
Lemma scheduled_submissions_accepted_sample :
  reachable Sample.load Sample.parse Sample.two_at_most tt Sample.seed_done
  /\ q_limit (queue Sample.seed_done) = Fin 2
  /\ rejections Sample.seed_done = 0%nat
  /\ Z.of_nat (submissions Sample.seed_done) <= 2
  /\ (nth_error (timers Sample.seed_done) 0 = Some (Str "http://a/next", 0)
      /\ reaches (q_accepted (queue Sample.seed_done))
           (q_limit (queue Sample.seed_done)) = false).
Proof.
  split; [exact seed_done_reachable|].
  destruct (@scheduled_submissions_accepted unit Sample.load Sample.parse
              Sample.two_at_most tt Sample.seed_done seed_done_reachable)
    as (Hq & Hpos & Htimer).
  split; [exact Hq|].
  assert (Hone : match start_limit Sample.two_at_most with
                 | Fin L => 1 <= L
                 | Infinity => True
                 end) by (vm_compute; discriminate).
  split; [exact (proj1 (Hpos Hone))|]. split; [exact (proj2 (Hpos Hone))|].
  assert (Hk : nth_error (timers Sample.seed_done) 0
               = Some (Str "http://a/next", 0)) by (vm_compute; reflexivity).
  split; [exact Hk|]. exact (proj1 (Htimer _ _ Hk)).
Defined.

(** * Further properties of the crawl *)

Section Coverage.

Set Default Proof Using "Type".

Variable W : Type.
Variable load : bool -> value -> value -> value.
Variable parse : string -> result (option string).

Local Open Scope nat_scope.

Local Arguments count : simpl never.
Local Arguments Z.of_nat : simpl never.
Local Arguments Z.add : simpl never.
Local Arguments Z.sub : simpl never.
Local Arguments done : simpl never.
Local Arguments run_hook : simpl never.
Local Arguments schedule : simpl never.
Local Arguments onresponse : simpl never.
Local Arguments onjobfinish : simpl never.
Local Arguments get : simpl never.
Local Arguments submit : simpl never.
Local Arguments finish : simpl never.
Local Arguments timer_callback : simpl never.

(** ** One signal for each job, one timer for each submission but the seed's *)

(** Opens a [Ledger] hypothesis and the [Ledger] goal into arithmetic. *)
Ltac open_ledger H :=
  destruct H as (Hfe & Hsi & Hti);
  unfold Ledger, fetches, submissions, responses, errors, decs, timers_set
    in *;
  cbn; rewrite ?count_snoc, ?length_app; cbn.

Lemma schedule_ledger (a s b : nat) (u : value) (r : Run W) :
  Ledger a s b r -> Ledger a s b (schedule u r).
Proof.
  intros H. unfold schedule. cbn. destruct (le0 _).
  - exact H.
  - cbn. destruct (throttle r (world r)) as [w1 t].
    destruct (delay r w1) as [w2 d].
    open_ledger H. repeat split; lia.
Qed.

Lemma forEach_schedule_ledger (a s b : nat) (urls : list value) (r : Run W) :
  Ledger a s b r -> Ledger a s b (fold_left (fun r u => schedule u r) urls r).
Proof.
  revert r. induction urls as [|u urls IH]; intros r H; cbn.
  - exact H.
  - apply IH, schedule_ledger, H.
Qed.

Lemma onresponse_ledger (a b : nat) (c : Context) (r r' : Run W) :
  Ledger a 0 b r -> onresponse load parse c r = Some r' -> Ledger a 1 b r'.
Proof.
  intros H. unfold onresponse. cbn.
  destruct (paginate r) as [p|]; [|discriminate].
  destruct (p (world r) _ c) as [w' [next_page|n msg]]; [|discriminate].
  destruct (if truthy next_page then _ else _) as [urls|n msg];
    [|discriminate].
  intros [= <-]. apply forEach_schedule_ledger.
  open_ledger H. repeat split; lia.
Qed.

Lemma onjobfinish_ledger (b : nat) (u : value) (rep : reply) (r r' : Run W) :
  outcome rep = true -> Ledger 1 0 b r ->
  onjobfinish load parse u rep r = Some r' -> Ledger 0 0 b r'.
Proof.
  intros Hout H. unfold onjobfinish.
  set (handled := if truthy (rep_err rep) then _ else _).
  assert (Hh : forall r1, handled = Some r1 -> Ledger 1 1 b r1).
  { subst handled. intros r1. unfold outcome in Hout.
    destruct (truthy (rep_err rep)).
    - intros [= <-]. open_ledger H. repeat split; lia.
    - destruct (rep_ctx rep) as [c|]; [|discriminate].
      apply onresponse_ledger, H. }
  destruct handled as [r1|]; [|discriminate].
  specialize (Hh r1 eq_refl). clear H.
  cbn. destruct (_ <=? _)%Z; intros [= <-];
    open_ledger Hh; repeat split; lia.
Qed.

(** [done] answers with an error or with the context. *)
Lemma done_outcome (response : hook W) (c : Context) (err res : value) (w : W) :
  outcome (snd (done response c err res w)) = true.
Proof.
  unfold done, outcome. destruct (truthy err) eqn:He; cbn.
  - now rewrite He.
  - destruct (run_hook response w _) as [w' c2]. cbn. reflexivity.
Qed.

Lemma get_ledger (b : nat) (u : value) (r r' : Run W) :
  Ledger 0 0 b r -> get load parse u r = Some r' -> Ledger 0 0 b r'.
Proof.
  intros H. unfold get. cbn.
  destruct (run_hook (st_request (self r)) (world r) _) as [w1 c].
  destruct (truthy (ctx_body c)).
  - pose proof (done_outcome (st_response (self r)) c Null (Obj (ctx_ref c)) w1)
      as Hout.
    destruct (done _ _ _ _ _) as [w2 rep]. cbn in Hout.
    intros Hj. eapply onjobfinish_ledger; [exact Hout| |exact Hj].
    open_ledger H. repeat split; lia.
  - intros [= <-]. open_ledger H. repeat split; lia.
Qed.

Lemma pump_ledger (b n : nat) (r r' : Run W) :
  Ledger 0 0 b r -> pump load parse n r = Some r' -> Ledger 0 0 b r'.
Proof.
  revert r. induction n as [|n IH]; intros r H; cbn.
  - now intros [= <-].
  - destruct (q_waiting (queue r)) as [|u rest].
    + now intros [= <-].
    + match goal with |- context [if ?c then _ else _] => destruct c end;
        [|now intros [= <-]].
      destruct (get load parse u _) as [r1|] eqn:Eg; [|discriminate].
      apply IH. apply get_ledger with (b := b) in Eg; [exact Eg|exact H].
Qed.

Lemma submit_ledger (u : value) (r r' : Run W) (queued : bool) :
  Ledger 0 0 1 r -> submit load parse u r = Some (queued, r') -> Ledger 0 0 0 r'.
Proof.
  intros H. unfold submit. destruct (reaches _ _).
  - intros [= <- <-]. open_ledger H. repeat split; lia.
  - destruct (pump load parse _ _) as [r1|] eqn:Ep; [|discriminate].
    intros [= <- <-]. apply pump_ledger with (b := 0) in Ep; [exact Ep|].
    open_ledger H. repeat split; lia.
Qed.

Lemma finish_ledger (k : nat) (j : Job W) (rep : reply) (r r' : Run W) :
  outcome rep = true -> Ledger 0 0 0 r ->
  nth_error (q_running (queue r)) k = Some j ->
  finish load parse k j rep r = Some r' -> Ledger 0 0 0 r'.
Proof.
  intros Hout H Hk. unfold finish.
  destruct (onjobfinish load parse _ rep _) as [r1|] eqn:Ej; [|discriminate].
  intros Hp. apply pump_ledger with (b := 0) in Hp; [exact Hp|].
  apply onjobfinish_ledger with (b := 0) in Ej; [exact Ej|exact Hout|].
  apply length_remove_at in Hk.
  open_ledger H. repeat split; lia.
Qed.

Lemma step_ledger (e : event) (r r' : Run W) :
  Ledger 0 0 0 r -> step load parse r e = Some r' -> Ledger 0 0 0 r'.
Proof.
  intros H. destruct e as [k|k|k]; cbn.
  - destruct (nth_error (timers r) k) as [[u wait]|] eqn:Ek; [|discriminate].
    unfold timer_callback.
    destruct (submit load parse u _) as [[queued r1]|] eqn:Es; [|discriminate].
    apply submit_ledger in Es.
    + now destruct queued; intros [= <-].
    + apply length_remove_at in Ek.
      open_ledger H. repeat split; lia.
  - destruct (nth_error (q_running (queue r)) k) as [j|] eqn:Ek; [|discriminate].
    destruct (job_driver j (world r) (job_ctx j)) as [w1 ans].
    pose proof (done_outcome (job_response j)
                  (same_object (job_ctx j) (ans_ctx ans))
                  (ans_err ans) (ans_res ans) w1) as Hout.
    destruct (done _ _ _ _ _) as [w2 rep]. cbn in Hout.
    apply finish_ledger; [exact Hout|exact H|exact Ek].
  - destruct (q_timeout (queue r)); [|discriminate].
    destruct (nth_error (q_running (queue r)) k) as [j|] eqn:Ek; [|discriminate].
    apply finish_ledger; [reflexivity|exact H|exact Ek].
Qed.

Lemma steps_ledger (es : list event) (r r' : Run W) :
  Ledger 0 0 0 r -> steps load parse es r = Some r' -> Ledger 0 0 0 r'.
Proof.
  revert r. induction es as [|e es IH]; intros r H; cbn.
  - now intros [= <-].
  - destruct (step load parse r e) as [r1|] eqn:Es; [|discriminate].
    apply IH. eapply step_ledger; eassumption.
Qed.

Lemma crawl_ledger (st : State W) (w : W) (r0 : Run W) :
  crawl load parse st w = Some r0 -> Ledger 0 0 0 r0.
Proof.
  rewrite crawl_seeding.
  destruct (submit load parse _ _) as [[queued r1]|] eqn:Es; [|discriminate].
  cbn. intros [= <-]. apply submit_ledger in Es; [exact Es|].
  unfold Ledger, seeding, fetches, submissions, responses, errors, decs,
    timers_set, count.
  cbn. repeat split.
Qed.


(** ** The trace only grows, and it begins with the seed *)

Lemma grows_refl (r : Run W) : grows r r.
Proof. exists []. now rewrite app_nil_r. Qed.

Lemma grows_trans (r1 r2 r3 : Run W) :
  grows r1 r2 -> grows r2 r3 -> grows r1 r3.
Proof.
  intros [t Ht] [t' Ht']. exists (t ++ t')%list.
  now rewrite Ht', Ht, app_assoc.
Qed.

Lemma onjobfinish_grows (u : value) (rep : reply) (r r' : Run W) :
  onjobfinish load parse u rep r = Some r' -> grows r r'.
Proof.
  intros H. apply onjobfinish_trace in H.
  destruct H as (head & added & Ht & _). eexists. exact Ht.
Qed.

(** A fetch that begins is written down before anything it leads to. *)
Lemma get_trace (u : value) (r r' : Run W) :
  get load parse u r = Some r' ->
  exists t, trace r' = (trace r ++ Fetch u :: t)%list.
Proof.
  unfold get. cbn.
  destruct (run_hook (st_request (self r)) (world r) _) as [w1 c].
  destruct (truthy (ctx_body c)).
  - destruct (done _ _ _ _ _) as [w2 rep].
    intros Hj. apply onjobfinish_grows in Hj. destruct Hj as [t Ht].
    cbn in Ht. exists t. now rewrite Ht, <- app_assoc.
  - intros [= <-]. exists []. reflexivity.
Qed.

Lemma pump_grows (n : nat) (r r' : Run W) :
  pump load parse n r = Some r' -> grows r r'.
Proof.
  revert r. induction n as [|n IH]; intros r; cbn.
  - intros [= <-]. apply grows_refl.
  - destruct (q_waiting (queue r)) as [|u rest].
    + intros [= <-]. apply grows_refl.
    + match goal with |- context [if ?c then _ else _] => destruct c end;
        [|intros [= <-]; apply grows_refl].
      destruct (get load parse u _) as [r1|] eqn:Eg; [|discriminate].
      intros Hp. apply IH in Hp. apply get_trace in Eg.
      destruct Eg as [t Ht]. cbn in Ht.
      eapply grows_trans; [|exact Hp]. eexists. exact Ht.
Qed.

Lemma submit_trace (u : value) (r r' : Run W) (queued : bool) :
  submit load parse u r = Some (queued, r') ->
  exists t, trace r' = (trace r ++ Submit u queued :: t)%list.
Proof.
  unfold submit. destruct (reaches _ _).
  - intros [= <- <-]. exists []. reflexivity.
  - destruct (pump load parse _ _) as [r1|] eqn:Ep; [|discriminate].
    intros [= <- <-]. apply pump_grows in Ep. destruct Ep as [t Ht].
    cbn in Ht. exists t. now rewrite Ht, <- app_assoc.
Qed.

Lemma finish_grows (k : nat) (j : Job W) (rep : reply) (r r' : Run W) :
  finish load parse k j rep r = Some r' -> grows r r'.
Proof.
  unfold finish.
  destruct (onjobfinish load parse _ rep _) as [r1|] eqn:Ej; [|discriminate].
  intros Hp. apply pump_grows in Hp. apply onjobfinish_grows in Ej.
  eapply grows_trans; [|exact Hp]. exact Ej.
Qed.

Lemma step_grows (e : event) (r r' : Run W) :
  step load parse r e = Some r' -> grows r r'.
Proof.
  destruct e as [k|k|k]; cbn.
  - destruct (nth_error (timers r) k) as [[u wait]|]; [|discriminate].
    unfold timer_callback.
    destruct (submit load parse u _) as [[queued r1]|] eqn:Es; [|discriminate].
    apply submit_trace in Es. destruct Es as [t Ht]. cbn in Ht.
    destruct queued; intros [= <-]; eexists; exact Ht.
  - destruct (nth_error (q_running (queue r)) k) as [j|]; [|discriminate].
    destruct (job_driver j (world r) (job_ctx j)) as [w1 ans].
    destruct (done _ _ _ _ _) as [w2 rep].
    intros Hf. now apply finish_grows in Hf.
  - destruct (q_timeout (queue r)); [|discriminate].
    destruct (nth_error (q_running (queue r)) k) as [j|]; [|discriminate].
    apply finish_grows.
Qed.

Lemma steps_grows (es : list event) (r r' : Run W) :
  steps load parse es r = Some r' -> grows r r'.
Proof.
  revert r. induction es as [|e es IH]; intros r; cbn.
  - intros [= <-]. apply grows_refl.
  - destruct (step load parse r e) as [r1|] eqn:Es; [|discriminate].
    intros Hs. eapply grows_trans; [eapply step_grows; exact Es|apply IH, Hs].
Qed.

(** [crawl] counts the seed, submits it, and the queue, which is empty,
    starts it on the spot. *)
Lemma crawl_trace (st : State W) (w : W) (r0 : Run W) :
  reaches 0 (start_limit st) = false -> crawl load parse st w = Some r0 ->
  exists t,
    trace r0 = (Inc :: Submit (st_url st) true :: Fetch (st_url st) :: t)%list.
Proof.
  intros Hacc. rewrite crawl_seeding. unfold submit.
  change (queue (seeding st w))
    with (@enqueue W (st_concurrency st) (st_timeout st) (start_limit st)).
  cbn [q_accepted q_limit enqueue]. rewrite Hacc.
  pose proof (@enqueue_slot W (st_concurrency st) (st_timeout st)
                (start_limit st)) as Hslot.
  cbn [accept q_waiting with_queue log queue app List.length pump
       q_running enqueue q_concurrency set_waiting] in *.
  destruct (Nat.ltb_spec 0
              match st_concurrency st with
              | Some (S n) => S n
              | _ => 1
              end) as [_|Hbad]; [|lia].
  match goal with
  | |- context [get load parse ?u ?x] => destruct (get load parse u x) as [r1|] eqn:Eg
  end; [|discriminate].
  cbn. intros [= <-]. apply get_trace in Eg. destruct Eg as [t Ht].
  cbn in Ht. exists t. exact Ht.
Qed.

(** X2.  When the limit is at least 1 or there is none, whatever the seed
    is, a string with a scheme or not, [crawl] counts it, submits it and
    the queue begins its fetch, before anything else happens in the run:
    the seed does not go through [canRequest], nor through the throttle or
    the delay. *)
Theorem seed_fetched_first_unchecked (st : State W) (w : W) (r : Run W) :
  match start_limit st with Fin L => (1 <= L)%Z | Infinity => True end ->
  reachable load parse st w r ->
  exists t,
    trace r = (Inc :: Submit (st_url st) true :: Fetch (st_url st) :: t)%list.
Proof.
  intros Hpos (r0 & es & Hc & Hs).
  assert (Hacc : reaches 0 (start_limit st) = false).
  { destruct (start_limit st) as [L|]; [|reflexivity].
    cbn. apply Z.leb_gt. lia. }
  apply crawl_trace in Hc; [|exact Hacc]. apply steps_grows in Hs.
  destruct Hc as [t Ht]. destruct Hs as [t' Ht'].
  exists (t ++ t')%list. now rewrite Ht', Ht.
Qed.

(** ** Only the seed and vetted urls are ever fetched *)

Lemma Forall_remove_at (A : Type) (P : A -> Prop) (k : nat) (l : list A) :
  Forall P l -> Forall P (remove_at k l).
Proof.
  intros H. rewrite Forall_forall in *. intros x Hx. apply H.
  unfold remove_at in Hx. apply in_app_or in Hx.
  destruct Hx as [Hx|Hx].
  - rewrite <- (firstn_skipn k l). apply in_or_app. now left.
  - rewrite <- (firstn_skipn (S k) l). apply in_or_app. now right.
Qed.

Lemma Forall_snoc (A : Type) (P : A -> Prop) (l : list A) (x : A) :
  Forall P l -> P x -> Forall P (l ++ [x]).
Proof. intros Hl Hx. apply Forall_app. split; [exact Hl|now constructor]. Qed.

Lemma vetted_log (seed : value) (o : Op) (r : Run W) :
  op_vetted parse seed o -> Vetted parse seed r -> Vetted parse seed (log o r).
Proof.
  intros Ho (Ht & Hw & Hr & Htr). unfold Vetted. cbn.
  repeat split; try assumption. now apply Forall_snoc.
Qed.

Lemma schedule_vetted (seed u : value) (r : Run W) :
  passes parse u = true -> Vetted parse seed r -> Vetted parse seed (schedule u r).
Proof.
  intros Hu H. unfold schedule. cbn. destruct (le0 _).
  - exact H.
  - cbn. destruct (throttle r (world r)) as [w1 t].
    destruct (delay r w1) as [w2 d].
    destruct H as (Ht & Hw & Hr & Htr). unfold Vetted. cbn.
    repeat split; try assumption.
    + now apply Forall_snoc.
    + apply Forall_snoc; [apply Forall_snoc|]; [exact Htr|exact I|exact Hu].
Qed.

Lemma forEach_schedule_vetted (seed : value) (urls : list value) (r : Run W) :
  Forall (fun u => passes parse u = true) urls ->
  Vetted parse seed r -> Vetted parse seed (fold_left (fun r u => schedule u r) urls r).
Proof.
  revert r. induction urls as [|u urls IH]; intros r Hu H; cbn.
  - exact H.
  - inversion Hu; subst. apply IH; [assumption|].
    apply schedule_vetted; assumption.
Qed.

Lemma onresponse_vetted (seed : value) (c : Context) (r r' : Run W) :
  Vetted parse seed r -> onresponse load parse c r = Some r' ->
  Vetted parse seed r'.
Proof.
  intros H. unfold onresponse. cbn.
  destruct (paginate r) as [p|]; [|discriminate].
  destruct (p (world r) _ c) as [w' [next_page|n msg]]; [|discriminate].
  destruct (if truthy next_page then _ else _) as [urls|n msg] eqn:Eu;
    [|discriminate].
  intros [= <-]. apply forEach_schedule_vetted.
  - destruct (truthy next_page); [|injection Eu as <-; constructor].
    apply filter_result_ok in Eu. destruct Eu as [-> _].
    apply Forall_forall. intros u Hu. now apply filter_In in Hu.
  - change (Vetted parse seed (log (EmitResponse (document load c) c) r)).
    apply vetted_log; [exact I|exact H].
Qed.

Lemma onjobfinish_vetted (seed u : value) (rep : reply) (r r' : Run W) :
  vetted parse seed u -> Vetted parse seed r ->
  onjobfinish load parse u rep r = Some r' -> Vetted parse seed r'.
Proof.
  intros Hu H. unfold onjobfinish.
  set (handled := if truthy (rep_err rep) then _ else _).
  assert (Hh : forall r1, handled = Some r1 -> Vetted parse seed r1).
  { subst handled. intros r1. destruct (truthy (rep_err rep)).
    - intros [= <-]. apply vetted_log; [exact Hu|exact H].
    - destruct (rep_ctx rep) as [c|].
      + apply onresponse_vetted, H.
      + now intros [= <-]. }
  destruct handled as [r1|]; [|discriminate].
  specialize (Hh r1 eq_refl).
  cbn. destruct (_ <=? _)%Z; intros [= <-].
  - apply vetted_log; [exact I|].
    change (Vetted parse seed (log Dec r1)). apply vetted_log; [exact I|exact Hh].
  - change (Vetted parse seed (log Dec r1)). apply vetted_log; [exact I|exact Hh].
Qed.

Lemma get_vetted (seed u : value) (r r' : Run W) :
  vetted parse seed u -> Vetted parse seed r -> get load parse u r = Some r' -> Vetted parse seed r'.
Proof.
  intros Hu H. unfold get. cbn.
  destruct (run_hook (st_request (self r)) (world r) _) as [w1 c].
  destruct (truthy (ctx_body c)).
  - destruct (done _ _ _ _ _) as [w2 rep].
    apply onjobfinish_vetted; [exact Hu|].
    change (Vetted parse seed (log (Fetch u) r)). apply vetted_log; assumption.
  - intros [= <-]. destruct H as (Ht & Hw & Hr & Htr). unfold Vetted. cbn.
    repeat split; try assumption; now apply Forall_snoc.
Qed.

Lemma pump_vetted (seed : value) (n : nat) (r r' : Run W) :
  Vetted parse seed r -> pump load parse n r = Some r' -> Vetted parse seed r'.
Proof.
  revert r. induction n as [|n IH]; intros r H; cbn.
  - now intros [= <-].
  - destruct (q_waiting (queue r)) as [|u rest] eqn:Ew.
    + now intros [= <-].
    + match goal with |- context [if ?c then _ else _] => destruct c end;
        [|now intros [= <-]].
      destruct (get load parse u _) as [r1|] eqn:Eg; [|discriminate].
      apply IH. destruct H as (Ht & Hw & Hr & Htr). rewrite Ew in Hw.
      inversion Hw; subst.
      apply get_vetted with (seed := seed) in Eg; [exact Eg|assumption|].
      unfold Vetted. cbn. repeat split; assumption.
Qed.

Lemma submit_vetted (seed u : value) (r r' : Run W) (queued : bool) :
  vetted parse seed u -> Vetted parse seed r ->
  submit load parse u r = Some (queued, r') -> Vetted parse seed r'.
Proof.
  intros Hu H. unfold submit. destruct (reaches _ _).
  - intros [= <- <-]. apply vetted_log; assumption.
  - destruct (pump load parse _ _) as [r1|] eqn:Ep; [|discriminate].
    intros [= <- <-]. apply pump_vetted with (seed := seed) in Ep; [exact Ep|].
    destruct H as (Ht & Hw & Hr & Htr). unfold Vetted. cbn.
    repeat split; try assumption; now apply Forall_snoc.
Qed.

Lemma finish_vetted (seed : value) (k : nat) (j : Job W) (rep : reply)
  (r r' : Run W) :
  Vetted parse seed r -> nth_error (q_running (queue r)) k = Some j ->
  finish load parse k j rep r = Some r' -> Vetted parse seed r'.
Proof.
  intros H Hk. unfold finish.
  destruct (onjobfinish load parse _ rep _) as [r1|] eqn:Ej; [|discriminate].
  intros Hp. apply pump_vetted with (seed := seed) in Hp; [exact Hp|].
  destruct H as (Ht & Hw & Hr & Htr).
  apply onjobfinish_vetted with (seed := seed) in Ej; [exact Ej| |].
  - apply nth_error_In in Hk. rewrite Forall_forall in Hr. now apply Hr.
  - unfold Vetted. cbn. repeat split; try assumption.
    now apply Forall_remove_at.
Qed.

Lemma step_vetted (seed : value) (e : event) (r r' : Run W) :
  Vetted parse seed r -> step load parse r e = Some r' -> Vetted parse seed r'.
Proof.
  intros H. destruct e as [k|k|k]; cbn.
  - destruct (nth_error (timers r) k) as [[u wait]|] eqn:Ek; [|discriminate].
    unfold timer_callback.
    destruct (submit load parse u _) as [[queued r1]|] eqn:Es; [|discriminate].
    destruct H as (Ht & Hw & Hr & Htr).
    apply submit_vetted with (seed := seed) in Es.
    + now destruct queued; intros [= <-].
    + right. apply nth_error_In in Ek. rewrite Forall_forall in Ht.
      exact (Ht _ Ek).
    + unfold Vetted. cbn. repeat split; try assumption.
      now apply Forall_remove_at.
  - destruct (nth_error (q_running (queue r)) k) as [j|] eqn:Ek; [|discriminate].
    destruct (job_driver j (world r) (job_ctx j)) as [w1 ans].
    destruct (done _ _ _ _ _) as [w2 rep].
    apply finish_vetted; [exact H|exact Ek].
  - destruct (q_timeout (queue r)); [|discriminate].
    destruct (nth_error (q_running (queue r)) k) as [j|] eqn:Ek; [|discriminate].
    apply finish_vetted; assumption.
Qed.

Lemma steps_vetted (seed : value) (es : list event) (r r' : Run W) :
  Vetted parse seed r -> steps load parse es r = Some r' -> Vetted parse seed r'.
Proof.
  revert r. induction es as [|e es IH]; intros r H; cbn.
  - now intros [= <-].
  - destruct (step load parse r e) as [r1|] eqn:Es; [|discriminate].
    apply IH. eapply step_vetted; eassumption.
Qed.

Lemma crawl_vetted (st : State W) (w : W) (r0 : Run W) :
  crawl load parse st w = Some r0 -> Vetted parse (st_url st) r0.
Proof.
  rewrite crawl_seeding.
  destruct (submit load parse _ _) as [[queued r1]|] eqn:Es; [|discriminate].
  cbn. intros [= <-].
  apply submit_vetted with (seed := st_url st) in Es; [exact Es|now left|].
  unfold Vetted, seeding. cbn. repeat split; repeat constructor.
Qed.

(** X3.  In every state of every run, a url that was fetched, submitted to the
    queue or reported with an error is the seed or a string in which the
    parser found a protocol, and a url that waits on a timer is such a
    string: what the discovery function returns never reaches the driver
    unless it passed [canRequest]. *)
Theorem only_seed_and_vetted_fetched (st : State W) (w : W) (r : Run W) :
  reachable load parse st w r ->
  (forall u, In (Fetch u) (trace r) \/ (exists q, In (Submit u q) (trace r))
             \/ (exists e, In (EmitError e u) (trace r)) ->
     u = st_url st
     \/ exists s p, u = Str s /\ parse s = Ok (Some p) /\ p <> EmptyString)
  /\ (forall u wait, In (u, wait) (timers r) \/ In (Timer u wait) (trace r) ->
        exists s p, u = Str s /\ parse s = Ok (Some p) /\ p <> EmptyString).
Proof.
  intros (r0 & es & Hc & Hs).
  apply crawl_vetted in Hc. apply (steps_vetted _ Hc) in Hs.
  destruct Hs as (Ht & _ & _ & Htr). rewrite Forall_forall in Ht, Htr.
  split.
  - intros u Hu.
    assert (Hv : vetted parse (st_url st) u).
    { destruct Hu as [Hu|[[q Hu]|[e Hu]]]; exact (Htr _ Hu). }
    destruct Hv as [Hv|Hv]; [now left|right]. now apply canRequest_valid.
  - intros u wait [Hu|Hu]; apply canRequest_valid.
    + exact (Ht _ Hu).
    + exact (Htr _ Hu).
Qed.

(** ** What a run leaves alone *)

(** X12.  A run never writes to the crawler: in every state of every run
    the crawler object is as [crawl] found it, the discovery function, the
    throttle, the delay and the flag that the run uses are the ones the
    crawler had then, and the queue keeps the options it was made with: the
    timeout of the crawler, the limit of the run, and the concurrency of the
    crawler, 1 when none was set. *)
Theorem crawl_leaves_crawler_alone (st : State W) (w : W) (r : Run W) :
  reachable load parse st w r ->
  self r = st /\ paginate r = st_paginate st /\ throttle r = st_throttle st
  /\ delay r = st_delay st /\ throws r = st_throws st
  /\ q_timeout (queue r) = st_timeout st
  /\ q_limit (queue r) = start_limit st
  /\ q_concurrency (queue r)
     = match st_concurrency st with Some (S n) => S n | _ => 1 end.
Proof.
  intros Hr. apply reachable_books in Hr.
  destruct Hr as ((H1 & H2 & H3 & H4 & H5 & H6 & H7 & H8) & _).
  cbn in *. repeat split; assumption.
Qed.

(** ** Candidates beyond the limit *)

Lemma allowance_spent (n : number) (urls : list value) :
  le0 n = true -> allowance n urls = [].
Proof.
  destruct n as [l|]; [|discriminate]. cbn. intros Hl. apply Z.leb_le in Hl.
  now replace (Z.to_nat (l - 1)) with 0 by lia.
Qed.

Lemma forEach_schedule_allowance (urls : list value) (r : Run W) (x : number) :
  with_limit x (fold_left (fun r u => schedule u r) urls r)
  = with_limit x
      (fold_left (fun r u => schedule u r) (allowance (limit r) urls) r).
Proof.
  revert r. induction urls as [|u urls IH]; intros r.
  - destruct (limit r); cbn; now rewrite ?firstn_nil.
  - cbn [fold_left]. rewrite IH, allowance_cons.
    destruct (schedule_timers u r) as (Hl & _). rewrite Hl.
    destruct (le0 (JS.pred (limit r))) eqn:Hle.
    + rewrite allowance_spent by exact Hle. cbn [app fold_left].
      unfold schedule. cbn. now rewrite Hle.
    + reflexivity.
Qed.

Lemma forEach_schedule_limit (urls : list value) (r : Run W) :
  limit (fold_left (fun r u => schedule u r) urls r)
  = match limit r with
    | Fin l => Fin (l - Z.of_nat (List.length urls))
    | Infinity => Infinity
    end.
Proof.
  revert r. induction urls as [|u urls IH]; intros r.
  - cbn. destruct (limit r) as [l|]; [|reflexivity]. f_equal. lia.
  - cbn [fold_left List.length]. rewrite IH.
    destruct (schedule_timers u r) as (Hl & _). rewrite Hl.
    destruct (limit r) as [l|]; [|reflexivity]. cbn. f_equal. lia.
Qed.

(** X4.  [schedule] called on each of a list of candidates leaves the run as
    the
    calls for the candidates that the limit lets through leave it, the
    budget [limit] apart: a candidate beyond the limit sets no timer, is not
    counted in the in-flight counter, draws nothing from the throttle or the
    delay and writes nothing.  The budget itself is decremented by every
    call, also by those that schedule nothing, so it goes below zero when
    more candidates come than the limit allows. *)
Theorem candidates_beyond_limit_only_count (urls : list value) (r : Run W) :
  let all := fold_left (fun r u => schedule u r) urls r in
  let through :=
    fold_left (fun r u => schedule u r) (allowance (limit r) urls) r in
  (forall x, with_limit x all = with_limit x through)
  /\ world all = world through /\ timers all = timers through
  /\ scheduled all = scheduled through /\ trace all = trace through
  /\ limit all
     = match limit r with
       | Fin l => Fin (l - Z.of_nat (List.length urls))
       | Infinity => Infinity
       end.
Proof.
  cbn zeta.
  pose proof (forEach_schedule_allowance urls r Infinity) as E.
  split; [intros x; apply forEach_schedule_allowance|].
  split; [exact (f_equal (@world W) E)|].
  split; [exact (f_equal (@timers W) E)|].
  split; [exact (f_equal (@scheduled W) E)|].
  split; [exact (f_equal (@trace W) E)|].
  apply forEach_schedule_limit.
Qed.

(** ** Selector pagination *)

Variable selectn : value -> value -> value.
Variable select : value -> value -> value.

Lemma onresponse_schedules (c : Context) (r : Run W) (p : discovery W)
  (w' : W) (next_page : value) :
  paginate r = Some p ->
  p (world r) (document load c) c = (w', Ok next_page) ->
  schedules load parse c r next_page.
Proof.
  intros Hp Hcall. unfold schedules.
  destruct (candidates parse next_page) as [urls|n msg] eqn:Ec.
  - unfold onresponse. unfold document in Hcall. cbn. rewrite Hp, Hcall.
    unfold candidates in Ec. rewrite Ec.
    eexists. split; [reflexivity|].
    match goal with
    | |- context [fold_left _ ?l ?x] =>
        destruct (forEach_schedule_timers l x) as (Ht & _)
    end.
    exact Ht.
  - eapply discovery_throws; eassumption.
Qed.

(** X5.  With [paginate] set to a selector, what a response schedules depends
    on its content type alone: for html and xml the candidates are what
    [select] finds in the loaded document; for a JSON body that is an array
    they are what [selectn] finds in each element; for any other content
    type the answer is the empty array and nothing is scheduled.  In each
    case the candidates go through [canRequest]: when the parser takes them
    all the handler returns and as many are set on a timer as the limit
    lets through, and when it throws on one the handler ends there. *)
Theorem selector_pagination (fn : value) (c : Context) (r : Run W) :
  paginate r = Some (compile selectn select fn) ->
  match res_type (ctx_response c) with
  | Html | Xml => schedules load parse c r (select (document load c) fn)
  | Json =>
      forall items, ctx_body c = Arr items ->
        schedules load parse c r (Arr (map (selectn fn) items))
  | Other =>
      onresponse load parse c r
      = Some (log (EmitResponse (ctx_body c) c) r)
  end.
Proof.
  intros Hp.
  destruct (res_type (ctx_response c)) eqn:Et.
  - apply (@onresponse_schedules c r _ (world r) _ Hp).
    unfold compile, document, response_is. now rewrite Et.
  - apply (@onresponse_schedules c r _ (world r) _ Hp).
    unfold compile, document, response_is. now rewrite Et.
  - intros items Hb. apply (@onresponse_schedules c r _ (world r) _ Hp).
    unfold compile, document, response_is. rewrite Et. cbn.
    now rewrite Hb, json_select_array.
  - unfold onresponse, document. cbn. rewrite Hp.
    unfold compile, response_is. rewrite Et. reflexivity.
Qed.

(** ** A body that is there before the driver is called *)

Lemma count_children (p : Op -> bool) (added : list (value * Z)) :
  p Inc = false -> (forall u wait, p (Timer u wait) = false) ->
  count p (children added) = 0.
Proof.
  intros Hi Ht. induction added as [|[u wait] added IH]; [reflexivity|].
  unfold count in *. cbn. now rewrite Hi, Ht.
Qed.

(** X6.  When the request hook leaves a body on the context, [get] does not
    call
    the driver: whatever driver the crawler has, the fetch goes the same
    way.  The job is over inside the call: it never joins the running jobs,
    the response hook runs, the response is signalled, nothing is reported
    as an error, and the job is counted out of the in-flight counter. *)
Theorem prepopulated_body_skips_driver (d : Driver W) (u : value) (r : Run W) :
  truthy (ctx_body
            (snd (run_hook (st_request (self r)) (world r)
                    (set_url u (context (next_ref r)))))) = true ->
  get load parse u (mutate selectn select (SetDriver d) r)
  = option_map (mutate selectn select (SetDriver d)) (get load parse u r)
  /\ forall r', get load parse u r = Some r' ->
       queue r' = queue r /\ fetches r' = fetches r + 1
       /\ responses r' = responses r + 1 /\ errors r' = errors r
       /\ decs r' = decs r + 1.
Proof.
  intros Hb. split.
  - unfold get. cbn.
    destruct (run_hook (st_request (self r)) (world r) _) as [w1 c].
    cbn in Hb. rewrite Hb.
    destruct (done _ _ _ _ _) as [w2 rep].
    pose proof (onjobfinish_rebase load parse
                  (apply_setter selectn select (SetDriver d) (self r))
                  (throws r) u rep
                  (with_world w2
                     (with_world w1
                        (log (Fetch u) (with_next_ref (S (next_ref r)) r)))))
      as E.
    etransitivity; [exact E|]. clear E.
    destruct (onjobfinish load parse u rep _) as [r1|] eqn:E1; [|reflexivity].
    cbn [option_map]. f_equal. apply onjobfinish_calm in E1.
    destruct E1 as (Hself & _ & _ & _ & Hthrows & _). cbn in Hself, Hthrows.
    unfold mutate, rebase, with_self. now rewrite Hself, Hthrows.
  - intros r'. unfold get. cbn.
    destruct (run_hook (st_request (self r)) (world r) _) as [w1 c].
    cbn in Hb. rewrite Hb. unfold done. cbn.
    destruct (run_hook (st_response (self r)) w1 _) as [w2 c2].
    unfold onjobfinish. cbn.
    destruct (onresponse load parse c2 _) as [r1|] eqn:Eo; [|discriminate].
    apply onresponse_calm in Eo as Hc. apply onresponse_trace in Eo.
    destruct Hc as (_ & _ & _ & _ & _ & Hq).
    destruct Eo as (doc & added & Ht & _). cbn in Hq, Ht.
    assert (Hcount : forall p, p Inc = false ->
              (forall v wait, p (Timer v wait) = false) ->
              count p (trace r1)
              = count p (trace r) + (if p (Fetch u) then 1 else 0)
                + (if p (EmitResponse doc c2) then 1 else 0)).
    { intros p Hi Htm. rewrite Ht, count_app, count_snoc.
      change (EmitResponse doc c2 :: children added)
        with ([EmitResponse doc c2] ++ children added)%list.
      rewrite count_app, count_children by assumption.
      unfold count at 2. cbn. destruct (p (EmitResponse doc c2)); cbn; lia. }
    cbn. destruct (_ <=? _)%Z; intros [= <-];
      unfold fetches, responses, errors, decs; cbn;
      rewrite ?count_snoc, !Hcount by reflexivity; cbn;
      (split; [exact Hq|]); repeat split; lia.
Qed.

(** ** A driver that always fails *)

Lemma onjobfinish_error (u : value) (rep : reply) (r r' : Run W) :
  truthy (rep_err rep) = true -> onjobfinish load parse u rep r = Some r' ->
  timers r' = timers r /\ responses r' = responses r /\ queue r' = queue r
  /\ self r' = self r.
Proof.
  intros He. unfold onjobfinish. rewrite He. cbn.
  destruct (_ <=? _)%Z; intros [= <-]; unfold responses; cbn;
    rewrite !count_snoc; cbn; repeat split; lia.
Qed.

Lemma get_failing (st : State W) (u : value) (r r' : Run W) :
  leaves_no_body (st_request st) ->
  self r = st -> get load parse u r = Some r' ->
  timers r' = timers r /\ responses r' = responses r /\ self r' = st
  /\ q_waiting (queue r') = q_waiting (queue r)
  /\ q_accepted (queue r') = q_accepted (queue r)
  /\ q_limit (queue r') = q_limit (queue r)
  /\ exists j, job_driver j = st_driver st
               /\ q_running (queue r') = (q_running (queue r) ++ [j])%list.
Proof.
  intros no_body Hself. unfold get. cbn. rewrite Hself.
  pose proof (no_body (world r) u (next_ref r)) as Hb.
  destruct (run_hook (st_request st) (world r) _) as [w1 c].
  cbn in Hb. rewrite Hb. intros [= <-]. unfold responses. cbn.
  rewrite count_snoc. cbn. repeat split; try lia; try assumption.
  eexists. split; [|reflexivity]. reflexivity.
Qed.

Lemma finish_failing (st : State W) (k : nat) (j : Job W) (rep : reply)
  (r r' : Run W) :
  truthy (rep_err rep) = true -> failing_run st r ->
  finish load parse k j rep r = Some r' -> failing_run st r'.
Proof.
  intros He ((Ht & Hw & Ha) & (Hself & Hd) & Hr). unfold finish.
  destruct (onjobfinish load parse _ rep _) as [r1|] eqn:Ej; [|discriminate].
  apply onjobfinish_error in Ej; [|exact He].
  destruct Ej as (Ht1 & Hr1 & Hq1 & Hs1). cbn in Ht1, Hr1, Hq1, Hs1.
  rewrite pump_idle by (rewrite Hq1; exact Hw).
  intros [= <-]. unfold failing_run, Single, Driven.
  rewrite Ht1, Hr1, Hq1, Hs1. cbn.
  repeat split; try assumption. now apply Forall_remove_at.
Qed.

Lemma step_failing (st : State W) (e : event) (r r' : Run W) :
  always_fails (st_driver st) ->
  failing_run st r -> step load parse r e = Some r' -> failing_run st r'.
Proof.
  intros driver_fails H. destruct e as [k|k|k]; cbn.
  - destruct H as ((Ht & _) & _). rewrite Ht. now destruct k.
  - destruct (nth_error (q_running (queue r)) k) as [j|] eqn:Ek; [|discriminate].
    assert (Hj : job_driver j = st_driver st).
    { destruct H as (_ & (_ & Hd) & _). rewrite Forall_forall in Hd.
      apply Hd. eapply nth_error_In, Ek. }
    pose proof (driver_fails (world r) (job_ctx j)) as Hf. rewrite Hj.
    destruct (st_driver st (world r) (job_ctx j)) as [w1 ans].
    cbn in Hf. unfold done. rewrite Hf.
    apply finish_failing; [exact Hf|exact H].
  - destruct (q_timeout (queue r)); [|discriminate].
    destruct (nth_error (q_running (queue r)) k) as [j|]; [|discriminate].
    apply finish_failing; [reflexivity|exact H].
Qed.

Lemma steps_failing (st : State W) (es : list event) (r r' : Run W) :
  always_fails (st_driver st) ->
  failing_run st r -> steps load parse es r = Some r' -> failing_run st r'.
Proof.
  intros Hfail. revert r. induction es as [|e es IH]; intros r H; cbn.
  - now intros [= <-].
  - destruct (step load parse r e) as [r1|] eqn:Es; [|discriminate].
    apply IH. eapply step_failing; eassumption.
Qed.

Lemma crawl_failing (st : State W) (w : W) (r0 : Run W) :
  leaves_no_body (st_request st) ->
  crawl load parse st w = Some r0 -> failing_run st r0.
Proof.
  intros no_body. rewrite crawl_seeding. unfold submit.
  change (queue (seeding st w))
    with (@enqueue W (st_concurrency st) (st_timeout st) (start_limit st)).
  cbn [q_accepted q_limit enqueue].
  destruct (reaches 0 (start_limit st)) eqn:Hacc.
  - cbn. intros [= <-]. unfold failing_run, Single, Driven. cbn.
    rewrite Hacc. repeat split. constructor.
  - pose proof (@enqueue_slot W (st_concurrency st) (st_timeout st)
                  (start_limit st)) as Hslot.
    cbn [accept q_waiting with_queue log queue app List.length pump
         q_running enqueue q_concurrency set_waiting] in *.
    destruct (Nat.ltb_spec 0
                match st_concurrency st with
                | Some (S n) => S n
                | _ => 1
                end) as [_|Hbad]; [|lia].
    match goal with
    | |- context [get load parse ?u ?x] => destruct (get load parse u x) as [r1|] eqn:Eg
    end; [|discriminate].
    cbn. intros [= <-].
    apply get_failing with (st := st) in Eg; [|exact no_body|reflexivity].
    destruct Eg as (Ht & Hr & Hs & Hw & Ha & Hl & j & Hj & Hrun). cbn in *.
    unfold failing_run, Single, Driven.
    rewrite Ht, Hr, Hw, Ha, Hl, Hrun, Hacc. cbn.
    repeat split; try assumption. now repeat constructor.
Qed.

(** X7.  When the driver fails on every fetch (and the request hook leaves no
    body), the seed is the only url fetched: no response is ever signalled,
    the discovery function never runs, no timer is ever set.  When the run
    has come to rest after a seed that the queue took, there was one fetch,
    one error reported, and the completion callback was called once: the
    errors do not keep the run from completing. *)
Theorem failing_driver_ends_after_seed (st : State W) (w : W) (r : Run W) :
  always_fails (st_driver st) -> leaves_no_body (st_request st) ->
  reachable load parse st w r ->
  responses r = 0 /\ timers r = [] /\ fetches r <= 1
  /\ (reaches 0 (start_limit st) = false -> quiescent r = true ->
      fetches r = 1 /\ errors r = 1 /\ dones r = 1).
Proof.
  intros Hfail Hbody Hr.
  pose proof (reachable_books Hr) as (Hf & _ & Hc).
  destruct Hr as (r0 & es & Hc0 & Hs).
  pose proof (crawl_ledger _ _ Hc0) as Hl0.
  pose proof (steps_ledger _ Hl0 Hs) as (Hfe & Hsi & _).
  assert (Hrun : failing_run st r).
  { apply steps_failing with es r0; try assumption.
    now apply crawl_failing with w. }
  destruct Hrun as ((Ht & Hw & Ha) & _ & Hresp).
  destruct Hf as (_ & _ & _ & _ & _ & _ & _ & Hq). cbn in Hq.
  rewrite Hq in Ha.
  split; [exact Hresp|]. split; [exact Ht|].
  destruct Hc as [[Hacc ->]|[Hacc (m & Hg & _)]].
  - split; [unfold fetches, count; cbn; lia|]. congruence.
  - destruct Hg as (_ & Hsch & Hd & Hfet & _).
    rewrite Hw, Ha, Hacc in Hfet. cbn in Hfet.
    split; [lia|]. intros _ Hrest. unfold quiescent in Hrest.
    unfold pending in Hsch. rewrite Ht, Hw in *.
    destruct (q_running (queue r)); [|discriminate].
    cbn in *. unfold errors in *. repeat split; lia.
Qed.

(** ** No limit and always one more page *)

Lemma finds_parseable (f : W -> value -> Context -> W * value) :
  always_finds parse f -> parseable parse f.
Proof.
  intros Hfind w doc c. destruct (Hfind w doc c) as (u & urls & E). eauto.
Qed.

Lemma onresponse_unbounded (c : Context) (r r' : Run W) :
  limit r = Infinity -> onresponse load parse c r = Some r' ->
  limit r' = Infinity.
Proof.
  intros Hl. unfold onresponse. cbn.
  destruct (paginate r) as [p|]; [|discriminate].
  destruct (p (world r) _ c) as [w' [next_page|n msg]]; [|discriminate].
  destruct (if truthy next_page then _ else _) as [urls|n msg];
    [|discriminate].
  intros [= <-]. rewrite forEach_schedule_limit. cbn. now rewrite Hl.
Qed.

Lemma onjobfinish_onward (f : W -> value -> Context -> W * value)
  (u : value) (c : Context) (r r' : Run W) :
  always_finds parse f -> paginate r = Some (returning f) ->
  limit r = Infinity ->
  onjobfinish load parse u {| rep_err := Null; rep_ctx := Some c |} r = Some r' ->
  (scheduled r <= scheduled r')%Z /\ queue r' = queue r /\ self r' = self r
  /\ limit r' = Infinity /\ paginate r' = paginate r.
Proof.
  intros Hfind Hp Hl. unfold onjobfinish. cbn.
  destruct (onresponse load parse c r) as [r1|] eqn:Eo; [|discriminate].
  apply onresponse_calm in Eo as Hc. apply onresponse_trace in Eo as Ht.
  apply onresponse_unbounded in Eo as Hl1; [|exact Hl].
  apply discovery_filters in Eo.
  destruct Hc as (Hself & Hpag & _ & _ & _ & Hq).
  destruct Ht as (doc & added & _ & Htm & Hs).
  destruct Eo as (p & doc' & w' & next_page & urls & Hp' & Hcall & Hcand
                  & Hmap & _).
  rewrite Hp in Hp'. injection Hp' as <-. unfold returning in Hcall.
  pose proof (Hfind (world r) doc' c) as (u0 & urls0 & Hne).
  destruct (f (world r) doc' c) as [w1 v]. injection Hcall as _ <-.
  cbn in Hne. rewrite Hne in Hcand. injection Hcand as <-.
  rewrite Hl, Htm, map_app in Hmap. cbn in Hmap.
  apply app_inv_head in Hmap.
  assert (Hlen : 1 <= List.length added).
  { destruct added; [cbn in Hmap; congruence|cbn; lia]. }
  cbn. destruct (_ <=? _)%Z; intros [= <-]; cbn; repeat split;
    try assumption; lia.
Qed.

Lemma get_endless (f : W -> value -> Context -> W * value) (st : State W)
  (u : value) (r r' : Run W) :
  always_finds parse f ->
  endless_run f st r -> get load parse u r = Some r' -> endless_run f st r'.
Proof.
  intros Hfind (Hs & Hl & Hp & Hself & Hd). unfold get. cbn.
  destruct (run_hook (st_request (self r)) (world r) _) as [w1 c].
  destruct (truthy (ctx_body c)).
  - unfold done. cbn.
    destruct (run_hook (st_response (self r)) w1 _) as [w2 c2].
    intros Ej.
    apply onjobfinish_onward with (f := f) in Ej;
      [|exact Hfind|exact Hp|exact Hl].
    destruct Ej as (Hs1 & Hq1 & Hself1 & Hl1 & Hp1). cbn in *.
    unfold endless_run, Driven. rewrite Hq1, Hself1, Hp1.
    repeat split; try assumption. lia.
  - intros [= <-]. unfold endless_run, Driven. cbn. rewrite Hself.
    repeat split; try assumption.
    apply Forall_app. split; [exact Hd|now repeat constructor].
Qed.

Lemma pump_endless (f : W -> value -> Context -> W * value) (st : State W)
  (n : nat) (r r' : Run W) :
  always_finds parse f ->
  endless_run f st r -> pump load parse n r = Some r' -> endless_run f st r'.
Proof.
  intros Hfind. revert r. induction n as [|n IH]; intros r H; cbn.
  - now intros [= <-].
  - destruct (q_waiting (queue r)) as [|u rest].
    + now intros [= <-].
    + match goal with |- context [if ?c then _ else _] => destruct c end;
        [|now intros [= <-]].
      destruct (get load parse u _) as [r1|] eqn:Eg; [|discriminate].
      apply IH. apply get_endless with (f := f) (st := st) in Eg;
        [exact Eg|exact Hfind|exact H].
Qed.

Lemma submit_endless (f : W -> value -> Context -> W * value) (st : State W)
  (u : value) (r r' : Run W) (queued : bool) :
  always_finds parse f ->
  endless_run f st r -> submit load parse u r = Some (queued, r') ->
  endless_run f st r'.
Proof.
  intros Hfind H. unfold submit. destruct (reaches _ _).
  - now intros [= <- <-].
  - destruct (pump load parse _ _) as [r1|] eqn:Ep; [|discriminate].
    intros [= <- <-].
    apply pump_endless with (f := f) (st := st) in Ep; assumption.
Qed.

Lemma step_endless (f : W -> value -> Context -> W * value) (st : State W)
  (e : event) (r r' : Run W) :
  always_answers (st_driver st) -> always_finds parse f ->
  q_timeout (queue r) = None ->
  endless_run f st r -> step load parse r e = Some r' -> endless_run f st r'.
Proof.
  intros Hans Hfind Hto H. destruct e as [k|k|k]; cbn.
  - destruct (nth_error (timers r) k) as [[u wait]|]; [|discriminate].
    unfold timer_callback.
    destruct (submit load parse u _) as [[queued r1]|] eqn:Es; [|discriminate].
    apply submit_endless with (f := f) (st := st) in Es;
      [|exact Hfind|exact H].
    now destruct queued; intros [= <-].
  - destruct (nth_error (q_running (queue r)) k) as [j|] eqn:Ek; [|discriminate].
    destruct H as (Hs & Hl & Hp & Hself & Hd).
    assert (Hj : job_driver j = st_driver st).
    { rewrite Forall_forall in Hd. apply Hd. eapply nth_error_In, Ek. }
    pose proof (Hans (world r) (job_ctx j)) as Hok. rewrite Hj.
    destruct (st_driver st (world r) (job_ctx j)) as [w1 ans].
    cbn in Hok. unfold done. rewrite Hok.
    destruct (run_hook (job_response j) w1 _) as [w2 c2].
    unfold finish.
    destruct (onjobfinish load parse _ _ _) as [r1|] eqn:Ej; [|discriminate].
    apply onjobfinish_onward with (f := f) in Ej;
      [|exact Hfind|exact Hp|exact Hl].
    destruct Ej as (Hs1 & Hq1 & Hself1 & Hl1 & Hp1).
    cbn in Hs1, Hq1, Hself1, Hp1.
    apply pump_endless; [exact Hfind|].
    unfold endless_run, Driven. rewrite Hq1, Hself1, Hp1. cbn.
    repeat split; try assumption; [lia|]. now apply Forall_remove_at.
  - now rewrite Hto.
Qed.

Lemma crawl_endless (f : W -> value -> Context -> W * value) (st : State W)
  (w : W) (r0 : Run W) :
  always_finds parse f -> st_paginate st = Some (returning f) ->
  st_limit st = Infinity ->
  crawl load parse st w = Some r0 -> endless_run f st r0.
Proof.
  intros Hfind Hp Hlim. rewrite crawl_seeding.
  destruct (submit load parse _ _) as [[queued r1]|] eqn:Es; [|discriminate].
  cbn. intros [= <-].
  apply submit_endless with (f := f) (st := st) in Es;
    [exact Es|exact Hfind|].
  unfold endless_run, Driven, seeding, start_limit. cbn. rewrite Hp.
  repeat split; [lia|exact Hlim|constructor].
Qed.

Lemma steps_app (es es' : list event) (r : Run W) :
  steps load parse (es ++ es') r
  = match steps load parse es r with
    | Some r1 => steps load parse es' r1
    | None => None
    end.
Proof.
  revert r. induction es as [|e es IH]; intros r; cbn; [reflexivity|].
  destruct (step load parse r e); [apply IH|reflexivity].
Qed.

(** X8.  With no limit, no timeout, a driver that always answers without
    an error and a discovery function that returns and always finds at
    least one candidate in which the parser finds a protocol, none that
    makes it throw (a page that links to itself, say): every completion
    sets at least one timer before it counts its job out, so the in-flight
    counter never comes to zero.  The crawl never comes to rest and the
    completion callback is never called; in every state another event can
    happen.  Nothing in the crawler remembers the urls it has fetched. *)
Theorem crawl_without_limit_never_ends
  (f : W -> value -> Context -> W * value) (st : State W) (w : W) :
  st_paginate st = Some (returning f) -> always_finds parse f ->
  st_limit st = Infinity -> st_timeout st = None ->
  always_answers (st_driver st) ->
  (exists r0, crawl load parse st w = Some r0)
  /\ forall r, reachable load parse st w r ->
       (1 <= scheduled r)%Z /\ dones r = 0 /\ quiescent r = false
       /\ exists e r', step load parse r e = Some r'.
Proof.
  intros Hp Hfind Hlim Hto Hans.
  pose proof (finds_parseable Hfind) as Hx.
  split; [now apply crawl_total with f|].
  assert (Hstart : start_limit st = Infinity).
  { unfold start_limit. now rewrite Hp. }
  assert (Hrun : forall es r0 r,
             crawl load parse st w = Some r0 -> steps load parse es r0 = Some r ->
             endless_run f st r).
  { intros es. induction es as [|e es IH] using rev_ind; intros r0 r Hc.
    - cbn. intros [= <-]. now apply crawl_endless with w.
    - rewrite steps_app.
      destruct (steps load parse es r0) as [r1|] eqn:Es; [|discriminate].
      cbn. destruct (step load parse r1 e) as [r2|] eqn:Ee; [|discriminate].
      intros [= <-].
      assert (Hr1 : reachable load parse st w r1) by (exists r0, es; now split).
      pose proof (reachable_books Hr1) as (Hf & _ & _).
      destruct Hf as (_ & _ & _ & _ & _ & _ & Hto1 & _). cbn in *.
      apply step_endless with e r1; try assumption.
      + now rewrite Hto1.
      + now apply IH with r0. }
  intros r Hr. pose proof (reachable_books Hr) as (Hf & Hsat & Hbooks).
  destruct Hr as (r0 & es & Hc & Hs).
  destruct (Hrun es r0 r Hc Hs) as (Hone & _ & Hp1 & _).
  destruct Hbooks as [[Hacc _]|[_ (m & Hg & _)]];
    [rewrite Hstart in Hacc; discriminate|].
  destruct Hg as (_ & Hsch & Hd & _).
  assert (Hq : quiescent r = false).
  { unfold quiescent. unfold pending in Hsch. unfold Sat in Hsat.
    destruct (timers r); [|reflexivity].
    destruct (q_running (queue r)); [|reflexivity].
    destruct Hsat as [[Hw|Hw] Hslot]; [|cbn in Hw; lia].
    rewrite Hw in Hsch. cbn in Hsch. lia. }
  split; [exact Hone|]. split; [lia|]. split; [exact Hq|].
  unfold quiescent in Hq.
  destruct (timers r) as [|t ts] eqn:Et.
  - destruct (q_running (queue r)) as [|j js] eqn:Er; [discriminate|].
    exists (Complete 0).
    apply complete_total with f; [exact Hx|exact Hp1|now rewrite Er].
  - exists (Fire 0).
    apply fire_total with f; [exact Hx|exact Hp1|now rewrite Et].
Qed.

End Coverage.

(** * The methods that take no part in a run *)

(** ** The arguments of [throttle] *)

(** X10.  [throttle] with one argument takes it as the rate, for one request.
    A rate that does not begin with a digit gets a 1 in front: for a
    string, a unit alone stands for one unit ("s" is "1s"); for a negative
    number the 1 is added to it.  A number that is not negative is the rate
    as it is, and [ms] is not asked; a string that begins with a digit is
    what [ms] makes of it, so it configures the same throttle as the number
    of milliseconds it stands for.  With no argument nothing is set and the
    throttle of the crawler is the answer. *)
Theorem throttle_rate_normalised (W : Type) (selectn select : value -> value -> value)
  (ms : string -> value) (rate_limit : value -> value -> clock W)
  (st : State W) :
  let throttle := Fluent.throttle selectn select ms rate_limit in
  let set requests rate :=
    inr (apply_setter selectn select (SetThrottle (rate_limit requests rate)) st)
  in
  throttle Fluent.NoArgument st = inl (st_throttle st)
  /\ (forall rate,
        throttle (Fluent.Rate rate) st
        = throttle (Fluent.RequestsRate (Num 1) rate) st)
  /\ (forall requests s,
        Fluent.leading_digit (Fluent.Spoken s) = false ->
        throttle (Fluent.RequestsRate requests (Fluent.Spoken s)) st
        = throttle (Fluent.RequestsRate requests (Fluent.Spoken ("1" ++ s))) st
        /\ throttle (Fluent.RequestsRate requests (Fluent.Spoken s)) st
           = set requests (ms ("1" ++ s)))
  /\ (forall requests n,
        throttle (Fluent.RequestsRate requests (Fluent.Millis n)) st
        = set requests (Num (if 0 <=? n then n else 1 + n)))
  /\ (forall requests s n,
        Fluent.leading_digit (Fluent.Spoken s) = true -> ms s = Num n ->
        0 <= n ->
        throttle (Fluent.RequestsRate requests (Fluent.Spoken s)) st
        = throttle (Fluent.RequestsRate requests (Fluent.Millis n)) st).
Proof.
  cbn zeta. split; [reflexivity|]. split; [reflexivity|].
  split; [|split].
  - intros requests s Hs. unfold Fluent.throttle, Fluent.normal_rate.
    rewrite Hs. cbn. split; reflexivity.
  - intros requests n. unfold Fluent.throttle, Fluent.normal_rate. cbn.
    now destruct (0 <=? n).
  - intros requests s n Hs Hms Hn. unfold Fluent.throttle, Fluent.normal_rate.
    rewrite Hs, Hms. cbn. apply Z.leb_le in Hn. now rewrite Hn.
Qed.

(** ** The fluent setters together *)

(** X11.  Two setters of different keys can be called in either order, of two
    setters of the same key the later one wins, and no setter touches the
    url: a crawler built by [Crawler(url)] and any calls of its setters
    still has [url] as its seed. *)
Theorem fluent_setters_compose (W : Type)
  (selectn select : value -> value -> value) (http : Driver W)
  (rate_limit0 range0 : clock W) :
  let set := apply_setter selectn select in
  (forall (s s' : setter W) (st : State W),
      slot s <> slot s' -> set s (set s' st) = set s' (set s st))
  /\ (forall (s s' : setter W) (st : State W),
        slot s = slot s' -> set s (set s' st) = set s st)
  /\ (forall (url : value) (setters : list (setter W)),
        st_url (configure selectn select http rate_limit0 range0 url setters)
        = url).
Proof.
  cbn zeta. split; [|split].
  - intros s s' st Hs.
    destruct s, s'; try reflexivity; now contradiction Hs.
  - intros s s' st Hs. destruct s, s'; try discriminate Hs; reflexivity.
  - intros url setters. unfold configure.
    change url with (st_url (Crawler http rate_limit0 range0 url)) at 2.
    generalize (Crawler http rate_limit0 range0 url).
    induction setters as [|s l IH]; intros st; [reflexivity|].
    cbn [fold_left]. now rewrite IH.
Qed.

(** * The further theorems at work on the sample crawlers *)

(** The scenario of three fetches at rest is a state of its crawl. *)
Lemma three_at_rest_reachable :
  reachable Sample.load Sample.parse Sample.three_fetches tt Sample.three_at_rest.
Proof.
  exists Sample.seeded,
    [Complete 0; Fire 0; Fire 0; Complete 0; Complete 0]%nat.
  split; vm_compute; reflexivity.
Defined.


(** A seed that is no url is fetched all the same. *)
Lemma seed_fetched_first_unchecked_sample :
  (match start_limit Demo.no_scheme with
   | Fin L => 1 <= L
   | Infinity => True
   end
   /\ reachable Sample.load Sample.parse Demo.no_scheme tt
        Demo.no_scheme_started)
  /\ canRequest Sample.parse (Str "not-a-url") = Ok Null
  /\ exists t,
       trace Demo.no_scheme_started
       = Inc :: Submit (Str "not-a-url") true :: Fetch (Str "not-a-url") :: t.
Proof.
  assert (Hl : match start_limit Demo.no_scheme with
               | Fin L => 1 <= L
               | Infinity => True
               end) by (cbn; lia).
  assert (Hr : reachable Sample.load Sample.parse Demo.no_scheme tt
                 Demo.no_scheme_started).
  { exists Demo.no_scheme_started, []. split; vm_compute; reflexivity. }
  split; [exact (conj Hl Hr)|]. split; [reflexivity|].
  exact (@seed_fetched_first_unchecked unit Sample.load Sample.parse Demo.no_scheme tt _ Hl Hr).
Defined.

Lemma only_seed_and_vetted_fetched_sample :
  reachable Sample.load Sample.parse Sample.three_fetches tt Sample.three_at_rest
  /\ In (Fetch (Str "http://b")) (trace Sample.three_at_rest)
  /\ (Str "http://b" = st_url Sample.three_fetches
      \/ exists s p,
           Str "http://b" = Str s /\ Sample.parse s = Ok (Some p)
           /\ p <> EmptyString).
Proof.
  assert (Hin : In (Fetch (Str "http://b")) (trace Sample.three_at_rest)).
  { vm_compute. repeat (first [left; reflexivity | right]). }
  split; [exact three_at_rest_reachable|]. split; [exact Hin|].
  exact (proj1 (only_seed_and_vetted_fetched three_at_rest_reachable)
           (Str "http://b") (or_introl Hin)).
Defined.

(** Selector pagination on a plain text and on a JSON array. *)
Lemma selector_pagination_sample :
  paginate Demo.by_selector
  = Some (compile Sample.selectn Sample.select (Str "a.next"))
  /\ onresponse Sample.load Sample.parse Demo.plain_text Demo.by_selector
     = Some (log (EmitResponse (Str "page") Demo.plain_text) Demo.by_selector)
  /\ schedules Sample.load Sample.parse Demo.json_array Demo.by_selector
       (Arr (map (Sample.selectn (Str "a.next")) [Obj 1; Obj 2])).
Proof.
  assert (Hp : paginate Demo.by_selector
               = Some (compile Sample.selectn Sample.select (Str "a.next")))
    by reflexivity.
  split; [exact Hp|]. split.
  - exact (@selector_pagination unit Sample.load Sample.parse Sample.selectn Sample.select
             (Str "a.next") Demo.plain_text Demo.by_selector Hp).
  - exact (@selector_pagination unit Sample.load Sample.parse Sample.selectn Sample.select
             (Str "a.next") Demo.json_array Demo.by_selector Hp
             [Obj 1; Obj 2] eq_refl).
Defined.

(** A fetch answered from a cache, whatever the driver. *)
Lemma prepopulated_body_skips_driver_sample :
  truthy (ctx_body
            (snd (run_hook (st_request (self Demo.replay_starting))
                    (world Demo.replay_starting)
                    (set_url (Str "http://a")
                       (context (next_ref Demo.replay_starting))))))
  = true
  /\ get Sample.load Sample.parse (Str "http://a")
       (mutate Sample.selectn Sample.select (SetDriver Demo.broken)
          Demo.replay_starting)
     = option_map (mutate Sample.selectn Sample.select (SetDriver Demo.broken))
         (get Sample.load Sample.parse (Str "http://a") Demo.replay_starting).
Proof.
  assert (Hb : truthy (ctx_body
                  (snd (run_hook (st_request (self Demo.replay_starting))
                          (world Demo.replay_starting)
                          (set_url (Str "http://a")
                             (context (next_ref Demo.replay_starting))))))
               = true) by reflexivity.
  split; [exact Hb|].
  exact (proj1 (@prepopulated_body_skips_driver unit Sample.load Sample.parse
                  Sample.selectn Sample.select Demo.broken (Str "http://a")
                  Demo.replay_starting Hb)).
Defined.

(** A crawl whose driver always fails, at rest. *)
Lemma failing_driver_ends_after_seed_sample :
  (always_fails (st_driver Demo.all_broken)
   /\ leaves_no_body (st_request Demo.all_broken)
   /\ reachable Sample.load Sample.parse Demo.all_broken tt Demo.all_broken_at_rest)
  /\ responses Demo.all_broken_at_rest = 0%nat
  /\ timers Demo.all_broken_at_rest = []
  /\ fetches Demo.all_broken_at_rest = 1%nat
  /\ errors Demo.all_broken_at_rest = 1%nat
  /\ dones Demo.all_broken_at_rest = 1%nat.
Proof.
  assert (Hf : always_fails (st_driver Demo.all_broken))
    by (intros w c; reflexivity).
  assert (Hb : leaves_no_body (st_request Demo.all_broken))
    by (intros w u n; reflexivity).
  assert (Hr : reachable Sample.load Sample.parse Demo.all_broken tt Demo.all_broken_at_rest).
  { exists (Sample.state_after [] Demo.all_broken), [Complete 0%nat].
    split; vm_compute; reflexivity. }
  split; [exact (conj Hf (conj Hb Hr))|].
  destruct (failing_driver_ends_after_seed Hf Hb Hr) as (H1 & H2 & _ & H4).
  destruct (H4 eq_refl eq_refl) as (H5 & H6 & H7).
  exact (conj H1 (conj H2 (conj H5 (conj H6 H7)))).
Defined.

(** A crawl whose pages link back to the seed, four events on. *)
Lemma crawl_without_limit_never_ends_sample :
  (st_paginate Demo.looping = Some (returning Demo.self_link)
   /\ always_finds Sample.parse Demo.self_link
   /\ st_limit Demo.looping = Infinity /\ st_timeout Demo.looping = None
   /\ always_answers (st_driver Demo.looping))
  /\ reachable Sample.load Sample.parse Demo.looping tt Demo.looping_later
  /\ 1 <= scheduled Demo.looping_later
  /\ dones Demo.looping_later = 0%nat
  /\ quiescent Demo.looping_later = false.
Proof.
  assert (H1 : st_paginate Demo.looping = Some (returning Demo.self_link))
    by reflexivity.
  assert (H2 : always_finds Sample.parse Demo.self_link)
    by (intros w doc c; eexists; eexists; vm_compute; reflexivity).
  assert (H3 : st_limit Demo.looping = Infinity) by reflexivity.
  assert (H4 : st_timeout Demo.looping = None) by reflexivity.
  assert (H5 : always_answers (st_driver Demo.looping))
    by (intros w c; reflexivity).
  assert (Hr : reachable Sample.load Sample.parse Demo.looping tt Demo.looping_later).
  { exists (Sample.state_after [] Demo.looping),
      [Complete 0; Fire 0; Complete 0; Fire 0]%nat.
    split; vm_compute; reflexivity. }
  split; [exact (conj H1 (conj H2 (conj H3 (conj H4 H5))))|].
  split; [exact Hr|].
  destruct (proj2 (@crawl_without_limit_never_ends unit Sample.load Sample.parse
                     Demo.self_link Demo.looping tt H1 H2 H3 H4 H5)
              _ Hr) as (Hs & Hd & Hq & _).
  exact (conj Hs (conj Hd Hq)).
Defined.

(** [throttle('s')] is [throttle(1, '1s')], and [throttle(5, '2s')] is
    [throttle(5, 2000)]. *)
Lemma throttle_rate_normalised_sample :
  (Fluent.leading_digit (Fluent.Spoken "s") = false
   /\ Fluent.throttle Sample.selectn Sample.select Demo.ms Demo.rate_limit
        (Fluent.Rate (Fluent.Spoken "s")) (Sample.crawler "http://a")
      = Fluent.throttle Sample.selectn Sample.select Demo.ms Demo.rate_limit
          (Fluent.RequestsRate (Num 1) (Fluent.Spoken "1s"))
          (Sample.crawler "http://a"))
  /\ (Fluent.leading_digit (Fluent.Spoken "2s") = true
      /\ Demo.ms "2s" = Num 2000 /\ 0 <= 2000
      /\ Fluent.throttle Sample.selectn Sample.select Demo.ms Demo.rate_limit
           (Fluent.RequestsRate (Num 5) (Fluent.Spoken "2s"))
           (Sample.crawler "http://a")
         = Fluent.throttle Sample.selectn Sample.select Demo.ms Demo.rate_limit
             (Fluent.RequestsRate (Num 5) (Fluent.Millis 2000))
             (Sample.crawler "http://a")).
Proof.
  pose proof (@throttle_rate_normalised unit Sample.selectn Sample.select
                Demo.ms Demo.rate_limit (Sample.crawler "http://a"))
    as (_ & Hone & Hunit & _ & Hspoken).
  split.
  - split; [reflexivity|]. rewrite Hone.
    exact (proj1 (Hunit (Num 1) "s" eq_refl)).
  - assert (Hn : 0 <= 2000) by lia.
    split; [reflexivity|]. split; [reflexivity|]. split; [exact Hn|].
    exact (Hspoken (Num 5) "2s" 2000 eq_refl eq_refl Hn).
Defined.

(** A limit and the throws flag, in either order; two limits. *)
Lemma fluent_setters_compose_sample :
  (slot (SetLimit (Fin 3) : setter unit) <> slot (SetThrows true : setter unit)
   /\ Sample.set (SetLimit (Fin 3))
        (Sample.set (SetThrows true) (Sample.crawler "http://a"))
      = Sample.set (SetThrows true)
          (Sample.set (SetLimit (Fin 3)) (Sample.crawler "http://a")))
  /\ (slot (SetLimit (Fin 3) : setter unit) = slot (SetLimit (Fin 7) : setter unit)
      /\ Sample.set (SetLimit (Fin 3))
           (Sample.set (SetLimit (Fin 7)) (Sample.crawler "http://a"))
         = Sample.set (SetLimit (Fin 3)) (Sample.crawler "http://a")).
Proof.
  pose proof (@fluent_setters_compose unit Sample.selectn Sample.select
                (Sample.page "page") Sample.no_wait Sample.no_wait)
    as (Hcomm & Hlast & _).
  split.
  - assert (Hs : slot (SetLimit (Fin 3) : setter unit)
                 <> slot (SetThrows true : setter unit)) by discriminate.
    split; [exact Hs|]. exact (Hcomm _ _ (Sample.crawler "http://a") Hs).
  - split; [reflexivity|].
    exact (Hlast (SetLimit (Fin 3)) (SetLimit (Fin 7))
             (Sample.crawler "http://a") eq_refl).
Defined.

(** The crawler of the scenario of three fetches, when its run is over. *)
Lemma crawl_leaves_crawler_alone_sample :
  reachable Sample.load Sample.parse Sample.three_fetches tt Sample.three_at_rest
  /\ self Sample.three_at_rest = Sample.three_fetches
  /\ q_concurrency (queue Sample.three_at_rest) = 2%nat.
Proof.
  split; [exact three_at_rest_reachable|].
  destruct (crawl_leaves_crawler_alone three_at_rest_reachable)
    as (H1 & _ & _ & _ & _ & _ & _ & H8).
  exact (conj H1 H8).
Defined.
